(** * Observable: a shallow embedding of [src/Observable.ts]

    The class [Observable] is modelled over an explicit heap of nodes, an
    explicit promise store and an explicit job queue (the microtask queue of
    the single-threaded event loop).  Every method of the class becomes a
    state-passing function.

    What is modelled, and how:
    - object references are indices into the heap ([nodes]); promises are
      indices into the promise store ([promises]);
    - a function value ([fn]) is either a user callback, or one of the four
      function values the class itself creates: the bound [emit] handed to an
      executor (line 67), the method [subscriber.emit] read off an object and
      passed on without its receiver (line 84), the [_nextErr] closure
      (lines 113-115) and the [onError] closure of [merge] (lines 162-164);
    - user callbacks are functions from the settled value to an [outcome]:
      return a value, throw, or return a new promise.  They do not reach back
      into the heap of nodes; what they "record" is read off the [trace];
    - the promise engine ([_.Promise]) and [genIterator] are not part of the
      source file; they are modelled from their contract. *)

From Stdlib Require Import ZArith.
From Stdlib Require String.
Import String.StringSyntax.
From stdpp Require Import list.

Local Open Scope string_scope.

Abbreviation nid := nat (only parsing).
Abbreviation pid := nat (only parsing).

(** ** Values *)

(** Values that can settle a promise: anything but a promise. *)
Inductive plain :=
| Undefined
| Num (z : Z)
| Str (s : String.string)
| ErrorObj (message : String.string)   (* new Error(message) *)
| TypeError.                    (* raised by the runtime *)

(** What [emit] accepts: a plain value or a promise. *)
Inductive jsval :=
| Plain (v : plain)
| Fut (p : pid).

Inductive settled :=
| Fulfilled (v : plain)
| Rejected (e : plain).

(** What a user callback does with the value it is given. *)
Inductive outcome :=
| Return (v : plain)
| Throw (e : plain)
| ReturnPromise (r : option settled).
   (* [None]: new Promise(() => {}), which never settles;
      [Some x]: a promise already settled as [x] *)

(** The method [emit] as a function value: with the receiver it was bound to,
    or detached from any receiver. *)
Inductive emit_ref :=
| BoundEmit (this : nid)     (* this.emit.bind(this) *)
| DetachedEmit.              (* obj.emit, read and passed on as a value *)

Inductive fn :=
| FUser (f : plain -> outcome)
| FEmit (e : emit_ref)
| FNextErr (subscriber : nid)   (* reason => subscriber.emit(Promise.reject(reason)) *)
| FMergeErr (emit : emit_ref).  (* e => emit(Promise.reject(e)) *)

Inductive completion :=
| Normal (v : jsval)
| Raised (e : plain).

(** ** The heap of nodes *)

(** Ghost field: how the object came to be. *)
Inductive origin := Direct | BySubscribe.

Record node := Node {
  subscribers : list nid;
  publisher : option nid;
  _onEmit : option fn;
  _onError : option fn;
  _nextErr : option fn;
  made_by : origin
}.

(** ** The promise store and the job queue *)

Inductive stage := First | Second.

(** A reaction registered by [then].  [who] and [st] are ghost labels: the
    subscriber on whose behalf [emit] registered the reaction, and which of
    the two chained [then] calls it belongs to. *)
Inductive reaction :=
| React (onFulfilled onRejected : option fn) (target : pid) (who : nid) (st : stage)
| Adopt (target : pid).

Definition target_of (r : reaction) : pid :=
  match r with
  | React _ _ t _ _ => t
  | Adopt t => t
  end.

Inductive pstate :=
| Pending (rs : list reaction)
| Settled (x : settled).

Record job := Job { job_reaction : reaction; job_input : settled }.

(** Ghost log of the reactions that ran: with a handler ([Called]) or, the
    handler being absent, passing the settled value on ([Passed]). *)
Inductive event :=
| Called (who : nid) (st : stage) (input : settled)
| Passed (who : nid) (st : stage) (input : settled).

Record state := State {
  nodes : list node;
  promises : list pstate;
  queue : list job;
  trace : list event
}.

Definition init : state := State [] [] [] [].

Definition set_nodes (ns : list node) (s : state) : state :=
  State ns (promises s) (queue s) (trace s).
Definition set_promises (ps : list pstate) (s : state) : state :=
  State (nodes s) ps (queue s) (trace s).
Definition set_queue (q : list job) (s : state) : state :=
  State (nodes s) (promises s) q (trace s).
Definition log (e : event) (s : state) : state :=
  State (nodes s) (promises s) (queue s) (trace s ++ [e]).

Definition update_node (n : nid) (f : node -> node) (s : state) : state :=
  set_nodes (alter f n (nodes s)) s.

(** ** The promise engine *)

Definition alloc (ps : pstate) (s : state) : pid * state :=
  (length (promises s), set_promises (promises s ++ [ps]) s).

Definition enqueue (js : list job) (s : state) : state :=
  set_queue (queue s ++ js) s.

(** Modelled from the spec: [_.Promise.resolve], "construction of an
    already-resolved future from a plain value"; a promise is returned as it
    is. *)
Definition Promise_resolve (val : jsval) (s : state) : pid * state :=
  match val with
  | Fut p => (p, s)
  | Plain v => alloc (Settled (Fulfilled v)) s
  end.

(** Modelled from the spec: [_.Promise.reject], "construction of an
    already-rejected future from a failure reason". *)
Definition Promise_reject (reason : plain) (s : state) : pid * state :=
  alloc (Settled (Rejected reason)) s.

(** A reaction on a pending promise waits in the store; on a settled promise
    it is scheduled at once, and runs later, from the queue. *)
Definition register (p : pid) (r : reaction) (s : state) : state :=
  match promises s !! p with
  | Some (Pending rs) => set_promises (<[p := Pending (rs ++ [r])]> (promises s)) s
  | Some (Settled x) => enqueue [Job r x] s
  | None => s
  end.

(** Modelled from the spec: [then], "a two-callback chaining operation
    (success-handler, failure-handler) that itself returns a new future
    reflecting whichever handler ran and what it produced/raised". *)
Definition then_ (p : pid) (onFulfilled onRejected : option fn)
    (who : nid) (st : stage) (s : state) : pid * state :=
  let '(p', s) := alloc (Pending []) s in
  (p', register p (React onFulfilled onRejected p' who st) s).

(** Settling a pending promise schedules its reactions, in registration
    order; a settled promise stays as it is. *)
Definition settle (p : pid) (x : settled) (s : state) : state :=
  match promises s !! p with
  | Some (Pending rs) =>
      enqueue (map (fun r => Job r x) rs)
              (set_promises (<[p := Settled x]> (promises s)) s)
  | _ => s
  end.

(** Resolving with a promise makes the target follow that promise. *)
Definition resolve_with (p : pid) (v : jsval) (s : state) : state :=
  match v with
  | Plain x => settle p (Fulfilled x) s
  | Fut q => register q (Adopt p) s
  end.

(** ** The class *)

(** [constructor] without its executor call: [this.subscribers = []]. *)
Definition new_node : node := Node [] None None None None Direct.

(** [emit], lines 76-88.  [k] iterations remain ([len - i]); the array is
    read by index in the current state. *)
Fixpoint emit_loop (k : nat) (this : nid) (i : nat) (val : jsval) (s : state)
    : completion * state :=
  match k with
  | O => (Normal (Plain Undefined), s)
  | S k' =>
      match nodes s !! this with
      | None => (Raised TypeError, s)
      | Some nd =>
          match subscribers nd !! i with
          | None => (Raised TypeError, s)
          | Some subscriber =>
              match nodes s !! subscriber with
              | None => (Raised TypeError, s)
              | Some sn =>
                  let '(p0, s) := Promise_resolve val s in
                  let '(p1, s) := then_ p0 (_onEmit sn) (_onError sn) subscriber First s in
                  let '(_, s) :=
                    then_ p1 (Some (FEmit DetachedEmit)) (_nextErr sn) subscriber Second s in
                  emit_loop k' this (S i) val s
              end
          end
      end
  end.

(** A call of [emit] whose receiver is [this]; [None] is the call of the
    detached method, where [this.subscribers] raises a TypeError. *)
Definition emit (this : option nid) (val : jsval) (s : state) : completion * state :=
  match this with
  | None => (Raised TypeError, s)
  | Some n =>
      match nodes s !! n with
      | None => (Raised TypeError, s)
      | Some nd => emit_loop (length (subscribers nd)) n 0 val s
      end
  end.

Definition emit_via (e : emit_ref) (val : jsval) (s : state) : completion * state :=
  match e with
  | BoundEmit n => emit (Some n) val s
  | DetachedEmit => emit None val s
  end.

(** [constructor], lines 65-68. *)
Definition construct (executor : option (emit_ref -> state -> state)) (s : state)
    : nid * state :=
  let this := length (nodes s) in
  let s := set_nodes (nodes s ++ [new_node]) s in
  match executor with
  | Some ex => (this, ex (BoundEmit this) s)
  | None => (this, s)
  end.

(** [subscribe], lines 108-121. *)
Definition subscribe (self : nid) (onEmit onError : option fn) (s : state)
    : nid * state :=
  let '(subscriber, s) := construct None s in
  let s := update_node subscriber (fun nd =>
             Node (subscribers nd) (Some self) onEmit onError
                  (Some (FNextErr subscriber)) BySubscribe) s in
  let s := update_node self (fun nd =>
             Node (subscribers nd ++ [subscriber]) (publisher nd)
                  (_onEmit nd) (_onError nd) (_nextErr nd) (made_by nd)) s in
  (subscriber, s).

(** [Array.prototype.indexOf] on an array of object references. *)
Definition indexOf (l : list nid) (x : nid) : Z :=
  match list_find (fun y => y = x) l with
  | Some (i, _) => Z.of_nat i
  | None => (-1)%Z
  end.

(** [Array.prototype.splice(start, 1)]: a negative [start] counts from the
    end of the array. *)
Definition splice1 (l : list nid) (start : Z) : list nid :=
  let len := Z.of_nat (length l) in
  let from := if (start <? 0)%Z then Z.max (len + start) 0 else Z.min start len in
  take (Z.to_nat from) l ++ drop (S (Z.to_nat from)) l.

(** [unsubscribe], lines 126-129. *)
Definition unsubscribe (this : nid) (s : state) : state :=
  match nodes s !! this with
  | None => s
  | Some nd =>
      match publisher nd with
      | None => s
      | Some p =>
          update_node p (fun pn =>
            Node (splice1 (subscribers pn) (indexOf (subscribers pn) this))
                 (publisher pn) (_onEmit pn) (_onError pn) (_nextErr pn) (made_by pn)) s
      end
  end.

(** Modelled from the spec: [genIterator], "given any finite iterable
    collection, must produce a pull-based cursor exposing next element or
    done".  The cursor is the list of the elements not yet pulled. *)
Definition genIterator (iterable : list nid) : list nid := iterable.

Definition next (iter : list nid) : option (nid * list nid) :=
  match iter with
  | [] => None
  | item :: rest => Some (item, rest)
  end.

(** The executor of [merge], lines 159-169: the loop pulls from the cursor
    until it is done. *)
Fixpoint merge_executor (iter : list nid) (emit : emit_ref) (s : state) : state :=
  match iter with
  | [] => s
  | item :: rest =>
      let '(_, s) := subscribe item (Some (FEmit emit)) (Some (FMergeErr emit)) s in
      merge_executor rest emit s
  end.

(** [merge], lines 157-170. *)
Definition merge (iterable : list nid) (s : state) : nid * state :=
  let iter := genIterator iterable in
  construct (Some (merge_executor iter)) s.

(** ** Running callbacks: the event loop *)

Definition call (f : fn) (arg : plain) (s : state) : completion * state :=
  match f with
  | FUser g =>
      match g arg with
      | Return v => (Normal (Plain v), s)
      | Throw e => (Raised e, s)
      | ReturnPromise None => let '(q, s) := alloc (Pending []) s in (Normal (Fut q), s)
      | ReturnPromise (Some x) => let '(q, s) := alloc (Settled x) s in (Normal (Fut q), s)
      end
  | FEmit e => emit_via e (Plain arg) s
  | FNextErr subscriber =>
      let '(q, s) := Promise_reject arg s in emit (Some subscriber) (Fut q) s
  | FMergeErr e =>
      let '(q, s) := Promise_reject arg s in emit_via e (Fut q) s
  end.

Definition payload (x : settled) : plain :=
  match x with Fulfilled v => v | Rejected e => e end.

Definition handler_for (x : settled) (onFulfilled onRejected : option fn) : option fn :=
  match x with Fulfilled _ => onFulfilled | Rejected _ => onRejected end.

(** One job: the handler that matches the settled value runs and its result
    settles the target; an absent handler passes the settled value on. *)
Definition run_job (j : job) (s : state) : state :=
  match job_reaction j with
  | Adopt t => settle t (job_input j) s
  | React onF onR t who st =>
      match handler_for (job_input j) onF onR with
      | None => settle t (job_input j) (log (Passed who st (job_input j)) s)
      | Some f =>
          match call f (payload (job_input j)) (log (Called who st (job_input j)) s) with
          | (Normal v, s) => resolve_with t v s
          | (Raised e, s) => settle t (Rejected e) s
          end
      end
  end.

(** The event loop takes the oldest job. *)
Definition step (s : state) : state :=
  match queue s with
  | [] => s
  | j :: q => run_job j (set_queue q s)
  end.

Fixpoint run (k : nat) (s : state) : state :=
  match k with
  | O => s
  | S k' => run k' (step s)
  end.

(** * Vocabulary of the statements *)

(** ** The engine and [emit] *)

Definition dispatch (val : jsval) (s : state) (subscriber : nid) : state :=
  match nodes s !! subscriber with
  | None => s
  | Some sn =>
      let '(p0, s) := Promise_resolve val s in
      let '(p1, s) := then_ p0 (_onEmit sn) (_onError sn) subscriber First s in
      let '(_, s) := then_ p1 (Some (FEmit DetachedEmit)) (_nextErr sn) subscriber Second s in
      s
  end.

(** [ext X s s']: [s'] is [s] with jobs appended to the queue and promises
    appended to the store; of the promises of [s], only those in [X] may
    have changed. *)
Definition extl (evs : list event) (X : nat -> Prop) (s s' : state) : Prop :=
  nodes s' = nodes s /\ trace s' = trace s ++ evs /\
  (exists js, queue s' = queue s ++ js) /\
  length (promises s) <= length (promises s') /\
  forall p, p < length (promises s) -> ~ X p -> promises s' !! p = promises s !! p.

Abbreviation ext := (extl []).

Ltac ext_split := split; [|split; [|split; [|split]]].

Definition nobody : nat -> Prop := fun _ => False.
Definition only (q : nat) : nat -> Prop := fun p => p = q.

Definition val_is (val : jsval) : nat -> Prop := fun p => val = Fut p.

Definition emit_result (r : completion) : Prop :=
  r = Normal (Plain Undefined) \/ r = Raised TypeError.

(** All subscribers of [n] are objects of the heap. *)
Definition subscribers_exist (s : state) (nd : node) : Prop :=
  forall c, c ∈ subscribers nd -> is_Some (nodes s !! c).

Definition job_events (j : job) : list event :=
  match job_reaction j with
  | Adopt _ => []
  | React onF onR _ who st =>
      match handler_for (job_input j) onF onR with
      | None => [Passed who st (job_input j)]
      | Some _ => [Called who st (job_input j)]
      end
  end.

Definition job_target (j : job) : nat := target_of (job_reaction j).

(** The settled state of a value when it is emitted, if it has one. *)
Definition settled_as (s : state) (val : jsval) : option settled :=
  match val with
  | Plain v => Some (Fulfilled v)
  | Fut q => match promises s !! q with Some (Settled x) => Some x | _ => None end
  end.

Definition first_job (cn : node) (c t : nat) (x : settled) : job :=
  Job (React (_onEmit cn) (_onError cn) t c First) x.

Definition second_reaction (cn : node) (c t : nat) : reaction :=
  React (Some (FEmit DetachedEmit)) (_nextErr cn) (S t) c Second.

(** The promise [Promise.resolve] allocates for a plain value. *)
Definition value_cell (val : jsval) : list pstate :=
  match val with
  | Plain v => [Settled (Fulfilled v)]
  | Fut _ => []
  end.

(** The jobs [emit] schedules for a settled value: one per subscriber, in the
    order of the [subscribers] array. *)
Definition first_job_of (s : state) (x : settled) (c : nat) (j : job) : Prop :=
  exists cn t, nodes s !! c = Some cn /\ j = first_job cn c t x.

(** ** The heap of nodes *)

Definition push_subscriber (c : nat) (nd : node) : node :=
  Node (subscribers nd ++ [c]) (publisher nd) (_onEmit nd) (_onError nd) (_nextErr nd)
       (made_by nd).

Definition subscriber_node (self c : nat) (onEmit onError : option fn) : node :=
  Node [] (Some self) onEmit onError (Some (FNextErr c)) BySubscribe.

(** Bridges that [merge] hangs on the source [x]: one per occurrence of [x]
    in the iterable, numbered from [base] in iteration order. *)
Fixpoint bridges_of (x : nat) (base : nat) (iter : list nat) : list nat :=
  match iter with
  | [] => []
  | y :: rest => (if decide (y = x) then [base] else []) ++ bridges_of x (S base) rest
  end.

Definition push_subscribers (cs : list nat) (nd : node) : node :=
  Node (subscribers nd ++ cs) (publisher nd) (_onEmit nd) (_onError nd) (_nextErr nd)
       (made_by nd).

Definition set_subscribers (cs : list nat) (nd : node) : node :=
  Node cs (publisher nd) (_onEmit nd) (_onError nd) (_nextErr nd) (made_by nd).

Inductive op :=
| OpNew
| OpSubscribe (n : nat) (onEmit onError : option (plain -> outcome))
| OpUnsubscribe (n : nat)
| OpEmit (n : nat) (val : jsval)
| OpReject (reason : plain)
| OpMerge (iterable : list nat)
| OpTick.

Definition exec (o : op) (s : state) : state :=
  match o with
  | OpNew => (construct None s).2
  | OpSubscribe n f g =>
      if decide (n < length (nodes s))
      then (subscribe n (FUser <$> f) (FUser <$> g) s).2 else s
  | OpUnsubscribe n => unsubscribe n s
  | OpEmit n val => (emit (Some n) val s).2
  | OpReject reason => (Promise_reject reason s).2
  | OpMerge iterable =>
      if decide (Forall (fun x => x < length (nodes s)) iterable)
      then (merge iterable s).2 else s
  | OpTick => step s
  end.

Definition run_ops (ops : list op) (s : state) : state :=
  fold_left (fun s o => exec o s) ops s.

Definition all_subscribers (ns : list node) : list nat := flat_map subscribers ns.

Record structural (ns : list node) : Prop := {
  once : NoDup (all_subscribers ns);
  closed : Forall (fun c => c < length ns) (all_subscribers ns);
  published : Forall (fun nd => is_Some (publisher nd) <-> made_by nd = BySubscribe) ns
}.

(** ** Arrival in order *)

(** The values that arrived at the first stage of subscriber [c], in order. *)
Definition received (c : nat) (tr : list event) : list plain :=
  flat_map (fun e =>
    match e with
    | Called w First (Fulfilled v) | Passed w First (Fulfilled v) =>
        if decide (w = c) then [v] else []
    | _ => []
    end) tr.

Fixpoint emit_all (n : nat) (vs : list plain) (s : state) : state :=
  match vs with
  | [] => s
  | v :: vs' => emit_all n vs' (emit (Some n) (Plain v) s).2
  end.

(** ** Forwarding *)

(** What a callback of the class forwards, and into which node. *)
Definition forwarded (h : fn) (arg : plain) : option (nat * settled) :=
  match h with
  | FEmit (BoundEmit m) => Some (m, Fulfilled arg)
  | FNextErr m => Some (m, Rejected arg)
  | FMergeErr (BoundEmit m) => Some (m, Rejected arg)
  | _ => None
  end.

(** The event logged when the first-stage job of subscriber [c] runs. *)
Definition first_event (cn : node) (c : nat) (x : settled) : event :=
  match handler_for x (_onEmit cn) (_onError cn) with
  | None => Passed c First x
  | Some _ => Called c First x
  end.

(** A bridge: a subscriber of [x] whose handlers forward into [m]. *)
Definition bridge (b : node) (m : nat) : Prop :=
  _onEmit b = Some (FEmit (BoundEmit m)) /\ _onError b = Some (FMergeErr (BoundEmit m)).

Definition identity : fn := FUser Return.

(** [merge([a, b])] on two roots, one subscriber on the merged node, then
    [a.emit(v1); b.emit(v2)]. *)
Definition merge_two (v1 v2 : plain) : state :=
  let '(a, s) := construct None init in
  let '(b, s) := construct None s in
  let '(m, s) := merge [a; b] s in
  let '(_, s) := subscribe m (Some identity) None s in
  let '(_, s) := emit (Some a) (Plain v1) s in
  let '(_, s) := emit (Some b) (Plain v2) s in
  s.

(** ** Properties of the waiting reactions *)

Definition reactions (ps : pstate) : list reaction :=
  match ps with
  | Pending rs => rs
  | Settled _ => []
  end.

(** A property [P] of reactions holds of the jobs [js], and of every reaction
    that waits in the store. *)
Definition clean_jobs (P : reaction -> Prop) (js : list job) : Prop :=
  Forall (fun j => P (job_reaction j)) js.

Definition clean_store (P : reaction -> Prop) (s : state) : Prop :=
  Forall (fun ps => Forall P (reactions ps)) (promises s).

(** [P] holds of every reaction [emit] can register from now on: one on
    behalf of a subscriber of some node, with a target not yet allocated. *)
Definition fresh_ok (P : reaction -> Prop) (ns : list node) (L : nat) : Prop :=
  forall c f g p st, c ∈ all_subscribers ns -> L <= p -> P (React f g p c st).

Definition adopt_ok (P : reaction -> Prop) : Prop :=
  forall r, P r -> P (Adopt (target_of r)).

(** [s'] is [s] with jobs appended that satisfy [P], and a store that
    satisfies [P]. *)
Definition grows (P : reaction -> Prop) (s s' : state) : Prop :=
  (exists js, queue s' = queue s ++ js /\ clean_jobs P js) /\ clean_store P s'.

(** Every target named in the queue or the store is a promise of the store. *)
Definition targets_below (s : state) : Prop :=
  clean_jobs (fun r => target_of r < length (promises s)) (queue s) /\
  clean_store (fun r => target_of r < length (promises s)) s.

Definition avoids (t : nat) (r : reaction) : Prop := target_of r <> t.

(** ** Arrival and hand-over in order *)

(** The values the first stage of subscriber [c] handed on: those its own
    [emit] was called with at the second stage, in order. *)
Definition handed_on (c : nat) (tr : list event) : list plain :=
  flat_map (fun e =>
    match e with
    | Called w Second (Fulfilled v) => if decide (w = c) then [v] else []
    | _ => []
    end) tr.

Definition user_or_absent (h : option fn) : Prop :=
  match h with
  | None | Some (FUser _) => True
  | Some _ => False
  end.

(** [onEmit] is absent or the identity. *)
Definition hands_on (cn : node) : Prop :=
  _onEmit cn = None \/ exists f, _onEmit cn = Some (FUser f) /\ forall v, f v = Return v.

(** A first-stage job, by its parts: the subscriber's record, the
    subscriber, the promise of its first stage and the settled value. *)
Record first_stage := FirstStage {
  fs_node : node; fs_who : nat; fs_target : nat; fs_input : settled
}.

Definition job_of (a : first_stage) : job :=
  first_job (fs_node a) (fs_who a) (fs_target a) (fs_input a).

Definition event_of (a : first_stage) : event :=
  first_event (fs_node a) (fs_who a) (fs_input a).

(** The second-stage reaction waits on the promise of the first stage. *)
Definition armed (s : state) (a : first_stage) : Prop :=
  promises s !! fs_target a =
    Some (Pending [second_reaction (fs_node a) (fs_who a) (fs_target a)]).

(** What the queue gains when a first-stage job with a user handler, or with
    none, has run. *)
Definition appends (a : first_stage) : list job :=
  let r2 := second_reaction (fs_node a) (fs_who a) (fs_target a) in
  match handler_for (fs_input a) (_onEmit (fs_node a)) (_onError (fs_node a)) with
  | None => [Job r2 (fs_input a)]
  | Some (FUser f) =>
      match f (payload (fs_input a)) with
      | Return v => [Job r2 (Fulfilled v)]
      | Throw e => [Job r2 (Rejected e)]
      | ReturnPromise (Some z) => [Job (Adopt (fs_target a)) z]
      | ReturnPromise None => []
      end
  | Some _ => []
  end.

(** The first-stage jobs one [emit] of a settled value schedules. *)
Definition scheduled (s : state) (x : settled) (c : nat) (a : first_stage) : Prop :=
  nodes s !! c = Some (fs_node a) /\ fs_who a = c /\ fs_input a = x.

(** ** Reachable states *)

(** Every target named in the queue or the store is below [L]. *)
Definition bounded (L : nat) (s : state) : Prop :=
  clean_jobs (fun r => target_of r < L) (queue s) /\
  clean_store (fun r => target_of r < L) s.

(** ** Failures *)

(** What the first stage of a subscriber makes of a settled value: the value
    itself when the matching handler is absent, what a user handler returns
    or throws, or the settled state of the promise it returns.  [None] when
    the handler returns a promise that never settles. *)
Definition first_result (cn : node) (x : settled) : option settled :=
  match handler_for x (_onEmit cn) (_onError cn) with
  | None => Some x
  | Some (FUser f) =>
      match f (payload x) with
      | Return v => Some (Fulfilled v)
      | Throw e => Some (Rejected e)
      | ReturnPromise r => r
      end
  | Some _ => None
  end.

Definition thrower (e : plain) : fn := FUser (fun _ => Throw e).

(** err => err.message *)
Definition message_of : fn :=
  FUser (fun err => match err with ErrorObj m => Return (Str m) | _ => Throw TypeError end).

(** [root.subscribe(v => { throw new Error("x") })], subscribed again with
    an error handler that returns the message; then [root.emit(v)]. *)
Definition throw_scenario (v : plain) : state :=
  let '(root, s) := construct None init in
  let '(c, s) := subscribe root (Some (thrower (ErrorObj "x"))) None s in
  let '(_, s) := subscribe c None (Some message_of) s in
  let '(_, s) := emit (Some root) (Plain v) s in
  s.

(** The ways a user callback fails on [v] with [e]: it throws [e], or it
    returns a promise rejected by [e]. *)
Definition fails (f : plain -> outcome) (v e : plain) : Prop :=
  f v = Throw e \/ f v = ReturnPromise (Some (Rejected e)).

(** ** After [unsubscribe] *)







(** ** Scenarios *)

Definition never : fn := FUser (fun _ => ReturnPromise None).

(** [root] with subscribers [A] (pass-through) and [B] (never settles). *)
Definition two_subscribers : state :=
  let '(root, s) := construct None init in
  let '(_, s) := subscribe root (Some identity) None s in
  let '(_, s) := subscribe root (Some never) None s in
  s.

(** ... each further subscribed to. *)
Definition stall_tree : state :=
  let '(_, s) := subscribe 1 (Some identity) None two_subscribers in
  let '(_, s) := subscribe 2 (Some identity) None s in
  s.

Definition stall_scenario : state := (emit (Some 0) (Plain (Num 5)) stall_tree).2.

Definition two_roots : state :=
  let '(_, s) := construct None init in
  let '(_, s) := construct None s in
  s.

Definition two_recorders : state :=
  let '(root, s) := construct None init in
  let '(_, s) := subscribe root (Some identity) None s in
  let '(_, s) := subscribe root (Some identity) None s in
  s.

Definition throw_tree : state :=
  let '(root, s) := construct None init in
  let '(c, s) := subscribe root (Some (thrower (ErrorObj "x"))) None s in
  let '(_, s) := subscribe c None (Some message_of) s in
  s.

Definition failed_value_tree : state :=
  let '(root, s) := construct None init in
  let '(c, s) := subscribe root None None s in
  let '(_, s) := subscribe c None (Some message_of) s in
  let '(_, s) := Promise_reject (ErrorObj "x") s in
  s.

(** ** Order of delivery *)

(** The first-stage events of the subscribers [l], in the order of [l], for
    the settled value [x]. *)
Definition first_events (s : state) (x : settled) (l : list nat) : list event :=
  flat_map (fun c =>
    match nodes s !! c with
    | Some cn => [first_event cn c x]
    | None => []
    end) l.

(** ** The heap under [subscribe], [unsubscribe] and [merge] *)

(** An executor that calls the [emit] it is handed with each of [vals], in
    turn: [new Observable(emit => { emit(v1); emit(v2); ... })]. *)
Definition emitting_executor (vals : list jsval) (e : emit_ref) (s : state) : state :=
  fold_left (fun s val => (emit_via e val s).2) vals s.

(** [n.subscribe(f1, g1); n.subscribe(f2, g2); ...] *)
Definition subscribe_each (n : nat) (hs : list (option fn * option fn)) (s : state) : state :=
  fold_left (fun s h => (subscribe n h.1 h.2 s).2) hs s.

(** [merge([a, a])]: the same source twice, one subscriber on the merged
    node, then [a.emit(v)]. *)
Definition merge_same_twice (v : plain) : state :=
  let '(a, s) := construct None init in
  let '(m, s) := merge [a; a] s in
  let '(_, s) := subscribe m (Some identity) None s in
  let '(_, s) := emit (Some a) (Plain v) s in
  s.

(** ** The forest of nodes *)

(** The [subscribers] arrays and the [publisher] fields agree, and a
    publisher is older than its subscribers. *)
Record forest (ns : list node) : Prop := {
  listed_child : forall p pn c, ns !! p = Some pn -> c ∈ subscribers pn ->
                   exists cn, ns !! c = Some cn /\ publisher cn = Some p;
  older_publisher : forall c cn p, ns !! c = Some cn -> publisher cn = Some p -> p < c
}.

(** ** From the first stage to the second *)

(** The event of the second stage of subscriber [c] on the settled value
    [y]: [c.emit] is called on a fulfilled value, [c._nextErr] on a rejected
    one. *)
Definition second_event (cn : node) (c : nat) (y : settled) : event :=
  match handler_for y (Some (FEmit DetachedEmit)) (_nextErr cn) with
  | Some _ => Called c Second y
  | None => Passed c Second y
  end.

(** [v => 2 * v] on numbers. *)
Definition double : fn :=
  FUser (fun v => match v with Num z => Return (Num (2 * z)) | _ => Return v end).

(** An [onError] that gives the number 0 for every failure. *)
Definition recover : fn := FUser (fun _ => Return (Num 0)).

(** [root.subscribe(double, recover)] *)
Definition map_tree : state :=
  let '(root, s) := construct None init in
  let '(_, s) := subscribe root (Some double) (Some recover) s in
  let '(_, s) := Promise_reject (ErrorObj "x") s in
  s.

(** [root.subscribe(undefined, e => { throw new Error("y") })], subscribed
    again with an error handler, and a promise rejected by [Error("x")]. *)
Definition rethrow_tree : state :=
  let '(root, s) := construct None init in
  let '(c, s) := subscribe root None (Some (thrower (ErrorObj "y"))) s in
  let '(_, s) := subscribe c None (Some message_of) s in
  let '(_, s) := Promise_reject (ErrorObj "x") s in
  s.

(** ** Pending promises *)

(** The first-stage reaction of subscriber [c] with target [t]. *)
Definition first_reaction (cn : node) (c t : nat) : reaction :=
  React (_onEmit cn) (_onError cn) t c First.

Definition first_reaction_of (s : state) (c : nat) (r : reaction) : Prop :=
  exists cn t, nodes s !! c = Some cn /\ r = first_reaction cn c t.

(** [root] with two subscribers, and [p = new Promise(() => {})], still
    pending. *)
Definition pending_tree : state :=
  let '(_, s) := alloc (Pending []) two_subscribers in
  s.

(** ** Chains of subscribers *)

(** The first-stage job of [c] for the settled value [x] is in the queue,
    its promise is the target of nothing else and has [c]'s second stage
    waiting on it. *)
Definition at_first (s : state) (c : nat) (cn : node) (x : settled) : Prop :=
  exists pre post t,
    queue s = pre ++ first_job cn c t x :: post /\
    clean_jobs (avoids t) pre /\ clean_jobs (avoids t) post /\
    clean_store (avoids t) s /\
    promises s !! t = Some (Pending [second_reaction cn c t]) /\
    targets_below s.

(** A path from [c] down to [d] along the [subscribers] arrays, on which
    every node above [d] has no [onError]. *)
Inductive relays (ns : list node) : nat -> nat -> Prop :=
| relays_here d : relays ns d d
| relays_down c cn g d :
    ns !! c = Some cn -> _onError cn = None -> _nextErr cn = Some (FNextErr c) ->
    (forall c', c' ∈ subscribers cn -> is_Some (ns !! c')) ->
    g ∈ subscribers cn -> relays ns g d -> relays ns c d.

(** A chain of three subscribers without handlers under [root], and a
    promise rejected by [Error("x")]. *)
Definition relay_chain : state :=
  let '(root, s) := construct None init in
  let '(a, s) := subscribe root None None s in
  let '(b, s) := subscribe a None None s in
  let '(_, s) := subscribe b None (Some message_of) s in
  let '(_, s) := Promise_reject (ErrorObj "x") s in
  s.

(** ** Promises that never settle *)

(** [P] holds of every reaction that waits on a promise outside [X]. *)
Definition clean_store_but (X : nat -> Prop) (P : reaction -> Prop) (s : state) : Prop :=
  forall p ps, ~ X p -> promises s !! p = Some ps -> Forall P (reactions ps).

(** [s'] is [s] with jobs appended that satisfy [P], and a store that
    satisfies [P] outside [X]. *)
Definition grows_but (X : nat -> Prop) (P : reaction -> Prop) (s s' : state) : Prop :=
  (exists js, queue s' = queue s ++ js /\ clean_jobs P js) /\ clean_store_but X P s'.

(** No job and no waiting reaction has [t] or [q] as target, except what
    waits on [q] itself. *)
Definition untouched (t q : nat) (r : reaction) : Prop :=
  target_of r <> t /\ target_of r <> q.

Definition blocked (t q : nat) (s : state) : Prop :=
  t < length (promises s) /\ q < length (promises s) /\
  clean_jobs (untouched t q) (queue s) /\
  clean_store_but (only q) (untouched t q) s.

(** ** Transforms in order *)

(** What a transform hands on at once: the value it returns.  Nothing when
    it throws or returns a promise. *)
Definition handed_by (o : outcome) : list plain :=
  match o with
  | Return w => [w]
  | _ => []
  end.

(** [v => v === 1 ? Promise.resolve(10) : v > 0 ? 2 * v : new Promise(() => {})]
    on numbers. *)
Definition resolve_or_double (v : plain) : outcome :=
  match v with
  | Num 1 => ReturnPromise (Some (Fulfilled (Num 10)))
  | Num z => if (0 <? z)%Z then Return (Num (2 * z)) else ReturnPromise None
  | _ => ReturnPromise None
  end.

Definition mixed_tree : state :=
  let '(root, s) := construct None init in
  let '(_, s) := subscribe root (Some (FUser resolve_or_double)) None s in
  let '(_, s) := subscribe root (Some identity) None s in
  s.

(** What a transform hands on later: the value of the fulfilled promise it
    returns. *)
Definition handed_later (o : outcome) : list plain :=
  match o with
  | ReturnPromise (Some (Fulfilled z)) => [z]
  | _ => []
  end.

(** The subscribers of [nd] have user callbacks, the [_nextErr] that
    [subscribe] gave them, and no subscribers of their own. *)
Definition leaves (s : state) (nd : node) : Prop :=
  forall c, c ∈ subscribers nd ->
    exists cn, nodes s !! c = Some cn /\ subscribers cn = [] /\
               _nextErr cn = Some (FNextErr c) /\ user_or_absent (_onEmit cn).

(** The promise of the second stage that follows [t]: nothing waits on it. *)
Definition spare (s : state) (t : nat) : Prop :=
  promises s !! S t = Some (Pending []).

(** The second-stage job that the adoption of a returned promise
    schedules. *)
Definition adopted (a : first_stage) : list job :=
  match handler_for (fs_input a) (_onEmit (fs_node a)) (_onError (fs_node a)) with
  | Some (FUser f) =>
      match f (payload (fs_input a)) with
      | ReturnPromise (Some z) =>
          [Job (second_reaction (fs_node a) (fs_who a) (fs_target a)) z]
      | _ => []
      end
  | _ => []
  end.

(** A job whose turn ends the work on its value, or, for an adoption,
    schedules the second stage: [ready s j js] when running [j] in [s]
    appends [js] to the queue. *)
Inductive ready (s : state) : job -> list job -> Prop :=
| ready_value onR t c w :
    promises s !! t = Some (Pending []) ->
    ready s (Job (React (Some (FEmit DetachedEmit)) onR t c Second) (Fulfilled w)) []
| ready_failure t c cn e :
    promises s !! t = Some (Pending []) ->
    nodes s !! c = Some cn -> subscribers cn = [] ->
    ready s (Job (React (Some (FEmit DetachedEmit)) (Some (FNextErr c)) t c Second)
                 (Rejected e)) []
| ready_adopt t z r :
    promises s !! t = Some (Pending [r]) ->
    ready s (Job (Adopt t) z) [Job r z].

(** The first stage of [a] returned a settled promise. *)
Definition adopting (a : first_stage) : Prop :=
  exists z, appends a = [Job (Adopt (fs_target a)) z].

(** What the jobs need that the first stage [a] appends. *)
Definition set_up (s : state) (a : first_stage) : Prop :=
  spare s (fs_target a) /\ (adopting a -> armed s a) /\
  nodes s !! fs_who a = Some (fs_node a) /\ subscribers (fs_node a) = [] /\
  _nextErr (fs_node a) = Some (FNextErr (fs_who a)).

(** ** Nested merges *)

(** A path from the bridge [b] to [d]: [b] forwards into a merged node, one
    of whose subscribers is again a bridge, and so on down to [d]. *)
Inductive carries (ns : list node) : nat -> nat -> Prop :=
| carries_here d : carries ns d d
| carries_bridge b bn m mn c d :
    ns !! b = Some bn -> bridge bn m -> ns !! m = Some mn ->
    (forall c', c' ∈ subscribers mn -> is_Some (ns !! c')) ->
    c ∈ subscribers mn -> carries ns c d -> carries ns b d.

(** [merge([merge([a])])], with one subscriber on the outer merged node. *)
Definition nested_merge : state :=
  let '(a, s) := construct None init in
  let '(m1, s) := merge [a] s in
  let '(m2, s) := merge [m1] s in
  let '(_, s) := subscribe m2 (Some identity) None s in
  let '(_, s) := Promise_reject (ErrorObj "x") s in
  s.

(** * Lemmas *)

(** ** The engine and [emit] *)

Lemma ext_refl X s : ext X s s.
Proof. ext_split; auto; [by rewrite app_nil_r|by exists []; rewrite app_nil_r]. Qed.

Lemma extl_trans e1 e2 X Y s s' s'' :
  extl e1 X s s' -> extl e2 Y s' s'' ->
  (forall p, p < length (promises s) -> Y p -> X p) ->
  extl (e1 ++ e2) X s s''.
Proof.
  intros (N1 & T1 & [j1 Q1] & L1 & F1) (N2 & T2 & [j2 Q2] & L2 & F2) HXY.
  ext_split.
  - congruence.
  - by rewrite T2, T1, app_assoc.
  - exists (j1 ++ j2). by rewrite Q2, Q1, app_assoc.
  - lia.
  - intros p Hp HX. rewrite F2; [by apply F1| lia | naive_solver].
Qed.

Lemma ext_trans X Y s s' s'' :
  ext X s s' -> ext Y s' s'' ->
  (forall p, p < length (promises s) -> Y p -> X p) ->
  ext X s s''.
Proof. apply (extl_trans [] []). Qed.

Lemma ext_weaken X Y evs s s' :
  extl evs X s s' -> (forall p, p < length (promises s) -> X p -> Y p) -> extl evs Y s s'.
Proof.
  intros (N1 & T1 & Q1 & L1 & F1) HXY. ext_split; auto.
Qed.

Lemma ext_alloc ps s p s' :
  alloc ps s = (p, s') ->
  ext nobody s s' /\ p = length (promises s) /\ promises s' = promises s ++ [ps].
Proof.
  intros [= <- <-]. split; [|done].
  ext_split; simpl; auto.
  - by rewrite app_nil_r.
  - by exists []; rewrite app_nil_r.
  - rewrite length_app. lia.
  - intros p Hp _. by rewrite lookup_app_l.
Qed.

Lemma ext_enqueue js s : ext nobody s (enqueue js s).
Proof. ext_split; simpl; eauto. by rewrite app_nil_r. Qed.

Lemma ext_register q r s : ext (only q) s (register q r s).
Proof.
  unfold register. destruct (promises s !! q) as [[rs|x]|] eqn:E.
  - ext_split; simpl; auto.
    + by rewrite app_nil_r.
    + by exists []; rewrite app_nil_r.
    + by rewrite length_insert.
    + intros p Hp Hne. apply list_lookup_insert_ne. unfold only in Hne. congruence.
  - eapply ext_weaken; [apply ext_enqueue|]. by unfold nobody; intros ? ? [].
  - apply ext_refl.
Qed.

Lemma ext_settle t x s : ext (only t) s (settle t x s).
Proof.
  unfold settle. destruct (promises s !! t) as [[rs|y]|] eqn:E; try apply ext_refl.
  ext_split; simpl; eauto.
  - by rewrite app_nil_r.
  - by rewrite length_insert.
  - intros p Hp Hne. apply list_lookup_insert_ne. unfold only in Hne. congruence.
Qed.

Lemma ext_resolve_with t v s :
  ext (fun p => p = t \/ v = Fut p) s (resolve_with t v s).
Proof.
  destruct v as [x|q]; simpl.
  - eapply ext_weaken; [apply ext_settle|]. unfold only. naive_solver.
  - eapply ext_weaken; [apply ext_register|]. unfold only. naive_solver.
Qed.

Lemma ext_then p f g w st s p' s' :
  then_ p f g w st s = (p', s') ->
  ext (only p) s s' /\ p' = length (promises s).
Proof.
  unfold then_. destruct (alloc (Pending []) s) as [q s1] eqn:E.
  intros [= <- <-]. apply ext_alloc in E as (E & -> & _). split; [|done].
  eapply ext_trans.
  - apply (ext_weaken nobody _ []); [exact E|by unfold nobody; intros ? ? []].
  - apply ext_register.
  - auto.
Qed.

Lemma ext_Promise_resolve val s p s' :
  Promise_resolve val s = (p, s') ->
  ext nobody s s' /\ (val = Fut p \/ p = length (promises s)).
Proof.
  destruct val as [v|q]; simpl.
  - intros E. apply ext_alloc in E as (E & -> & _). auto.
  - intros [= <- <-]. split; [apply ext_refl|auto].
Qed.

Lemma ext_dispatch val s c : ext (val_is val) s (dispatch val s c).
Proof.
  unfold dispatch. destruct (nodes s !! c) as [sn|]; [|apply ext_refl].
  destruct (Promise_resolve val s) as [p0 s0] eqn:E0.
  destruct (then_ p0 _ _ c First s0) as [p1 s1] eqn:E1.
  destruct (then_ p1 _ _ c Second s1) as [p2 s2] eqn:E2.
  apply ext_Promise_resolve in E0 as [H0 Hp0].
  apply ext_then in E1 as [H1 Hp1].
  apply ext_then in E2 as [H2 Hp2].
  assert (L0 : length (promises s) <= length (promises s0)) by apply H0.
  eapply ext_trans; [|exact H2|].
  - eapply ext_trans; [|exact H1|].
    + apply (ext_weaken nobody _ []); [done |by unfold nobody; intros ? ? []].
    + unfold only, val_is. intros p Hp ->. destruct Hp0; [done|lia].
  - unfold only, val_is. intros p Hp ->. lia.
Qed.

Lemma ext_fold_dispatch val l : forall s, ext (val_is val) s (fold_left (dispatch val) l s).
Proof.
  induction l as [|c l IH]; intros s; cbn [fold_left]; [apply ext_refl|].
  eapply ext_trans; [apply ext_dispatch | apply IH | auto].
Qed.

Lemma emit_loop_ext k : forall n i val s r s',
  emit_loop k n i val s = (r, s') -> ext (val_is val) s s' /\ emit_result r.
Proof.
  unfold emit_result.
  induction k as [|k IH]; intros n i val s r s'; cbn [emit_loop].
  - intros [= <- <-]. split; [apply ext_refl|auto].
  - destruct (nodes s !! n) as [nd|]; [|intros [= <- <-]; split; [apply ext_refl|auto]].
    destruct (subscribers nd !! i) as [c|]; [|intros [= <- <-]; split; [apply ext_refl|auto]].
    destruct (nodes s !! c) as [cn|] eqn:Hcn; [|intros [= <- <-]; split; [apply ext_refl|auto]].
    pose proof (ext_dispatch val s c) as Hd. unfold dispatch in Hd. rewrite Hcn in Hd.
    destruct (Promise_resolve val s) as [p0 s0].
    destruct (then_ p0 _ _ c First s0) as [p1 s1].
    destruct (then_ p1 _ _ c Second s1) as [p2 s2].
    intros E. apply IH in E as [E ?]. split; [|done]. eapply ext_trans; eauto.
Qed.

Lemma emit_ext this val s r s' :
  emit this val s = (r, s') -> ext (val_is val) s s' /\ emit_result r.
Proof.
  unfold emit. destruct this as [n|].
  2:{ intros [= <- <-]. split; [apply ext_refl|by right]. }
  destruct (nodes s !! n).
  2:{ intros [= <- <-]. split; [apply ext_refl|by right]. }
  apply emit_loop_ext.
Qed.

Lemma emit_via_ext e val s r s' :
  emit_via e val s = (r, s') -> ext (val_is val) s s' /\ emit_result r.
Proof. destruct e; apply emit_ext. Qed.

Lemma emit_loop_fold k : forall n i val s nd,
  nodes s !! n = Some nd ->
  length (subscribers nd) = i + k ->
  (forall c, c ∈ subscribers nd -> is_Some (nodes s !! c)) ->
  emit_loop k n i val s =
    (Normal (Plain Undefined), fold_left (dispatch val) (drop i (subscribers nd)) s).
Proof.
  induction k as [|k IH]; intros n i val s nd Hn Hlen Hval; cbn [emit_loop].
  - rewrite drop_ge by lia. done.
  - rewrite Hn.
    destruct (subscribers nd !! i) as [c|] eqn:Hc.
    2:{ apply lookup_ge_None in Hc. lia. }
    destruct (Hval c) as [cn Hcn]; [by eapply list_elem_of_lookup_2|].
    rewrite Hcn.
    rewrite (drop_S _ _ _ Hc). cbn [fold_left].
    pose proof (ext_dispatch val s c) as (Hnd & _). unfold dispatch in *. rewrite Hcn in *.
    destruct (Promise_resolve val s) as [p0 s0].
    destruct (then_ p0 _ _ c First s0) as [p1 s1].
    destruct (then_ p1 _ _ c Second s1) as [p2 s2].
    apply IH.
    + by rewrite Hnd.
    + lia.
    + intros c' Hc'. rewrite Hnd. by apply Hval.
Qed.

Lemma emit_fold n val s nd :
  nodes s !! n = Some nd -> subscribers_exist s nd ->
  emit (Some n) val s =
    (Normal (Plain Undefined), fold_left (dispatch val) (subscribers nd) s).
Proof.
  intros Hn Hval. unfold emit. rewrite Hn.
  by rewrite (emit_loop_fold _ n 0 val s nd).
Qed.

Lemma reject_then_emit_ext (em : jsval -> state -> completion * state) reason s r s' :
  (forall val s r s', em val s = (r, s') -> ext (val_is val) s s' /\ emit_result r) ->
  (let '(q, s) := Promise_reject reason s in em (Fut q) s) = (r, s') ->
  ext nobody s s' /\ emit_result r.
Proof.
  intros Hem. destruct (Promise_reject reason s) as [q s1] eqn:E.
  apply ext_alloc in E as (E & -> & _). intros E1. apply Hem in E1 as [E1 ?].
  split; [|done]. eapply ext_trans; [exact E|exact E1|].
  unfold val_is. intros p Hp [= <-]. lia.
Qed.

Lemma call_ext f arg s r s' :
  call f arg s = (r, s') ->
  ext nobody s s' /\ forall q, r = Normal (Fut q) -> length (promises s) <= q.
Proof.
  destruct f as [g|e|n|e]; cbn [call].
  - destruct (g arg) as [v|e|[x|]].
    + intros [= <- <-]. split; [apply ext_refl|done].
    + intros [= <- <-]. split; [apply ext_refl|done].
    + destruct (alloc (Settled x) s) as [q s1] eqn:E. intros [= <- <-].
      apply ext_alloc in E as (E & -> & _). split; [done|]. by intros ? [= <-].
    + destruct (alloc (Pending []) s) as [q s1] eqn:E. intros [= <- <-].
      apply ext_alloc in E as (E & -> & _). split; [done|]. by intros ? [= <-].
  - intros E. apply emit_via_ext in E as [E [-> | ->]].
    all: split; [|done]. all: eapply ext_weaken; [exact E|]; by intros ? ? [=].
  - intros E. apply (reject_then_emit_ext (emit (Some n))) in E as [E [-> | ->]];
      [done|done|apply emit_ext].
  - intros E. apply (reject_then_emit_ext (emit_via e)) in E as [E [-> | ->]];
      [done|done|apply emit_via_ext].
Qed.

Lemma extl_log e s : extl [e] nobody s (log e s).
Proof. ext_split; simpl; auto. by exists []; rewrite app_nil_r. Qed.

Lemma run_job_ext j s :
  extl (job_events j) (only (job_target j)) s (run_job j s).
Proof.
  destruct j as [[onF onR t who st|t] x]; unfold run_job, job_events, job_target in *;
    cbn [job_reaction job_input target_of] in *.
  - destruct (handler_for x onF onR) as [f|].
    + destruct (call f (payload x) (log (Called who st x) s)) as [r s1] eqn:E.
      apply call_ext in E as [E Hq].
      assert (E0 : extl [Called who st x] nobody s s1).
      { rewrite <- (app_nil_r [_]). eapply extl_trans; [apply extl_log|exact E|done]. }
      rewrite <- (app_nil_r [_]).
      destruct r as [v|e].
      * eapply extl_trans; [|apply ext_resolve_with|].
        -- eapply ext_weaken; [exact E0|]. by unfold nobody.
        -- intros p Hp [->| ->]; [done|]. specialize (Hq _ eq_refl). simpl in Hq. lia.
      * eapply extl_trans; [|apply ext_settle|].
        -- eapply ext_weaken; [exact E0|]. by unfold nobody.
        -- by unfold only.
    + rewrite <- (app_nil_r [_]).
      eapply extl_trans; [|apply ext_settle|].
      * eapply ext_weaken; [apply extl_log|]. by unfold nobody.
      * by unfold only.
  - apply ext_settle.
Qed.

Lemma step_cons s j q :
  queue s = j :: q -> step s = run_job j (set_queue q s).
Proof. unfold step. by intros ->. Qed.

(** Running the jobs [pre] at the front of the queue: they log their events
    in order, the rest of the queue moves to the front, and a promise that
    none of them targets is as it was. *)
Lemma run_front pre : forall s rest,
  queue s = pre ++ rest ->
  nodes (run (length pre) s) = nodes s /\
  trace (run (length pre) s) = trace s ++ flat_map job_events pre /\
  (exists js, queue (run (length pre) s) = rest ++ js) /\
  length (promises s) <= length (promises (run (length pre) s)) /\
  forall p, p < length (promises s) -> Forall (fun j => job_target j <> p) pre ->
            promises (run (length pre) s) !! p = promises s !! p.
Proof.
  induction pre as [|j pre IH]; intros s rest Hq; cbn [length run flat_map].
  - rewrite app_nil_r. ext_split; auto. by exists []; rewrite app_nil_r.
  - rewrite (step_cons s j (pre ++ rest)) by done.
    destruct (run_job_ext j (set_queue (pre ++ rest) s)) as (N & T & [js Q] & L & F).
    cbn [set_queue nodes trace queue promises] in *.
    destruct (IH (run_job j (set_queue (pre ++ rest) s)) (rest ++ js))
      as (N' & T' & [js' Q'] & L' & F').
    { by rewrite Q, app_assoc. }
    ext_split.
    + congruence.
    + by rewrite T', T, app_assoc.
    + exists (js ++ js'). by rewrite Q', app_assoc.
    + lia.
    + intros p Hp HF. apply Forall_cons in HF as [Hj HF].
      rewrite F'; [|lia|done]. apply F; [done|]. unfold only. congruence.
Qed.

Lemma then_settled p x f g w st s :
  promises s !! p = Some (Settled x) ->
  then_ p f g w st s =
    (length (promises s),
     State (nodes s) (promises s ++ [Pending []])
           (queue s ++ [Job (React f g (length (promises s)) w st) x]) (trace s)).
Proof.
  intros Hp. unfold then_, alloc, register. cbn [set_promises promises].
  rewrite lookup_app_l by (by eapply lookup_lt_Some). by rewrite Hp.
Qed.

Lemma then_pending p rs f g w st s :
  promises s !! p = Some (Pending rs) ->
  then_ p f g w st s =
    (length (promises s),
     State (nodes s)
           (<[p := Pending (rs ++ [React f g (length (promises s)) w st])]> (promises s)
              ++ [Pending []])
           (queue s) (trace s)).
Proof.
  intros Hp. pose proof (lookup_lt_Some _ _ _ Hp) as Hlt.
  unfold then_, alloc, register. cbn [set_promises promises].
  rewrite lookup_app_l by done. rewrite Hp. cbn [set_promises promises nodes queue trace].
  by rewrite insert_app_l.
Qed.

Lemma dispatch_exact val s c cn x :
  nodes s !! c = Some cn -> settled_as s val = Some x ->
  let t := length (promises s) + length (value_cell val) in
  dispatch val s c =
    State (nodes s)
          (promises s ++ value_cell val ++ [Pending [second_reaction cn c t]; Pending []])
          (queue s ++ [first_job cn c t x]) (trace s).
Proof.
  intros Hc Hx. unfold dispatch. rewrite Hc.
  assert (Hgen : forall s0 p0, promises s0 !! p0 = Some (Settled x) ->
    (let '(p1, s1) := then_ p0 (_onEmit cn) (_onError cn) c First s0 in
     let '(_, s2) := then_ p1 (Some (FEmit DetachedEmit)) (_nextErr cn) c Second s1 in s2)
    = State (nodes s0)
            (promises s0 ++ [Pending [second_reaction cn c (length (promises s0))]; Pending []])
            (queue s0 ++ [first_job cn c (length (promises s0)) x]) (trace s0)).
  { intros s0 p0 Hp0. rewrite (then_settled _ _ _ _ _ _ _ Hp0).
    erewrite then_pending.
    2:{ cbn [promises]. by apply list_lookup_middle. }
    cbn [promises queue nodes trace length]. rewrite length_app. cbn [length].
    replace (length (promises s0) + 1) with (S (length (promises s0))) by lia.
    f_equal. rewrite insert_app_r_alt by lia. rewrite Nat.sub_diag. cbn.
    by rewrite <- app_assoc. }
  destruct val as [v|q]; simpl in Hx.
  - injection Hx as <-. cbn [Promise_resolve alloc value_cell length].
    rewrite (Hgen (set_promises (promises s ++ [Settled (Fulfilled v)]) s) (length (promises s)));
      [|cbn; by apply list_lookup_middle].
    cbn [set_promises promises queue nodes trace]. rewrite length_app. cbn [length].
    by rewrite <- app_assoc.
  - destruct (promises s !! q) as [[rs|y]|] eqn:Hq; try done. injection Hx as <-.
    cbn [Promise_resolve value_cell length app]. rewrite Nat.add_0_r. by apply Hgen.
Qed.

Lemma dispatch_settled val s c cn x :
  nodes s !! c = Some cn -> settled_as s val = Some x ->
  exists t extra,
    queue (dispatch val s c) = queue s ++ [first_job cn c t x] /\
    promises (dispatch val s c) = promises s ++ extra /\
    length (promises s) <= t /\
    (promises s ++ extra) !! t = Some (Pending [second_reaction cn c t]).
Proof.
  intros Hc Hx. rewrite (dispatch_exact val s c cn x Hc Hx). cbn [queue promises].
  eexists _, _. split; [reflexivity|]. split; [reflexivity|]. split; [lia|].
  rewrite app_assoc. apply list_lookup_middle. by rewrite length_app.
Qed.

Lemma settled_as_app s s' val x extra :
  settled_as s val = Some x -> promises s' = promises s ++ extra ->
  settled_as s' val = Some x.
Proof.
  destruct val as [v|q]; simpl; [done|]. intros H ->.
  destruct (promises s !! q) as [ps|] eqn:E; [|done].
  by rewrite (lookup_app_l_Some _ _ _ _ E).
Qed.

Lemma fold_dispatch_jobs val x l : forall s,
  settled_as s val = Some x ->
  (forall c, c ∈ l -> is_Some (nodes s !! c)) ->
  exists js extra,
    queue (fold_left (dispatch val) l s) = queue s ++ js /\
    promises (fold_left (dispatch val) l s) = promises s ++ extra /\
    Forall2 (first_job_of s x) l js.
Proof.
  induction l as [|c l IH]; intros s Hx Hl; cbn [fold_left].
  - exists [], []. by rewrite !app_nil_r.
  - destruct (Hl c) as [cn Hc]; [by left|].
    destruct (dispatch_settled val s c cn x Hc Hx) as (t & extra & HQ & HP & Ht & _).
    pose proof (ext_dispatch val s c) as (HN & _).
    destruct (IH (dispatch val s c)) as (js & extra' & HQ' & HP' & HF).
    { by eapply settled_as_app. }
    { intros c' Hc'. rewrite HN. apply Hl. by right. }
    exists (first_job cn c t x :: js), (extra ++ extra').
    rewrite HQ', HQ, HP', HP, <- !app_assoc. split; [done|]. split; [done|].
    constructor; [by exists cn, t|].
    eapply Forall2_impl; [exact HF|]. intros c' j (cn' & t' & ? & ?).
    exists cn', t'. by rewrite <- HN.
Qed.

Lemma settle_pending_queue t x rs s :
  promises s !! t = Some (Pending rs) ->
  queue (settle t x s) = queue s ++ map (fun r => Job r x) rs.
Proof. intros H. unfold settle. by rewrite H. Qed.


(** ** The heap of nodes *)

Lemma subscribe_nodes self f g s :
  self < length (nodes s) ->
  subscribe self f g s =
    (length (nodes s),
     set_nodes (alter (push_subscriber (length (nodes s))) self (nodes s)
                  ++ [subscriber_node self (length (nodes s)) f g]) s).
Proof.
  intros Hlt. unfold subscribe, construct, update_node, set_nodes. cbn [nodes promises queue trace].
  f_equal. f_equal.
  replace (alter _ (length (nodes s)) (nodes s ++ [new_node]))
    with (nodes s ++ [subscriber_node self (length (nodes s)) f g]).
  2:{ rewrite <- (Nat.add_0_r (length (nodes s))) at 2. by rewrite alter_app_r. }
  by rewrite alter_app_l.
Qed.

Lemma push_subscribers_nil nd : push_subscribers [] nd = nd.
Proof. destruct nd. unfold push_subscribers. cbn. by rewrite app_nil_r. Qed.

Lemma bridges_of_fresh x : forall iter base,
  x ∉ iter -> bridges_of x base iter = [].
Proof.
  induction iter as [|y iter IH]; intros base Hx; cbn; [done|].
  apply not_elem_of_cons in Hx as [Hne Hx].
  destruct (decide (y = x)); [done|]. by apply IH.
Qed.

Lemma push_subscribers_push c cs nd :
  push_subscribers cs (push_subscriber c nd) = push_subscribers (c :: cs) nd.
Proof. unfold push_subscribers, push_subscriber. cbn. by rewrite <- app_assoc. Qed.

Lemma merge_executor_spec em iter : forall s,
  Forall (fun x => x < length (nodes s)) iter ->
  let s' := merge_executor iter em s in
  length (nodes s') = length (nodes s) + length iter /\
  promises s' = promises s /\ queue s' = queue s /\ trace s' = trace s /\
  (forall i x, iter !! i = Some x ->
     nodes s' !! (length (nodes s) + i) =
       Some (subscriber_node x (length (nodes s) + i) (Some (FEmit em)) (Some (FMergeErr em)))) /\
  (forall x nd, nodes s !! x = Some nd ->
     nodes s' !! x = Some (push_subscribers (bridges_of x (length (nodes s)) iter) nd)).
Proof.
  induction iter as [|y iter IH]; intros s Hv; cbn [merge_executor].
  - cbn zeta. cbn [length bridges_of]. rewrite Nat.add_0_r. repeat split; auto.
    + intros i x Hi. by rewrite lookup_nil in Hi.
    + intros x nd Hx. by rewrite push_subscribers_nil.
  - apply Forall_cons in Hv as [Hy Hv].
    rewrite subscribe_nodes by done.
    set (L := length (nodes s)).
    set (s1 := set_nodes _ s).
    assert (HL1 : length (nodes s1) = S L).
    { unfold s1. cbn. rewrite length_app, length_alter. cbn. lia. }
    destruct (IH s1) as (Hlen & HP & HQ & HT & Hnew & Hold).
    { rewrite HL1. eapply Forall_impl; [exact Hv|]. cbn. intros; lia. }
    cbn zeta. rewrite Hlen, HP, HQ, HT, HL1. cbn [length].
    split; [lia|]. repeat split; auto.
    + intros [|i] x Hi; cbn in Hi.
      * injection Hi as ->. rewrite Nat.add_0_r.
        erewrite Hold.
        2:{ unfold s1. cbn. by apply list_lookup_middle; rewrite length_alter. }
        rewrite HL1. rewrite bridges_of_fresh.
        -- by rewrite push_subscribers_nil.
        -- intros Hin. rewrite Forall_forall in Hv. specialize (Hv _ Hin).
           cbn in Hv. subst L. lia.
      * rewrite HL1 in Hnew. replace (L + S i) with (S L + i) by lia. by apply Hnew.
    + intros x nd Hx. 
      assert (Hxl : x < L) by (by eapply lookup_lt_Some).
      rewrite HL1 in Hold. cbn [bridges_of].
      assert (Hlk : forall nd', alter (push_subscriber L) y (nodes s) !! x = Some nd' ->
                nodes s1 !! x = Some nd').
      { intros nd' H. unfold s1. cbn. rewrite lookup_app_l; [done|].
        rewrite length_alter. exact Hxl. }
      destruct (decide (y = x)) as [->|Hne].
      * erewrite Hold; [|apply Hlk; rewrite list_lookup_alter_eq, Hx; reflexivity].
        cbn [app]. by rewrite push_subscribers_push.
      * erewrite Hold; [|apply Hlk; rewrite list_lookup_alter_ne by done; exact Hx].
        done.
Qed.

Lemma bridges_of_NoDup x : forall iter base i,
  NoDup iter -> iter !! i = Some x -> bridges_of x base iter = [base + i].
Proof.
  induction iter as [|y iter IH]; intros base i Hnd Hi; [by rewrite lookup_nil in Hi|].
  apply NoDup_cons in Hnd as [Hy Hnd]. cbn [bridges_of]. destruct i as [|i]; cbn in Hi.
  - injection Hi as ->. rewrite decide_True by done.
    rewrite bridges_of_fresh by done. by rewrite Nat.add_0_r.
  - rewrite decide_False.
    + rewrite (IH (S base) i) by done. cbn. f_equal. lia.
    + intros ->. apply Hy. by eapply list_elem_of_lookup_2.
Qed.

Lemma unsubscribe_root n nd s :
  nodes s !! n = Some nd -> publisher nd = None -> unsubscribe n s = s.
Proof. intros Hn Hp. unfold unsubscribe. by rewrite Hn, Hp. Qed.

Lemma merge_quiet s iterable :
  Forall (fun x => x < length (nodes s)) iterable ->
  promises (merge iterable s).2 = promises s /\
  queue (merge iterable s).2 = queue s /\
  trace (merge iterable s).2 = trace s.
Proof.
  intros Hv. unfold merge, construct, genIterator. cbn [snd].
  destruct (merge_executor_spec (BoundEmit (length (nodes s))) iterable
              (set_nodes (nodes s ++ [new_node]) s)) as (_ & HP & HQ & HT & _).
  { cbn. rewrite length_app. eapply Forall_impl; [exact Hv|]. cbn. intros. lia. }
  done.
Qed.

Lemma merge_structure s iterable :
  Forall (fun x => x < length (nodes s)) iterable ->
  let m := length (nodes s) in
  let s' := (merge iterable s).2 in
  (merge iterable s).1 = m /\
  length (nodes s') = S m + length iterable /\
  nodes s' !! m = Some new_node /\
  (forall i x, iterable !! i = Some x ->
     nodes s' !! (S m + i) =
       Some (subscriber_node x (S m + i) (Some (FEmit (BoundEmit m)))
                             (Some (FMergeErr (BoundEmit m))))) /\
  (forall x nd, nodes s !! x = Some nd ->
     nodes s' !! x = Some (push_subscribers (bridges_of x (S m) iterable) nd)) /\
  (NoDup iterable -> forall i x, iterable !! i = Some x ->
     bridges_of x (S m) iterable = [S m + i]) /\
  unsubscribe m s' = s'.
Proof.
  intros Hv m s'. unfold merge, construct, genIterator in *. cbn [fst snd] in *.
  set (s0 := set_nodes (nodes s ++ [new_node]) s) in *.
  assert (HL0 : length (nodes s0) = S m).
  { unfold s0. cbn. rewrite length_app. cbn. lia. }
  destruct (merge_executor_spec (BoundEmit m) iterable s0)
    as (Hlen & HP & HQ & HT & Hnew & Hold).
  { rewrite HL0. eapply Forall_impl; [exact Hv|]. cbn. intros. lia. }
  rewrite HL0 in *.
  assert (Hm : nodes s' !! m = Some new_node).
  { unfold s'. erewrite Hold; [|unfold s0; cbn; by apply list_lookup_middle].
    rewrite bridges_of_fresh; [by rewrite push_subscribers_nil|].
    intros Hin. rewrite Forall_forall in Hv. specialize (Hv _ Hin). cbn in Hv. lia. }
  split; [done|]. split; [done|]. split; [done|]. split; [done|]. split.
  { intros x nd Hx. apply Hold. unfold s0. cbn. by apply lookup_app_l_Some. }
  split.
  { intros Hnd i x Hi. by apply bridges_of_NoDup. }
  by apply (unsubscribe_root m new_node).
Qed.

Lemma bridges_of_length x : forall iter base,
  length (bridges_of x base iter) = length (filter (fun y => y = x) iter).
Proof.
  induction iter as [|y iter IH]; intros base; [done|].
  cbn [bridges_of]. rewrite length_app, IH, filter_cons.
  by destruct (decide (y = x)).
Qed.

Lemma bridges_of_position x : forall iter base i,
  iter !! i = Some x -> base + i ∈ bridges_of x base iter.
Proof.
  induction iter as [|y iter IH]; intros base i Hi; [by rewrite lookup_nil in Hi|].
  cbn [bridges_of]. destruct i as [|i]; cbn in Hi.
  - injection Hi as ->. rewrite decide_True by done. rewrite Nat.add_0_r. by left.
  - apply elem_of_app. right. replace (base + S i) with (S base + i) by lia. by apply IH.
Qed.

Lemma bridges_of_member x : forall iter base b,
  b ∈ bridges_of x base iter -> exists i, b = base + i /\ iter !! i = Some x.
Proof.
  induction iter as [|y iter IH]; intros base b Hb; [by apply elem_of_nil in Hb|].
  cbn [bridges_of] in Hb. apply elem_of_app in Hb as [Hb|Hb].
  - destruct (decide (y = x)) as [->|]; [|by apply elem_of_nil in Hb].
    apply list_elem_of_singleton in Hb as ->. exists 0. by rewrite Nat.add_0_r.
  - destruct (IH _ _ Hb) as (i & -> & Hi). exists (S i). split; [lia|done].
Qed.

Lemma indexOf_absent l x : x ∉ l -> indexOf l x = (-1)%Z.
Proof.
  intros Hx. unfold indexOf.
  destruct (list_find (fun y => y = x) l) as [[i y]|] eqn:E; [|done].
  apply list_find_Some in E as (Hi & -> & _). exfalso. apply Hx.
  by eapply list_elem_of_lookup_2.
Qed.

Lemma indexOf_first l1 l2 x : x ∉ l1 -> indexOf (l1 ++ x :: l2) x = Z.of_nat (length l1).
Proof.
  intros Hx. unfold indexOf.
  destruct (list_find (fun y => y = x) (l1 ++ x :: l2)) as [[i y]|] eqn:E.
  - apply list_find_Some in E as (Hi & -> & Hmin). f_equal.
    destruct (Nat.lt_trichotomy i (length l1)) as [Hlt|[->|Hgt]]; [|done|].
    + rewrite lookup_app_l in Hi by done. exfalso. apply Hx. by eapply list_elem_of_lookup_2.
    + exfalso. eapply (Hmin (length l1)); [by apply list_lookup_middle|done|done].
  - apply list_find_None in E. rewrite Forall_app, Forall_cons in E.
    destruct E as (_ & E & _). by destruct E.
Qed.

Lemma splice1_at l1 x l2 : splice1 (l1 ++ x :: l2) (Z.of_nat (length l1)) = l1 ++ l2.
Proof.
  unfold splice1. rewrite length_app. cbn [length].
  destruct (Z.ltb_spec (Z.of_nat (length l1)) 0) as [?|_]; [lia|].
  rewrite Z.min_l by lia. rewrite Nat2Z.id.
  rewrite take_app_length. f_equal.
  rewrite drop_app_ge by lia. replace (S (length l1) - length l1) with 1 by lia. done.
Qed.

(** [splice(-1, 1)] removes the last element. *)
Lemma splice1_minus_one l x : splice1 (l ++ [x]) (-1) = l.
Proof.
  unfold splice1. rewrite length_app. cbn [length Z.ltb Z.compare].
  rewrite Z.max_l by lia.
  replace (Z.to_nat (Z.of_nat (length l + 1) + -1)) with (length l) by lia.
  rewrite take_app_length. rewrite drop_app_ge by lia.
  replace (S (length l) - length l) with 1 by lia. cbn. by rewrite app_nil_r.
Qed.

Lemma unsubscribe_present c cn p pn l1 l2 s :
  nodes s !! c = Some cn -> publisher cn = Some p ->
  nodes s !! p = Some pn -> subscribers pn = l1 ++ c :: l2 -> c ∉ l1 ->
  unsubscribe c s = set_nodes (<[p := set_subscribers (l1 ++ l2) pn]> (nodes s)) s.
Proof.
  intros Hc Hp Hpn Hl Hx. unfold unsubscribe, update_node. rewrite Hc, Hp. f_equal.
  apply list_eq. intros i. destruct (decide (i = p)) as [->|Hne].
  - rewrite list_lookup_alter_eq, Hpn. rewrite list_lookup_insert_eq by (by eapply lookup_lt_Some).
    cbn. unfold set_subscribers. by rewrite Hl, indexOf_first, splice1_at.
  - by rewrite list_lookup_alter_ne, list_lookup_insert_ne.
Qed.

(** The missed case: [indexOf] answers [-1] and [splice] takes the last
    subscriber of the publisher, whoever it is. *)
Lemma unsubscribe_absent c cn p pn l x s :
  nodes s !! c = Some cn -> publisher cn = Some p ->
  nodes s !! p = Some pn -> subscribers pn = l ++ [x] -> c ∉ l ++ [x] ->
  unsubscribe c s = set_nodes (<[p := set_subscribers l pn]> (nodes s)) s.
Proof.
  intros Hc Hp Hpn Hl Hx. unfold unsubscribe, update_node. rewrite Hc, Hp. f_equal.
  apply list_eq. intros i. destruct (decide (i = p)) as [->|Hne].
  - rewrite list_lookup_alter_eq, Hpn. rewrite list_lookup_insert_eq by (by eapply lookup_lt_Some).
    cbn. unfold set_subscribers. by rewrite Hl, indexOf_absent, splice1_minus_one.
  - by rewrite list_lookup_alter_ne, list_lookup_insert_ne.
Qed.

Lemma alter_middle {A} (f : A -> A) (l : list A) (i : nat) x :
  l !! i = Some x -> alter f i l = take i l ++ f x :: drop (S i) l.
Proof.
  revert i. induction l as [|y l IH]; intros [|i] H; try done.
  - by injection H as ->.
  - cbn in *. by rewrite (IH i H).
Qed.

Lemma alter_absent {A} (f : A -> A) (l : list A) (i : nat) :
  l !! i = None -> alter f i l = l.
Proof.
  revert i. induction l as [|y l IH]; intros [|i] H; try done.
  cbn in *. by rewrite (IH i H).
Qed.

Lemma all_subscribers_alter f i ns nd :
  ns !! i = Some nd ->
  all_subscribers (alter f i ns) =
    all_subscribers (take i ns) ++ subscribers (f nd) ++ all_subscribers (drop (S i) ns).
Proof.
  intros H. unfold all_subscribers. rewrite (alter_middle f ns i nd H).
  by rewrite flat_map_app.
Qed.

Lemma all_subscribers_split i ns nd :
  ns !! i = Some nd ->
  all_subscribers ns =
    all_subscribers (take i ns) ++ subscribers nd ++ all_subscribers (drop (S i) ns).
Proof.
  intros H. unfold all_subscribers. rewrite <- (take_drop_middle ns i nd H) at 1.
  by rewrite flat_map_app.
Qed.

Lemma structural_init : structural [].
Proof. split; cbn; constructor. Qed.

Lemma structural_construct ns : structural ns -> structural (ns ++ [new_node]).
Proof.
  intros [H1 H2 H3].
  assert (E : all_subscribers (ns ++ [new_node]) = all_subscribers ns).
  { unfold all_subscribers. rewrite flat_map_app. cbn. by rewrite app_nil_r. }
  split.
  - by rewrite E.
  - rewrite E. eapply Forall_impl; [exact H2|]. cbn. intros. rewrite length_app. lia.
  - apply Forall_app. split; [done|]. constructor; [|constructor]. cbn.
    split; [by intros [? ?]|done].
Qed.

Lemma structural_subscribe ns self f g :
  self < length ns -> structural ns ->
  structural (alter (push_subscriber (length ns)) self ns
                ++ [subscriber_node self (length ns) f g]).
Proof.
  intros Hlt [H1 H2 H3]. destruct (lookup_lt_is_Some_2 _ _ Hlt) as [nd Hnd].
  assert (E : all_subscribers (alter (push_subscriber (length ns)) self ns
                ++ [subscriber_node self (length ns) f g]) ≡ₚ length ns :: all_subscribers ns).
  { unfold all_subscribers at 1. rewrite flat_map_app. cbn. rewrite app_nil_r.
    fold (all_subscribers (alter (push_subscriber (length ns)) self ns)).
    rewrite (all_subscribers_alter _ _ _ _ Hnd), (all_subscribers_split _ _ _ Hnd). cbn.
    rewrite <- !app_assoc. cbn.
    rewrite (Permutation_middle _ _ (length ns)).
    rewrite <- Permutation_middle. done. }
  split.
  - rewrite E. apply NoDup_cons. split; [|done]. intros Hin.
    rewrite Forall_forall in H2. specialize (H2 _ Hin). cbn in H2. lia.
  - rewrite E. rewrite length_app, length_alter. cbn. constructor; [lia|].
    eapply Forall_impl; [exact H2|]. cbn. intros. lia.
  - apply Forall_app. split.
    + rewrite (alter_middle _ ns self nd Hnd).
      rewrite <- (take_drop_middle ns self nd Hnd) in H3.
      rewrite Forall_app, Forall_cons in H3. destruct H3 as (Ha & Hb & Hc).
      rewrite Forall_app, Forall_cons. done.
    + constructor; [|constructor]. cbn. split; [done|by eexists].
Qed.

Lemma splice1_sublist l z : splice1 l z `sublist_of` l.
Proof. unfold splice1. rewrite <- delete_take_drop. apply sublist_delete. Qed.

Lemma structural_splice ns p :
  structural ns ->
  structural (alter (fun pn => Node (splice1 (subscribers pn) (indexOf (subscribers pn) p.2))
                                 (publisher pn) (_onEmit pn) (_onError pn) (_nextErr pn)
                                 (made_by pn)) p.1 ns).
Proof.
  intros [H1 H2 H3]. destruct (ns !! p.1) as [pn|] eqn:Hpn.
  2:{ by rewrite alter_absent. }
  set (f := fun pn : node => _).
  assert (E : all_subscribers (alter f p.1 ns) `sublist_of` all_subscribers ns).
  { rewrite (all_subscribers_alter _ _ _ _ Hpn), (all_subscribers_split _ _ _ Hpn).
    apply sublist_app; [done|]. apply sublist_app; [|done]. apply splice1_sublist. }
  split.
  - by eapply sublist_NoDup.
  - rewrite length_alter. rewrite Forall_forall in *. intros c Hc. apply H2.
    by eapply elem_of_sublist.
  - rewrite (alter_middle _ ns p.1 pn Hpn).
    rewrite <- (take_drop_middle ns p.1 pn Hpn) in H3.
    rewrite Forall_app, Forall_cons in H3. destruct H3 as (Ha & Hb & Hc).
    rewrite Forall_app, Forall_cons. done.
Qed.

Lemma structural_unsubscribe n s :
  structural (nodes s) -> structural (nodes (unsubscribe n s)).
Proof.
  intros H. unfold unsubscribe. destruct (nodes s !! n) as [nd|]; [|done].
  destruct (publisher nd) as [p|]; [|done].
  apply (structural_splice (nodes s) (p, n) H).
Qed.

Lemma structural_subscribe_op self f g s :
  self < length (nodes s) -> structural (nodes s) ->
  structural (nodes (subscribe self f g s).2).
Proof.
  intros Hlt H. rewrite subscribe_nodes by done. by apply structural_subscribe.
Qed.

Lemma structural_merge_executor em iter : forall s,
  Forall (fun x => x < length (nodes s)) iter -> structural (nodes s) ->
  structural (nodes (merge_executor iter em s)).
Proof.
  induction iter as [|y iter IH]; intros s Hv H; cbn [merge_executor]; [done|].
  apply Forall_cons in Hv as [Hy Hv].
  pose proof (structural_subscribe_op y (Some (FEmit em)) (Some (FMergeErr em)) s Hy H) as H1.
  rewrite subscribe_nodes in * by done. cbn [snd] in H1.
  apply IH; [|done]. eapply Forall_impl; [exact Hv|]. cbn.
  intros. rewrite length_app, length_alter. lia.
Qed.

Lemma step_nodes s : nodes (step s) = nodes s.
Proof.
  unfold step. destruct (queue s) as [|j q] eqn:E; [done|].
  by destruct (run_job_ext j (set_queue q s)) as (N & _).
Qed.

Lemma exec_structural o s : structural (nodes s) -> structural (nodes (exec o s)).
Proof.
  intros H. destruct o as [|n f g|n|n val|e|l|]; cbn [exec].
  - by apply structural_construct.
  - case_decide; [|done]. by apply structural_subscribe_op.
  - by apply structural_unsubscribe.
  - destruct (emit (Some n) val s) as [r s'] eqn:E. apply emit_ext in E as [(N & _) _].
    cbn. by rewrite N.
  - done.
  - case_decide as Hv; [|done]. unfold merge, construct, genIterator. cbn [snd].
    apply structural_merge_executor.
    + cbn. eapply Forall_impl; [exact Hv|]. cbn. intros. rewrite length_app. lia.
    + by apply structural_construct.
  - by rewrite step_nodes.
Qed.

Lemma run_ops_structural ops : forall s,
  structural (nodes s) -> structural (nodes (run_ops ops s)).
Proof.
  unfold run_ops. induction ops as [|o ops IH]; intros s Hs; cbn [fold_left]; [done|].
  apply IH. by apply exec_structural.
Qed.

(** The loop of [merge]'s executor, line 166, in terms of the cursor: it
    stops when [next] is done and subscribes to the item otherwise. *)
Lemma merge_executor_next iter e s :
  merge_executor iter e s =
    match next iter with
    | None => s
    | Some (item, rest) =>
        merge_executor rest e (subscribe item (Some (FEmit e)) (Some (FMergeErr e)) s).2
    end.
Proof.
  destruct iter as [|item rest]; [done|].
  cbn [merge_executor next]. by destruct (subscribe _ _ _ s).
Qed.


(** ** Arrival in order *)

Lemma received_app c t1 t2 : received c (t1 ++ t2) = received c t1 ++ received c t2.
Proof. unfold received. apply flat_map_app. Qed.

Lemma once_in_list (c : nat) (v : plain) l :
  NoDup l -> c ∈ l -> flat_map (fun c' => if decide (c' = c) then [v] else []) l = [v].
Proof.
  induction l as [|y l IH]; intros Hnd Hin; [by apply elem_of_nil in Hin|].
  apply NoDup_cons in Hnd as [Hy Hnd]. cbn [flat_map].
  destruct (decide (y = c)) as [->|Hne].
  - cbn. f_equal. clear IH Hin Hnd. induction l as [|z l IH]; [done|].
    apply not_elem_of_cons in Hy as [Hz Hy]. cbn. rewrite decide_False by done. by apply IH.
  - apply elem_of_cons in Hin as [?|Hin]; [done|]. cbn. by apply IH.
Qed.

(** ** Forwarding *)

Lemma run_add a : forall b s, run (a + b) s = run b (run a s).
Proof. induction a as [|a IH]; intros b s; cbn; [done|]. apply IH. Qed.

Lemma run_S k s : run (S k) s = step (run k s).
Proof. replace (S k) with (k + 1) by lia. by rewrite run_add. Qed.

Lemma job_events_first cn c t x : job_events (first_job cn c t x) = [first_event cn c x].
Proof. unfold job_events, first_job, first_event. cbn. by destruct (handler_for _ _ _). Qed.

(** A job in the queue runs: after as many turns of the loop as there are
    jobs before it, plus one. *)
Lemma job_runs s pre j post :
  queue s = pre ++ j :: post ->
  nodes (run (S (length pre)) s) = nodes s /\
  trace (run (S (length pre)) s) = trace s ++ flat_map job_events pre ++ job_events j.
Proof.
  intros Hq. destruct (run_front (pre ++ [j]) s post) as (N & T & _).
  { by rewrite <- app_assoc. }
  rewrite length_app in *. cbn [length] in *.
  replace (length pre + 1) with (S (length pre)) in * by lia.
  split; [done|]. rewrite T, flat_map_app. cbn. by rewrite app_nil_r.
Qed.

Lemma first_jobs_lookup s x l js c cn :
  Forall2 (first_job_of s x) l js -> c ∈ l -> nodes s !! c = Some cn ->
  exists pre post t, js = pre ++ first_job cn c t x :: post.
Proof.
  intros HF Hc Hcn. apply list_elem_of_lookup in Hc as [i Hi].
  destruct (Forall2_lookup_l _ _ _ _ _ HF Hi) as (j & Hj & cn' & t & Hcn' & ->).
  assert (cn' = cn) as -> by congruence.
  exists (take i js), (drop (S i) js), t. by rewrite take_drop_middle.
Qed.

Lemma call_forwarded h arg m r s ndm :
  forwarded h arg = Some (m, r) ->
  nodes s !! m = Some ndm -> subscribers_exist s ndm ->
  exists s0 val,
    call h arg s = (Normal (Plain Undefined), fold_left (dispatch val) (subscribers ndm) s0) /\
    settled_as s0 val = Some r /\ ext nobody s s0.
Proof.
  intros Hf Hm Hex. destruct h as [g|[m'|]|m'|[m'|]]; cbn in Hf; try done.
  - injection Hf as -> <-. exists s, (Plain arg). cbn [call emit_via].
    rewrite (emit_fold m (Plain arg) s ndm Hm Hex). split; [done|]. split; [done|apply ext_refl].
  - injection Hf as -> <-. cbn [call].
    destruct (Promise_reject arg s) as [q s0] eqn:E.
    pose proof E as E'. apply ext_alloc in E' as (E' & -> & HP).
    destruct E' as (N0 & ?). exists s0, (Fut (length (promises s))).
    rewrite (emit_fold m _ s0 ndm); [| by rewrite N0 | intros c Hc; rewrite N0; by apply Hex].
    split; [done|]. split.
    + cbn. rewrite HP. by rewrite list_lookup_middle.
    + by split.
  - injection Hf as -> <-. cbn [call emit_via].
    destruct (Promise_reject arg s) as [q s0] eqn:E.
    pose proof E as E'. apply ext_alloc in E' as (E' & -> & HP).
    destruct E' as (N0 & ?). exists s0, (Fut (length (promises s))).
    rewrite (emit_fold m _ s0 ndm); [| by rewrite N0 | intros c Hc; rewrite N0; by apply Hex].
    split; [done|]. split.
    + cbn. rewrite HP. by rewrite list_lookup_middle.
    + by split.
Qed.

(** A job whose handler forwards into [m]: when it runs, every subscriber of
    [m] gets a first-stage job with the forwarded value. *)
Lemma forward_job s pre onF onR t who st x post h m r ndm c ndc :
  queue s = pre ++ Job (React onF onR t who st) x :: post ->
  handler_for x onF onR = Some h ->
  forwarded h (payload x) = Some (m, r) ->
  nodes s !! m = Some ndm -> subscribers_exist s ndm ->
  c ∈ subscribers ndm -> nodes s !! c = Some ndc ->
  let s' := run (S (length pre)) s in
  nodes s' = nodes s /\
  trace s' = trace s ++ flat_map job_events pre ++ [Called who st x] /\
  exists pre' post' t', queue s' = pre' ++ first_job ndc c t' r :: post'.
Proof.
  intros Hq Hh Hf Hm Hex Hc Hcn s'.
  destruct (job_runs s pre _ post Hq) as (N & T).
  unfold job_events in T. cbn [job_reaction job_input] in T. rewrite Hh in T.
  split; [done|]. split; [done|].
  unfold s'. rewrite run_S.
  destruct (run_front pre s _ Hq) as (N1 & _ & [js Q1] & _).
  set (s1 := run (length pre) s) in *.
  rewrite (step_cons s1 _ _ Q1). unfold run_job. cbn [job_reaction job_input]. rewrite Hh.
  set (s2 := log _ _).
  assert (Hm2 : nodes s2 !! m = Some ndm) by (unfold s2; cbn; by rewrite N1).
  assert (Hex2 : subscribers_exist s2 ndm).
  { intros c' Hc'. unfold s2. cbn. rewrite N1. by apply Hex. }
  destruct (call_forwarded h (payload x) m r s2 ndm Hf Hm2 Hex2) as (s3 & val & -> & Hval & E3).
  destruct E3 as (N3 & _ & [js3 Q3] & _).
  destruct (fold_dispatch_jobs val r (subscribers ndm) s3 Hval) as (js4 & extra & Q4 & _ & HF).
  { intros c' Hc'. rewrite N3. by apply Hex2. }
  destruct (first_jobs_lookup s3 r _ js4 c ndc HF Hc) as (pre4 & post4 & t4 & ->).
  { rewrite N3. unfold s2. cbn. by rewrite N1. }
  destruct (ext_resolve_with t (Plain Undefined) (fold_left (dispatch val) (subscribers ndm) s3))
    as (_ & _ & [js5 Q5] & _).
  cbn [resolve_with] in *. rewrite Q5, Q4.
  exists (queue s3 ++ pre4), (post4 ++ js5), t4. by rewrite <- !app_assoc.
Qed.

Lemma emit_reaches s n nd c cn val x :
  nodes s !! n = Some nd -> subscribers_exist s nd ->
  c ∈ subscribers nd -> nodes s !! c = Some cn ->
  settled_as s val = Some x ->
  exists pre post t,
    queue (emit (Some n) val s).2 = pre ++ first_job cn c t x :: post /\
    nodes (emit (Some n) val s).2 = nodes s /\
    trace (emit (Some n) val s).2 = trace s.
Proof.
  intros Hn Hex Hc Hcn Hx. rewrite (emit_fold n val s nd Hn Hex). cbn [snd].
  destruct (fold_dispatch_jobs val x (subscribers nd) s Hx Hex) as (js & extra & Q & _ & HF).
  destruct (first_jobs_lookup s x _ js c cn HF Hc Hcn) as (pre & post & t & ->).
  destruct (ext_fold_dispatch val (subscribers nd) s) as (N & T & _).
  rewrite app_nil_r in T.
  exists (queue s ++ pre), post, t. by rewrite Q, <- app_assoc.
Qed.

Lemma bridge_forwards s x ndx b ndb m ndm c ndc val r :
  nodes s !! x = Some ndx -> subscribers_exist s ndx ->
  b ∈ subscribers ndx -> nodes s !! b = Some ndb -> bridge ndb m ->
  nodes s !! m = Some ndm -> subscribers_exist s ndm ->
  c ∈ subscribers ndm -> nodes s !! c = Some ndc ->
  settled_as s val = Some r ->
  exists k evs,
    trace (run k (emit (Some x) val s).2) = trace s ++ evs /\
    first_event ndc c r ∈ evs.
Proof.
  intros Hx Hexx Hb Hndb [HbE HbR] Hm Hexm Hc Hndc Hr.
  destruct (emit_reaches s x ndx b ndb val r Hx Hexx Hb Hndb Hr) as (pre & post & t & Q & N & T).
  set (s1 := (emit (Some x) val s).2) in *.
  assert (exists h, handler_for r (_onEmit ndb) (_onError ndb) = Some h /\
                    forwarded h (payload r) = Some (m, r)) as (h & Hh & Hf).
  { destruct r as [v|e]; cbn; rewrite ?HbE, ?HbR; eauto. }
  destruct (forward_job s1 pre _ _ t b First r post h m r ndm c ndc Q Hh Hf)
    as (N2 & T2 & pre2 & post2 & t2 & Q2); rewrite ?N; auto.
  { intros c' Hc'. rewrite N. by apply Hexm. }
  set (s2 := run (S (length pre)) s1) in *.
  destruct (job_runs s2 pre2 _ post2 Q2) as (N3 & T3).
  exists (S (length pre) + S (length pre2)). eexists.
  rewrite run_add. fold s2. rewrite T3, T2, T, job_events_first, <- !app_assoc.
  split; [reflexivity|]. rewrite !elem_of_app. right. right. right. by left.
Qed.

Lemma bridges_of_elem x : forall iter base i,
  iter !! i = Some x -> base + i ∈ bridges_of x base iter.
Proof.
  induction iter as [|y iter IH]; intros base i Hi; [by rewrite lookup_nil in Hi|].
  cbn [bridges_of]. destruct i as [|i]; cbn in Hi.
  - injection Hi as ->. rewrite decide_True by done. rewrite Nat.add_0_r. by left.
  - apply elem_of_app. right. replace (base + S i) with (S base + i) by lia. by apply IH.
Qed.

Lemma bridges_of_bound x : forall iter base b,
  b ∈ bridges_of x base iter -> exists i, b = base + i /\ iter !! i = Some x.
Proof.
  induction iter as [|y iter IH]; intros base b Hb; [by apply elem_of_nil in Hb|].
  cbn [bridges_of] in Hb. apply elem_of_app in Hb as [Hb|Hb].
  - destruct (decide (y = x)) as [->|]; [|by apply elem_of_nil in Hb].
    apply list_elem_of_singleton in Hb as ->. exists 0. by rewrite Nat.add_0_r.
  - destruct (IH _ _ Hb) as (i & -> & Hi). exists (S i). split; [lia|done].
Qed.

(** ** Properties of the waiting reactions *)

Section Clean.
Context (P : reaction -> Prop).

Lemma grows_refl s : clean_store P s -> grows P s s.
Proof.
  intros H. split; [|done]. exists []. split; [by rewrite app_nil_r|constructor].
Qed.

Lemma grows_trans s s' s'' : grows P s s' -> grows P s' s'' -> grows P s s''.
Proof.
  intros [(j1 & Q1 & C1) _] [(j2 & Q2 & C2) H]. split; [|done].
  exists (j1 ++ j2). rewrite Q2, Q1, app_assoc. split; [done|]. by apply Forall_app.
Qed.

Lemma grows_store s s' : grows P s s' -> clean_store P s'.
Proof. by intros [_ H]. Qed.

Lemma grows_alloc ps s :
  Forall P (reactions ps) -> clean_store P s -> grows P s (alloc ps s).2.
Proof.
  intros Hps H. split.
  - exists []. cbn. split; [by rewrite app_nil_r|constructor].
  - unfold clean_store. cbn. apply Forall_app. split; [done|]. by constructor.
Qed.

Lemma grows_enqueue js s :
  clean_jobs P js -> clean_store P s -> grows P s (enqueue js s).
Proof. intros Hjs H. split; [|done]. by exists js. Qed.

Lemma grows_register p r s : P r -> clean_store P s -> grows P s (register p r s).
Proof.
  intros Hr H. unfold register. destruct (promises s !! p) as [[rs|x]|] eqn:E.
  - split; [exists []; cbn; split; [by rewrite app_nil_r|constructor]|].
    unfold clean_store. cbn.
    apply Forall_insert; [done|]. cbn. apply Forall_app. split; [|by constructor].
    unfold clean_store in H. rewrite Forall_forall in H.
    apply (H (Pending rs)). by eapply list_elem_of_lookup_2.
  - apply grows_enqueue; [|done]. by constructor.
  - by apply grows_refl.
Qed.

Lemma grows_settle t x s : clean_store P s -> grows P s (settle t x s).
Proof.
  intros H. unfold settle. destruct (promises s !! t) as [[rs|y]|] eqn:E;
    [|by apply grows_refl|by apply grows_refl].
  split.
  - eexists. split; [reflexivity|].
    assert (Hrs : Forall P rs).
    { unfold clean_store in H. rewrite Forall_forall in H.
      apply (H (Pending rs)). by eapply list_elem_of_lookup_2. }
    clear -Hrs. induction Hrs; constructor; auto.
  - unfold clean_store. cbn. apply Forall_insert; [exact H|]. cbn. constructor.
Qed.

Lemma grows_resolve_with t v s :
  P (Adopt t) -> clean_store P s -> grows P s (resolve_with t v s).
Proof. intros Ht H. destruct v; cbn; [by apply grows_settle | by apply grows_register]. Qed.

Lemma grows_then p f g w st s :
  P (React f g (length (promises s)) w st) -> clean_store P s ->
  grows P s (then_ p f g w st s).2.
Proof.
  intros Hr H. unfold then_. cbn [alloc snd].
  eapply grows_trans; [apply (grows_alloc (Pending []) s); [constructor|done]|].
  apply grows_register; [done|]. by apply (grows_alloc (Pending []) s); [constructor|].
Qed.

Lemma grows_dispatch val s c :
  (forall f g p st, length (promises s) <= p -> P (React f g p c st)) ->
  clean_store P s -> grows P s (dispatch val s c).
Proof.
  intros Hc H. unfold dispatch. destruct (nodes s !! c) as [sn|]; [|by apply grows_refl].
  assert (H0 : grows P s (Promise_resolve val s).2).
  { destruct val; cbn [Promise_resolve]; [|by apply grows_refl].
    by apply (grows_alloc (Settled _) s); [constructor|]. }
  destruct (Promise_resolve val s) as [p0 s0] eqn:E0. cbn [snd] in H0.
  apply ext_Promise_resolve in E0 as [(_ & _ & _ & L0 & _) _].
  assert (H1 : grows P s0 (then_ p0 (_onEmit sn) (_onError sn) c First s0).2).
  { apply grows_then; [apply Hc; lia|by apply grows_store in H0]. }
  destruct (then_ p0 _ _ c First s0) as [p1 s1] eqn:E1. cbn [snd] in H1.
  apply ext_then in E1 as [(_ & _ & _ & L1 & _) _].
  assert (H2 : grows P s1 (then_ p1 (Some (FEmit DetachedEmit)) (_nextErr sn) c Second s1).2).
  { apply grows_then; [apply Hc; lia|by apply grows_store in H1]. }
  destruct (then_ p1 _ _ c Second s1) as [p2 s2] eqn:E2. cbn [snd] in H2.
  eapply grows_trans; [exact H0|]. eapply grows_trans; [exact H1|exact H2].
Qed.

Lemma grows_fold_dispatch val l : forall s,
  (forall c f g p st, c ∈ l -> length (promises s) <= p -> P (React f g p c st)) ->
  clean_store P s -> grows P s (fold_left (dispatch val) l s).
Proof.
  induction l as [|c l IH]; intros s Hl H; cbn [fold_left]; [by apply grows_refl|].
  assert (Hd : grows P s (dispatch val s c)).
  { apply grows_dispatch; [|done]. intros. apply Hl; [by left|done]. }
  pose proof (ext_dispatch val s c) as (_ & _ & _ & HL & _).
  eapply grows_trans; [exact Hd|]. apply IH; [|by apply grows_store in Hd].
  intros. apply Hl; [by right|lia].
Qed.

Lemma fresh_ok_mono ns L L' : L <= L' -> fresh_ok P ns L -> fresh_ok P ns L'.
Proof. intros HL H c f g p st Hc Hp. apply H; [done|lia]. Qed.

Lemma grows_emit_loop k : forall n i val s,
  fresh_ok P (nodes s) (length (promises s)) -> clean_store P s ->
  grows P s (emit_loop k n i val s).2.
Proof.
  induction k as [|k IH]; intros n i val s Hf H; cbn [emit_loop]; [by apply grows_refl|].
  destruct (nodes s !! n) as [nd|] eqn:Hn; [|by apply grows_refl].
  destruct (subscribers nd !! i) as [c|] eqn:Hc; [|by apply grows_refl].
  destruct (nodes s !! c) as [cn|] eqn:Hcn; [|by apply grows_refl].
  assert (Hin : c ∈ all_subscribers (nodes s)).
  { unfold all_subscribers. apply list_elem_of_In, in_flat_map.
    exists nd. split; apply list_elem_of_In; by eapply list_elem_of_lookup_2. }
  assert (Hd : grows P s (dispatch val s c)).
  { apply grows_dispatch; [|done]. intros f g p st Hp. by apply Hf. }
  pose proof (ext_dispatch val s c) as (HN & _ & _ & HL & _).
  unfold dispatch in Hd, HN, HL. rewrite Hcn in Hd, HN, HL.
  destruct (Promise_resolve val s) as [p0 s0].
  destruct (then_ p0 _ _ c First s0) as [p1 s1].
  destruct (then_ p1 _ _ c Second s1) as [p2 s2].
  eapply grows_trans; [exact Hd|]. apply IH; [|by apply grows_store in Hd].
  rewrite HN. by eapply fresh_ok_mono.
Qed.

Lemma grows_emit this val s :
  fresh_ok P (nodes s) (length (promises s)) -> clean_store P s ->
  grows P s (emit this val s).2.
Proof.
  intros Hf H. unfold emit. destruct this as [n|]; [|by apply grows_refl].
  destruct (nodes s !! n); [|by apply grows_refl]. by apply grows_emit_loop.
Qed.

Lemma grows_emit_via e val s :
  fresh_ok P (nodes s) (length (promises s)) -> clean_store P s ->
  grows P s (emit_via e val s).2.
Proof. destruct e; apply grows_emit. Qed.

Lemma grows_reject_then (em : jsval -> state -> completion * state) reason s :
  (forall val s, fresh_ok P (nodes s) (length (promises s)) -> clean_store P s ->
                 grows P s (em val s).2) ->
  fresh_ok P (nodes s) (length (promises s)) -> clean_store P s ->
  grows P s (let '(q, s) := Promise_reject reason s in em (Fut q) s).2.
Proof.
  intros Hem Hf H.
  pose proof (grows_alloc (Settled (Rejected reason)) s (Forall_nil_2 _) H) as H0.
  unfold Promise_reject. cbn [alloc] in *. cbn [snd] in H0.
  eapply grows_trans; [exact H0|]. apply Hem; [|by apply grows_store in H0].
  cbn. eapply fresh_ok_mono; [|exact Hf]. rewrite length_app. lia.
Qed.

Lemma grows_call f arg s :
  fresh_ok P (nodes s) (length (promises s)) -> clean_store P s ->
  grows P s (call f arg s).2.
Proof.
  intros Hf H. destruct f as [g|e|n|e]; cbn [call].
  - destruct (g arg) as [v|e|[x|]]; try by apply grows_refl.
    + by apply (grows_alloc (Settled x) s); [constructor|].
    + by apply (grows_alloc (Pending []) s); [constructor|].
  - by apply grows_emit_via.
  - apply (grows_reject_then (emit (Some n))); [|done|done]. intros. by apply grows_emit.
  - apply (grows_reject_then (emit_via e)); [|done|done]. intros. by apply grows_emit_via.
Qed.

Lemma grows_log e s s' : grows P (log e s) s' -> grows P s s'.
Proof. done. Qed.

Lemma grows_run_job j s :
  adopt_ok P -> P (job_reaction j) ->
  fresh_ok P (nodes s) (length (promises s)) -> clean_store P s ->
  grows P s (run_job j s).
Proof.
  intros Ha Hj Hf H. unfold run_job. pose proof (Ha _ Hj) as Hadopt.
  destruct (job_reaction j) as [onF onR t w st|t]; cbn [target_of] in Hadopt.
  - destruct (handler_for _ _ _) as [f|].
    + apply (grows_log (Called w st (job_input j))).
      pose proof (grows_call f (payload (job_input j)) (log (Called w st (job_input j)) s) Hf H)
        as Hc.
      destruct (call f _ _) as [[v|e] s1]; cbn [snd] in Hc.
      * eapply grows_trans; [exact Hc|]. apply grows_resolve_with; [done|].
        by apply grows_store in Hc.
      * eapply grows_trans; [exact Hc|]. apply grows_settle. by apply grows_store in Hc.
    + apply (grows_log (Passed w st (job_input j))). by apply grows_settle.
  - by apply grows_settle.
Qed.

(** Running clean jobs from the front of the queue appends clean jobs only,
    and keeps the store clean. *)
Lemma run_front_clean pre : forall s rest,
  adopt_ok P -> queue s = pre ++ rest -> clean_jobs P pre ->
  fresh_ok P (nodes s) (length (promises s)) -> clean_store P s ->
  exists js, queue (run (length pre) s) = rest ++ js /\ clean_jobs P js /\
             clean_store P (run (length pre) s).
Proof.
  induction pre as [|j pre IH]; intros s rest Ha Hq Hpre Hf H; cbn [length run].
  - exists []. rewrite app_nil_r. split; [done|]. split; [constructor|done].
  - apply Forall_cons in Hpre as [Hj Hpre].
    rewrite (step_cons s j (pre ++ rest)) by done.
    destruct (grows_run_job j (set_queue (pre ++ rest) s) Ha Hj Hf H) as [(js & Q & C) H'].
    destruct (run_job_ext j (set_queue (pre ++ rest) s)) as (N & _ & _ & L & _).
    cbn [set_queue queue nodes promises] in *.
    destruct (IH (run_job j (set_queue (pre ++ rest) s)) (rest ++ js) Ha)
      as (js' & Q' & C' & H''); auto.
    { by rewrite Q, app_assoc. }
    { rewrite N. by eapply fresh_ok_mono. }
    exists (js ++ js'). rewrite Q', app_assoc. split; [done|]. split; [|done].
    by apply Forall_app.
Qed.

End Clean.

Lemma avoids_adopt_ok t : adopt_ok (avoids t).
Proof. by intros r Hr. Qed.

Lemma avoids_fresh_ok t ns L : t < L -> fresh_ok (avoids t) ns L.
Proof. intros Ht c f g p st _ Hp. unfold avoids. cbn. lia. Qed.

Lemma targets_below_dispatch val s c cn x :
  nodes s !! c = Some cn -> settled_as s val = Some x ->
  targets_below s -> targets_below (dispatch val s c).
Proof.
  intros Hc Hx [HQ HS]. rewrite (dispatch_exact val s c cn x Hc Hx).
  unfold targets_below, clean_jobs, clean_store. cbn [queue promises].
  rewrite !length_app. cbn [length]. split.
  - apply Forall_app. split.
    + eapply Forall_impl; [exact HQ|]. cbn. intros; lia.
    + constructor; [|constructor]. cbn. lia.
  - apply Forall_app. split.
    + eapply Forall_impl; [exact HS|]. intros ps Hps. cbn in Hps.
      eapply Forall_impl; [exact Hps|]. cbn. intros; lia.
    + apply Forall_app. split.
      * destruct val; cbn; repeat constructor.
      * repeat constructor. cbn. lia.
Qed.

(** The job [emit] schedules for subscriber [c], with everything the proofs
    about its promise need: no other job and no waiting reaction has that
    promise as target, and the second-stage reaction waits on it. *)
Lemma fold_dispatch_job_alone val x l c cn : forall s,
  settled_as s val = Some x ->
  (forall c', c' ∈ l -> is_Some (nodes s !! c')) ->
  c ∈ l -> nodes s !! c = Some cn ->
  targets_below s ->
  exists pre post t,
    queue (fold_left (dispatch val) l s) = pre ++ first_job cn c t x :: post /\
    clean_jobs (avoids t) pre /\ clean_jobs (avoids t) post /\
    clean_store (avoids t) (fold_left (dispatch val) l s) /\
    promises (fold_left (dispatch val) l s) !! t = Some (Pending [second_reaction cn c t]).
Proof.
  induction l as [|c' l IH]; intros s Hx Hl Hc Hcn Hb; cbn [fold_left].
  - by apply elem_of_nil in Hc.
  - destruct (Hl c') as [cn' Hc']; [by left|].
    pose proof (ext_dispatch val s c') as (HN & _).
    pose proof (dispatch_exact val s c' cn' x Hc' Hx) as HE. cbn zeta in HE.
    assert (Hx' : settled_as (dispatch val s c') val = Some x).
    { eapply settled_as_app; [exact Hx|]. rewrite HE. reflexivity. }
    assert (Hl' : forall c0, c0 ∈ l -> is_Some (nodes (dispatch val s c') !! c0)).
    { intros c0 Hc0. rewrite HN. apply Hl. by right. }
    destruct (decide (c = c')) as [<-|Hne].
    + assert (cn' = cn) as -> by congruence.
      set (t := length (promises s) + length (value_cell val)) in *.
      assert (Hlk : promises (dispatch val s c) !! t = Some (Pending [second_reaction cn c t])).
      { rewrite HE. cbn [promises]. rewrite app_assoc. apply list_lookup_middle.
        by rewrite length_app. }
      assert (Hcs : clean_store (avoids t) (dispatch val s c)).
      { rewrite HE. unfold clean_store. cbn [promises]. destruct Hb as [_ HS].
        apply Forall_app. split.
        - eapply Forall_impl; [exact HS|]. intros ps Hps. cbn in Hps.
          eapply Forall_impl; [exact Hps|]. unfold avoids. cbn. intros; lia.
        - apply Forall_app. split.
          + destruct val; cbn; repeat constructor.
          + repeat constructor. unfold avoids. cbn. lia. }
      destruct (grows_fold_dispatch (avoids t) val l (dispatch val s c)) as [(js & Q & C) HS'].
      { intros c0 f g p st _ Hp. unfold avoids. cbn. apply lookup_lt_Some in Hlk. lia. }
      { exact Hcs. }
      destruct (fold_dispatch_jobs val x l (dispatch val s c) Hx' Hl') as (_ & extra & _ & HP & _).
      assert (HQd : queue (dispatch val s c) = queue s ++ [first_job cn c t x]).
      { by rewrite HE. }
      exists (queue s), js, t. rewrite Q, HQd, <- app_assoc.
      split; [done|]. split; [|split; [done|split; [done|]]].
      * destruct Hb as [HQ _]. eapply Forall_impl; [exact HQ|]. unfold avoids. cbn. intros; lia.
      * rewrite HP. by apply lookup_app_l_Some.
    + apply elem_of_cons in Hc as [?|Hc]; [done|].
      apply (IH (dispatch val s c')); auto.
      * by rewrite HN.
      * by eapply targets_below_dispatch.
Qed.


(** ** Arrival and hand-over in order *)

Lemma first_job_step s a q :
  queue s = job_of a :: q -> armed s a ->
  user_or_absent (handler_for (fs_input a) (_onEmit (fs_node a)) (_onError (fs_node a))) ->
  queue (step s) = q ++ appends a /\
  nodes (step s) = nodes s /\
  trace (step s) = trace s ++ [event_of a] /\
  length (promises s) <= length (promises (step s)) /\
  forall p, p < length (promises s) -> p <> fs_target a ->
            promises (step s) !! p = promises s !! p.
Proof.
  destruct a as [cn c t x]. unfold job_of, armed, event_of, appends. cbn [fs_node fs_who fs_target fs_input].
  intros Hq Ht Hu. rewrite (step_cons s _ _ Hq).
  destruct (run_job_ext (first_job cn c t x) (set_queue q s)) as (N & _ & _ & L & F).
  split; [|split; [done|split; [|split; [done|]]]].
  - unfold run_job, first_job, first_event. cbn [job_reaction job_input].
    destruct (handler_for x (_onEmit cn) (_onError cn)) as [[f|e|n|e]|]; try done.
    + cbn [call]. destruct (f (payload x)) as [v|e|[z|]].
      * cbn [resolve_with]. erewrite settle_pending_queue by exact Ht; reflexivity.
      * erewrite settle_pending_queue by exact Ht; reflexivity.
      * cbn [alloc resolve_with]. unfold register.
        cbn [log set_queue set_promises promises nodes queue trace].
        by rewrite list_lookup_middle.
      * cbn [alloc resolve_with]. unfold register.
        cbn [log set_queue set_promises promises nodes queue trace].
        rewrite list_lookup_middle by done. cbn. by rewrite app_nil_r.
    + erewrite settle_pending_queue by exact Ht; reflexivity.
  - destruct (run_job_ext (first_job cn c t x) (set_queue q s)) as (_ & T & _).
    rewrite T. by rewrite job_events_first.
  - intros p Hp Hne. apply F; [done|]. unfold only, job_target, first_job. cbn. congruence.
Qed.

(** The first-stage jobs [J] at the front of the queue, all armed, with
    promises of their own: when they have run, the queue has gained what
    each of them appends, in order. *)
Lemma first_jobs_run J : forall s rest,
  queue s = map job_of J ++ rest ->
  NoDup (map fs_target J) ->
  Forall (armed s) J ->
  Forall (fun a => user_or_absent
            (handler_for (fs_input a) (_onEmit (fs_node a)) (_onError (fs_node a)))) J ->
  queue (run (length J) s) = rest ++ flat_map appends J /\
  nodes (run (length J) s) = nodes s /\
  trace (run (length J) s) = trace s ++ map event_of J.
Proof.
  induction J as [|a J IH]; intros s rest Hq Hnd Harm Hu; cbn [length run map flat_map].
  - by rewrite !app_nil_r.
  - cbn [map app] in Hq. apply NoDup_cons in Hnd as [Ha Hnd].
    apply Forall_cons in Harm as [Harm_a Harm]. apply Forall_cons in Hu as [Hu_a Hu].
    destruct (first_job_step s a _ Hq Harm_a Hu_a) as (Q & N & T & L & F).
    destruct (IH (step s) (rest ++ appends a)) as (Q' & N' & T'); auto.
    + by rewrite Q, app_assoc.
    + rewrite Forall_forall in *. intros b Hb. unfold armed. rewrite F.
      * by apply Harm.
      * eapply lookup_lt_Some. by apply Harm.
      * intros E. apply Ha. rewrite <- E. apply list_elem_of_fmap. by exists b.
    + rewrite Q', N', T', N, T, <- !app_assoc. done.
Qed.

Lemma armed_app s s' extra a :
  promises s' = promises s ++ extra -> armed s a -> armed s' a.
Proof. unfold armed. intros -> H. by apply lookup_app_l_Some. Qed.

Lemma fold_dispatch_armed val x l : forall s,
  settled_as s val = Some x ->
  (forall c, c ∈ l -> is_Some (nodes s !! c)) ->
  exists J extra,
    queue (fold_left (dispatch val) l s) = queue s ++ map job_of J /\
    promises (fold_left (dispatch val) l s) = promises s ++ extra /\
    Forall2 (scheduled s x) l J /\
    Forall (fun a => length (promises s) <= fs_target a) J /\
    NoDup (map fs_target J) /\
    Forall (armed (fold_left (dispatch val) l s)) J.
Proof.
  induction l as [|c l IH]; intros s Hx Hl; cbn [fold_left].
  - exists [], []. rewrite !app_nil_r. repeat split; constructor.
  - destruct (Hl c) as [cn Hc]; [by left|].
    pose proof (dispatch_exact val s c cn x Hc Hx) as HE. cbn zeta in HE.
    set (t := length (promises s) + length (value_cell val)) in *.
    pose proof (ext_dispatch val s c) as (HN & _).
    destruct (IH (dispatch val s c)) as (J & extra & Q & HP & HF & HB & HND & HA).
    { eapply settled_as_app; [exact Hx|]. rewrite HE. reflexivity. }
    { intros c' Hc'. rewrite HN. apply Hl. by right. }
    assert (HPd : promises (dispatch val s c) =
              promises s ++ value_cell val ++ [Pending [second_reaction cn c t]; Pending []]).
    { by rewrite HE. }
    assert (HQd : queue (dispatch val s c) = queue s ++ [first_job cn c t x]).
    { by rewrite HE. }
    exists (FirstStage cn c t x :: J), ((value_cell val ++ [Pending [second_reaction cn c t]; Pending []]) ++ extra).
    rewrite Q, HQd, HP, HPd, <- !app_assoc. split; [done|]. split; [done|].
    assert (HLd : t < length (promises (dispatch val s c))).
    { rewrite HPd, !length_app. cbn [length]. lia. }
    split; [|split; [|split]].
    + constructor; [done|]. eapply Forall2_impl; [exact HF|].
      intros c' a (H1 & H2 & H3). split; [by rewrite <- HN|done].
    + constructor; [cbn; lia|]. eapply Forall_impl; [exact HB|]. cbn. intros a Ha. lia.
    + cbn [map]. apply NoDup_cons. split; [|done]. cbn [fs_target].
      intros Hin. apply list_elem_of_fmap in Hin as (a & E & Ha).
      rewrite Forall_forall in HB. specialize (HB a Ha). cbn in HB. lia.
    + constructor; [|done]. unfold armed. cbn [fs_target fs_node fs_who].
      rewrite HP. apply lookup_app_l_Some. rewrite HPd.
      rewrite app_assoc. apply list_lookup_middle. by rewrite length_app.
Qed.

(** The first-stage jobs [emit_all] schedules: for each value in turn, one
    per subscriber. *)
Lemma emit_all_armed n nd vs : forall s,
  nodes s !! n = Some nd -> subscribers_exist s nd ->
  exists (J : list (list first_stage)) extra,
    queue (emit_all n vs s) = queue s ++ map job_of (concat J) /\
    promises (emit_all n vs s) = promises s ++ extra /\
    nodes (emit_all n vs s) = nodes s /\
    trace (emit_all n vs s) = trace s /\
    Forall2 (fun v Jv => Forall2 (scheduled s (Fulfilled v)) (subscribers nd) Jv)
            vs J /\
    Forall (fun a => length (promises s) <= fs_target a) (concat J) /\
    NoDup (map fs_target (concat J)) /\
    Forall (armed (emit_all n vs s)) (concat J).
Proof.
  induction vs as [|v vs IH]; intros s Hn Hex; cbn [emit_all].
  - exists [], []. rewrite !app_nil_r. repeat split; constructor.
  - rewrite (emit_fold n (Plain v) s nd Hn Hex). cbn [snd].
    destruct (fold_dispatch_armed (Plain v) (Fulfilled v) (subscribers nd) s)
      as (J1 & extra1 & Q1 & P1 & F1 & B1 & ND1 & A1); [done|done|].
    destruct (ext_fold_dispatch (Plain v) (subscribers nd) s) as (N1 & T1 & _).
    rewrite app_nil_r in T1.
    set (s1 := fold_left (dispatch (Plain v)) (subscribers nd) s) in *.
    destruct (IH s1) as (J & extra & Q & HP & HN & HT & HF & HB & HND & HA).
    { by rewrite N1. }
    { intros c Hc. rewrite N1. by apply Hex. }
    exists (J1 :: J), (extra1 ++ extra).
    rewrite Q, Q1, HP, P1, HN, N1, HT, T1, <- !app_assoc. cbn [concat].
    rewrite map_app. split; [done|]. split; [done|]. split; [done|]. split; [done|].
    split; [|split; [|split]].
    + constructor; [done|]. eapply Forall2_impl; [exact HF|]. intros v' Jv HJ.
      eapply Forall2_impl; [exact HJ|]. intros c a (H1 & H2 & H3).
      split; [by rewrite <- N1|done].
    + apply Forall_app. split; [done|]. eapply Forall_impl; [exact HB|]. cbn.
      intros a Ha. rewrite P1, length_app in Ha. lia.
    + rewrite map_app. apply NoDup_app. split; [done|]. split; [|done].
      intros t Ht1 Ht2.
      apply list_elem_of_fmap in Ht1 as (a1 & -> & Ha1).
      apply list_elem_of_fmap in Ht2 as (a2 & E & Ha2).
      rewrite Forall_forall in A1, HB. specialize (A1 a1 Ha1). specialize (HB a2 Ha2).
      apply lookup_lt_Some in A1. cbn in HB. lia.
    + apply Forall_app. split; [|done]. eapply Forall_impl; [exact A1|].
      intros a Ha. by eapply armed_app.
Qed.

Lemma handed_on_app c t1 t2 : handed_on c (t1 ++ t2) = handed_on c t1 ++ handed_on c t2.
Proof. unfold handed_on. apply flat_map_app. Qed.

Lemma received_event_of c a v :
  fs_input a = Fulfilled v ->
  received c [event_of a] = (if decide (fs_who a = c) then [v] else []) /\
  handed_on c [event_of a] = [].
Proof.
  destruct a as [cn c' t x]. cbn. intros ->. unfold event_of, first_event. cbn.
  destruct (_onEmit cn); cbn; by rewrite app_nil_r.
Qed.

Lemma received_appends c a : received c (flat_map job_events (appends a)) = [].
Proof.
  destruct a as [cn c' t x]. unfold appends, job_events. cbn.
  destruct (handler_for x (_onEmit cn) (_onError cn)) as [[f|e|n|e]|]; try done.
  - destruct (f (payload x)) as [v|e|[z|]]; try done.
    cbn. by destruct (_nextErr cn).
  - cbn. by destruct (handler_for x _ _).
Qed.

Lemma handed_on_appends_other c a :
  fs_who a <> c -> handed_on c (flat_map job_events (appends a)) = [].
Proof.
  destruct a as [cn c' t x]. unfold appends, job_events. cbn. intros Hne.
  destruct (handler_for x (_onEmit cn) (_onError cn)) as [[f|e|n|e]|]; try done.
  - destruct (f (payload x)) as [v|e|[z|]]; try done.
    + cbn. by rewrite decide_False.
    + cbn. by destruct (_nextErr cn).
  - cbn. destruct (handler_for x _ _); [|done]. cbn. destruct x; [|done].
    by rewrite decide_False.
Qed.

Lemma handed_on_appends_same c a v :
  fs_who a = c -> fs_input a = Fulfilled v -> hands_on (fs_node a) ->
  handed_on c (flat_map job_events (appends a)) = [v].
Proof.
  destruct a as [cn c' t x]. unfold appends, job_events. cbn. intros -> -> Hh.
  destruct Hh as [Hh|(f & Hh & Hf)]; rewrite Hh; cbn.
  - by rewrite decide_True.
  - rewrite Hf. cbn. by rewrite decide_True.
Qed.

Lemma scheduled_events s c cn v l Jv :
  Forall2 (scheduled s (Fulfilled v)) l Jv ->
  nodes s !! c = Some cn ->
  received c (map event_of Jv) = flat_map (fun c' => if decide (c' = c) then [v] else []) l /\
  handed_on c (map event_of Jv) = [] /\
  received c (flat_map job_events (flat_map appends Jv)) = [] /\
  (hands_on cn ->
   handed_on c (flat_map job_events (flat_map appends Jv)) =
     flat_map (fun c' => if decide (c' = c) then [v] else []) l).
Proof.
  intros HF Hc. induction HF as [|c' a l Jv (H1 & H2 & H3) _ (IH1 & IH2 & IH3 & IH4)];
    [done|].
  destruct (received_event_of c a v H3) as [R F].
  cbn [map flat_map].
  rewrite !flat_map_app, !received_app, !handed_on_app.
  change (event_of a :: map event_of Jv) with ([event_of a] ++ map event_of Jv).
  rewrite received_app, handed_on_app, R, F, IH1, IH2, IH3, received_appends, H2.
  split; [done|]. split; [done|]. split; [done|].
  intros Hh. rewrite (IH4 Hh). f_equal.
  destruct (decide (c' = c)) as [->|Hne].
  - apply handed_on_appends_same; [done|done|]. by assert (fs_node a = cn) as -> by congruence.
  - apply handed_on_appends_other. congruence.
Qed.

Lemma emitted_events s c cn nd vs J :
  Forall2 (fun v Jv => Forall2 (scheduled s (Fulfilled v)) (subscribers nd) Jv) vs J ->
  nodes s !! c = Some cn -> NoDup (subscribers nd) -> c ∈ subscribers nd ->
  length (concat J) = length vs * length (subscribers nd) /\
  received c (map event_of (concat J)) = vs /\
  handed_on c (map event_of (concat J)) = [] /\
  received c (flat_map job_events (flat_map appends (concat J))) = [] /\
  (hands_on cn -> handed_on c (flat_map job_events (flat_map appends (concat J))) = vs).
Proof.
  intros HF Hc Hnd Hin.
  induction HF as [|v Jv vs J HJ _ (IH0 & IH1 & IH2 & IH3 & IH4)]; [done|].
  destruct (scheduled_events s c cn v _ Jv HJ Hc) as (R1 & R2 & R3 & R4).
  cbn [concat length].
  rewrite length_app, map_app, !flat_map_app, !received_app, !handed_on_app.
  rewrite IH0, IH1, IH2, IH3, R1, R2, R3, once_in_list by done.
  split; [by rewrite (Forall2_length _ _ _ HJ)|].
  split; [done|]. split; [done|]. split; [done|].
  intros Hh. by rewrite (R4 Hh), (IH4 Hh), once_in_list.
Qed.

(** ** Reachable states *)

Lemma bounded_mono L L' s : L <= L' -> bounded L s -> bounded L' s.
Proof.
  intros HL [HQ HS]. split.
  - eapply Forall_impl; [exact HQ|]. cbn. intros; lia.
  - eapply Forall_impl; [exact HS|]. intros ps Hps. cbn in Hps.
    eapply Forall_impl; [exact Hps|]. cbn. intros; lia.
Qed.

Lemma bounded_targets_below L s :
  L <= length (promises s) -> bounded L s -> targets_below s.
Proof. intros HL H. by apply (bounded_mono L). Qed.

Lemma bounded_alloc L ps s :
  reactions ps = [] -> bounded L s -> bounded L (alloc ps s).2.
Proof.
  intros Hps [HQ HS]. split; [done|].
  unfold clean_store. cbn. apply Forall_app. split; [done|].
  constructor; [|constructor]. rewrite Hps. constructor.
Qed.

Lemma bounded_enqueue L js s :
  clean_jobs (fun r => target_of r < L) js -> bounded L s -> bounded L (enqueue js s).
Proof.
  intros Hjs [HQ HS]. split; [|done]. unfold clean_jobs. cbn. by apply Forall_app.
Qed.

Lemma bounded_register L p r s :
  target_of r < L -> bounded L s -> bounded L (register p r s).
Proof.
  intros Hr H. unfold register. destruct (promises s !! p) as [[rs|x]|] eqn:E; [| |done].
  - destruct H as [HQ HS]. split; [done|]. unfold clean_store. cbn.
    apply Forall_insert; [done|]. cbn. apply Forall_app. split; [|by constructor].
    unfold clean_store in HS. rewrite Forall_forall in HS.
    apply (HS (Pending rs)). by eapply list_elem_of_lookup_2.
  - apply bounded_enqueue; [|done]. by constructor.
Qed.

Lemma bounded_settle L t x s : bounded L s -> bounded L (settle t x s).
Proof.
  intros H. unfold settle. destruct (promises s !! t) as [[rs|y]|] eqn:E; [|done|done].
  destruct H as [HQ HS]. apply bounded_enqueue.
  - unfold clean_jobs. rewrite Forall_map. cbn.
    unfold clean_store in HS. rewrite Forall_forall in HS.
    apply (HS (Pending rs)). by eapply list_elem_of_lookup_2.
  - split; [done|]. unfold clean_store. cbn. apply Forall_insert; [done|]. constructor.
Qed.

Lemma bounded_resolve_with L t v s :
  t < L -> bounded L s -> bounded L (resolve_with t v s).
Proof.
  intros Ht H. destruct v as [x|q]; cbn [resolve_with].
  - by apply bounded_settle.
  - by apply bounded_register.
Qed.

Lemma targets_below_alloc ps s :
  reactions ps = [] -> targets_below s -> targets_below (alloc ps s).2.
Proof.
  intros Hps H. apply (bounded_targets_below (length (promises s))).
  - cbn. rewrite length_app. lia.
  - by apply bounded_alloc.
Qed.

Lemma targets_below_then p f g w st s :
  targets_below s -> targets_below (then_ p f g w st s).2.
Proof.
  intros H. unfold then_. cbn [alloc snd].
  set (s1 := set_promises (promises s ++ [Pending []]) s).
  assert (H1 : targets_below s1) by (by apply (targets_below_alloc (Pending []) s)).
  assert (L1 : length (promises s1) = S (length (promises s))).
  { unfold s1. cbn. rewrite length_app. cbn. lia. }
  destruct (ext_register p (React f g (length (promises s)) w st) s1) as (_ & _ & _ & HL & _).
  apply (bounded_targets_below (length (promises s1))); [exact HL|].
  apply bounded_register; [cbn [target_of]; lia|done].
Qed.

Lemma targets_below_Promise_resolve val s :
  targets_below s -> targets_below (Promise_resolve val s).2.
Proof.
  intros H. destruct val as [v|q]; cbn [Promise_resolve]; [|done].
  by apply (targets_below_alloc (Settled _) s).
Qed.

Lemma targets_below_emit_loop k : forall n i val s,
  targets_below s -> targets_below (emit_loop k n i val s).2.
Proof.
  induction k as [|k IH]; intros n i val s H; cbn [emit_loop]; [done|].
  destruct (nodes s !! n) as [nd|]; [|done].
  destruct (subscribers nd !! i) as [c|]; [|done].
  destruct (nodes s !! c) as [sn|]; [|done].
  pose proof (targets_below_Promise_resolve val s H) as H0.
  destruct (Promise_resolve val s) as [p0 s0]. cbn [snd] in H0.
  pose proof (targets_below_then p0 (_onEmit sn) (_onError sn) c First s0 H0) as H1.
  destruct (then_ p0 _ _ c First s0) as [p1 s1]. cbn [snd] in H1.
  pose proof (targets_below_then p1 (Some (FEmit DetachedEmit)) (_nextErr sn) c Second s1 H1)
    as H2.
  destruct (then_ p1 _ _ c Second s1) as [p2 s2]. cbn [snd] in H2.
  by apply IH.
Qed.

Lemma targets_below_emit this val s :
  targets_below s -> targets_below (emit this val s).2.
Proof.
  intros H. unfold emit. destruct this as [n|]; [|done].
  destruct (nodes s !! n) as [nd|]; [|done]. by apply targets_below_emit_loop.
Qed.

Lemma targets_below_emit_via e val s :
  targets_below s -> targets_below (emit_via e val s).2.
Proof. destruct e; apply targets_below_emit. Qed.

Lemma targets_below_call f arg s :
  targets_below s -> targets_below (call f arg s).2.
Proof.
  intros H. destruct f as [g|e|n|e]; cbn [call].
  - destruct (g arg) as [v|e|[x|]]; [done|done| |].
    + by apply (targets_below_alloc (Settled x) s).
    + by apply (targets_below_alloc (Pending []) s).
  - by apply targets_below_emit_via.
  - apply (targets_below_emit (Some n)). by apply (targets_below_alloc (Settled _) s).
  - apply targets_below_emit_via. by apply (targets_below_alloc (Settled _) s).
Qed.

Lemma targets_below_settle t x s : targets_below s -> targets_below (settle t x s).
Proof.
  intros H. destruct (ext_settle t x s) as (_ & _ & _ & HL & _).
  apply (bounded_targets_below (length (promises s))); [done|]. by apply bounded_settle.
Qed.

Lemma targets_below_run_job j s :
  target_of (job_reaction j) < length (promises s) ->
  targets_below s -> targets_below (run_job j s).
Proof.
  intros Hj H. unfold run_job.
  destruct (job_reaction j) as [onF onR t w st|t]; cbn [target_of] in Hj.
  - destruct (handler_for _ _ _) as [f|].
    + pose proof (targets_below_call f (payload (job_input j))
                    (log (Called w st (job_input j)) s) H) as Hc.
      destruct (call f _ _) as [[v|e] s1] eqn:E; cbn [snd] in Hc.
      * apply call_ext in E as [(_ & _ & _ & HL & _) _]. cbn [log promises] in HL.
        destruct (ext_resolve_with t v s1) as (_ & _ & _ & HL' & _).
        apply (bounded_targets_below (length (promises s1))); [done|].
        apply bounded_resolve_with; [lia|done].
      * by apply targets_below_settle.
    + by apply (targets_below_settle t _ (log _ s)).
  - by apply targets_below_settle.
Qed.

Lemma targets_below_step s : targets_below s -> targets_below (step s).
Proof.
  intros H. unfold step. destruct (queue s) as [|j q] eqn:E; [done|].
  destruct H as [HQ HS]. rewrite E in HQ. apply Forall_cons in HQ as [Hj HQ].
  apply targets_below_run_job; [done|]. by split.
Qed.

Lemma targets_below_run k : forall s, targets_below s -> targets_below (run k s).
Proof.
  induction k as [|k IH]; intros s H; cbn [run]; [done|].
  apply IH. by apply targets_below_step.
Qed.

Lemma targets_below_nodes s s' :
  promises s' = promises s -> queue s' = queue s -> targets_below s -> targets_below s'.
Proof. unfold targets_below, clean_store. by intros -> ->. Qed.

Lemma targets_below_exec o s : targets_below s -> targets_below (exec o s).
Proof.
  intros H. destruct o as [|n f g|n|n val|reason|iterable|]; cbn [exec].
  - by apply (targets_below_nodes s).
  - destruct (decide _); [|done]. by apply (targets_below_nodes s).
  - apply (targets_below_nodes s); [| |done]; unfold unsubscribe;
      destruct (nodes s !! n) as [nd|]; try done; by destruct (publisher nd).
  - by apply targets_below_emit.
  - by apply (targets_below_alloc (Settled _) s).
  - destruct (decide _) as [Hv|]; [|done].
    destruct (merge_quiet s iterable Hv) as (HP & HQ & _). by apply (targets_below_nodes s).
  - by apply targets_below_step.
Qed.

(** In every state the operations of the class and the event loop reach from
    the initial one, the targets of the jobs and of the waiting reactions
    are promises of the store. *)
Lemma targets_below_reachable ops : targets_below (run_ops ops init).
Proof.
  assert (H : forall s, targets_below s -> targets_below (run_ops ops s)).
  { unfold run_ops. induction ops as [|o ops IH]; intros s Hs; cbn [fold_left]; [done|].
    apply IH. by apply targets_below_exec. }
  apply H. split; constructor.
Qed.

(** In every such state the [subscribers] of a node are nodes of the heap. *)
Lemma subscribers_exist_reachable ops n nd :
  nodes (run_ops ops init) !! n = Some nd -> subscribers_exist (run_ops ops init) nd.
Proof.
  intros Hn c Hc.
  destruct (run_ops_structural ops init structural_init) as [_ H _].
  rewrite Forall_forall in H. apply lookup_lt_is_Some, H.
  rewrite (all_subscribers_split n _ nd Hn), !elem_of_app. right. by left.
Qed.


(** ** Failures *)

Lemma settle_pending t x rs s :
  promises s !! t = Some (Pending rs) ->
  settle t x s = enqueue (map (fun r => Job r x) rs)
                         (set_promises (<[t := Settled x]> (promises s)) s).
Proof. intros H. unfold settle. by rewrite H. Qed.

(** The first-stage job of [c] is at the head of the queue, its promise is
    the target of nothing else: some turns later the second stage of [c] is
    scheduled with the result of the first. *)
Lemma first_stage_settles s cn c t x y q :
  queue s = first_job cn c t x :: q ->
  promises s !! t = Some (Pending [second_reaction cn c t]) ->
  clean_jobs (avoids t) q ->
  first_result cn x = Some y ->
  exists k q' evs,
    queue (run k s) = q' ++ [Job (second_reaction cn c t) y] /\
    nodes (run k s) = nodes s /\
    trace (run k s) = trace s ++ first_event cn c x :: evs.
Proof.
  intros Hq Ht Hcl Hy.
  assert (Himm : forall z,
    run_job (first_job cn c t x) (set_queue q s) =
      settle t z (log (first_event cn c x) (set_queue q s)) ->
    queue (run 1 s) = q ++ [Job (second_reaction cn c t) z] /\
    nodes (run 1 s) = nodes s /\ trace (run 1 s) = trace s ++ [first_event cn c x]).
  { intros z Hz. cbn [run]. rewrite (step_cons s _ _ Hq), Hz.
    erewrite settle_pending; [|exact Ht]. by cbn. }
  unfold first_result, first_event in *.
  destruct (handler_for x (_onEmit cn) (_onError cn)) as [[f|e|n|e]|] eqn:Hh; try done.
  - destruct (f (payload x)) as [v|e|[z|]] eqn:Hf; [| | |done]; injection Hy as <-.
    + exists 1, q, []. apply Himm.
      unfold run_job, first_job. cbn [job_reaction job_input]. rewrite Hh.
      cbn [call]. by rewrite Hf.
    + exists 1, q, []. apply Himm.
      unfold run_job, first_job. cbn [job_reaction job_input]. rewrite Hh.
      cbn [call]. by rewrite Hf.
    + assert (Hs1 : step s =
        State (nodes s) (promises s ++ [Settled z]) (q ++ [Job (Adopt t) z])
              (trace s ++ [Called c First x])).
      { rewrite (step_cons s _ _ Hq). unfold run_job, first_job.
        cbn [job_reaction job_input]. rewrite Hh. cbn [call]. rewrite Hf.
        cbn [alloc resolve_with]. unfold register.
        cbn [log set_queue set_promises promises nodes queue trace].
        by rewrite list_lookup_middle. }
      destruct (run_front q (step s) [Job (Adopt t) z]) as (N & T & [js Q] & _ & F).
      { by rewrite Hs1. }
      set (s2 := run (length q) (step s)) in *.
      assert (Ht2 : promises s2 !! t = Some (Pending [second_reaction cn c t])).
      { rewrite F; [rewrite Hs1; cbn [promises]; by apply lookup_app_l_Some
                   |rewrite Hs1; cbn [promises]; rewrite length_app;
                    apply lookup_lt_Some in Ht; lia
                   |exact Hcl]. }
      exists (S (length q + 1)), js, (flat_map job_events q).
      cbn [run]. rewrite run_add. fold s2. cbn [run].
      rewrite (step_cons s2 _ _ Q). unfold run_job. cbn [job_reaction job_input].
      erewrite settle_pending; [|exact Ht2]. cbn [enqueue set_promises set_queue queue nodes trace map].
      rewrite N, T, Hs1. cbn [nodes trace]. by rewrite <- app_assoc.
  - injection Hy as <-. exists 1, q, []. apply Himm.
    unfold run_job, first_job. cbn [job_reaction job_input]. by rewrite Hh.
Qed.

(** From [emit] to the second stage of a subscriber. *)
Lemma first_to_second s n nd c cn val x y :
  nodes s !! n = Some nd -> subscribers_exist s nd ->
  c ∈ subscribers nd -> nodes s !! c = Some cn ->
  targets_below s ->
  settled_as s val = Some x -> first_result cn x = Some y ->
  exists k t q evs1 evs2,
    queue (run k (emit (Some n) val s).2) = q ++ [Job (second_reaction cn c t) y] /\
    nodes (run k (emit (Some n) val s).2) = nodes s /\
    trace (run k (emit (Some n) val s).2) = trace s ++ evs1 ++ first_event cn c x :: evs2.
Proof.
  intros Hn Hex Hc Hcn Hb Hx Hy. rewrite (emit_fold n val s nd Hn Hex). cbn [snd].
  destruct (fold_dispatch_job_alone val x (subscribers nd) c cn s Hx Hex Hc Hcn Hb)
    as (pre & post & t & Q & Hpre & Hpost & Hst & Ht).
  destruct (ext_fold_dispatch val (subscribers nd) s) as (N & T & _).
  rewrite app_nil_r in T.
  set (s1 := fold_left (dispatch val) (subscribers nd) s) in *.
  destruct (run_front pre s1 _ Q) as (N2 & T2 & _ & L2 & F2).
  destruct (run_front_clean (avoids t) pre s1 _ (avoids_adopt_ok t) Q Hpre)
    as (js & Q2 & Hjs & Hst2); [|exact Hst|].
  { apply avoids_fresh_ok. eapply lookup_lt_Some. exact Ht. }
  set (s2 := run (length pre) s1) in *.
  destruct (first_stage_settles s2 cn c t x y (post ++ js)) as (k & q & evs & Q3 & N3 & T3).
  - by rewrite Q2.
  - rewrite F2; [exact Ht|eapply lookup_lt_Some; exact Ht|exact Hpre].
  - by apply Forall_app.
  - exact Hy.
  - exists (length pre + k), t, q, (flat_map job_events pre), evs.
    rewrite run_add. fold s2. rewrite Q3, N3, T3, N2, T2, N, T.
    split; [done|]. split; [done|]. by rewrite <- app_assoc.
Qed.

(** A failure at the first stage of subscriber [c] goes through [_nextErr]
    into [c]'s own [emit], and arrives at the first stage of every
    subscriber of [c]. *)
Lemma failure_propagates s n nd c cn g gn val x e :
  nodes s !! n = Some nd -> subscribers_exist s nd ->
  c ∈ subscribers nd -> nodes s !! c = Some cn ->
  _nextErr cn = Some (FNextErr c) ->
  subscribers_exist s cn -> g ∈ subscribers cn -> nodes s !! g = Some gn ->
  targets_below s ->
  settled_as s val = Some x -> first_result cn x = Some (Rejected e) ->
  exists k evs,
    trace (run k (emit (Some n) val s).2) = trace s ++ evs /\
    [first_event cn c x; Called c Second (Rejected e); first_event gn g (Rejected e)]
      `sublist_of` evs.
Proof.
  intros Hn Hex Hc Hcn Hne Hexc Hg Hgn Hb Hx Hy.
  destruct (first_to_second s n nd c cn val x _ Hn Hex Hc Hcn Hb Hx Hy)
    as (k & t & q & evs1 & evs2 & Q & N & T).
  set (s1 := run k (emit (Some n) val s).2) in *.
  destruct (forward_job s1 q _ _ (S t) c Second (Rejected e) [] (FNextErr c) c (Rejected e)
              cn g gn Q) as (N2 & T2 & pre2 & post2 & t2 & Q2); rewrite ?N; auto.
  { intros c' Hc'. rewrite N. by apply Hexc. }
  set (s2 := run (S (length q)) s1) in *.
  destruct (job_runs s2 pre2 _ post2 Q2) as (N3 & T3).
  exists (k + (S (length q) + S (length pre2))). eexists.
  rewrite !run_add. fold s1 s2. rewrite T3, T2, T, job_events_first, <- !app_assoc.
  split; [reflexivity|].
  apply sublist_inserts_l. apply sublist_skip. cbn [app].
  apply sublist_inserts_l. apply sublist_inserts_l. apply sublist_skip.
  apply sublist_inserts_l. done.
Qed.

(** ** After [unsubscribe] *)


















(** ** Scenarios *)

Lemma run_quiet k s : queue s = [] -> run k s = s.
Proof.
  intros Hq. induction k as [|k IH]; [done|]. cbn [run].
  unfold step. by rewrite Hq.
Qed.

Lemma call_detached_emit arg s : call (FEmit DetachedEmit) arg s = (Raised TypeError, s).
Proof. reflexivity. Qed.

Lemma subscribers_exist_check s nd :
  forallb (fun c => bool_decide (c < length (nodes s))) (subscribers nd) = true ->
  subscribers_exist s nd.
Proof.
  intros H c Hc. apply lookup_lt_is_Some.
  rewrite forallb_forall in H. apply list_elem_of_In in Hc.
  apply H in Hc. by apply bool_decide_eq_true in Hc.
Qed.

(** ** Order of delivery *)

Lemma first_jobs_events s x l js :
  Forall2 (first_job_of s x) l js -> flat_map job_events js = first_events s x l.
Proof.
  induction 1 as [|c j l js (cn & t & Hc & ->) _ IH]; [done|].
  unfold first_events in *. cbn [flat_map]. by rewrite Hc, job_events_first, IH.
Qed.

(** What [emit] has scheduled runs the same in any state with that queue and
    trace, whatever its heap of nodes. *)
Lemma emitted_jobs_run s n nd val x s' :
  queue s = [] -> settled_as s val = Some x ->
  nodes s !! n = Some nd -> subscribers_exist s nd ->
  queue s' = queue (emit (Some n) val s).2 -> trace s' = trace s ->
  trace (run (length (subscribers nd)) s') = trace s ++ first_events s x (subscribers nd).
Proof.
  intros Hq Hx Hn Hex Q T. rewrite (emit_fold n val s nd Hn Hex) in Q. cbn [snd] in Q.
  destruct (fold_dispatch_jobs val x (subscribers nd) s Hx Hex) as (js & extra & Q1 & _ & HF).
  rewrite Q1, Hq in Q. cbn [app] in Q.
  destruct (run_front js s' []) as (_ & T' & _); [by rewrite app_nil_r|].
  rewrite <- (Forall2_length _ _ _ HF) in T'. by rewrite T', T, (first_jobs_events s x _ _ HF).
Qed.

Lemma unsubscribe_quiet d s :
  promises (unsubscribe d s) = promises s /\ queue (unsubscribe d s) = queue s /\
  trace (unsubscribe d s) = trace s.
Proof.
  unfold unsubscribe. destruct (nodes s !! d) as [nd|]; [|done]. by destruct (publisher nd).
Qed.

Lemma subscribe_quiet m f g s :
  promises (subscribe m f g s).2 = promises s /\ queue (subscribe m f g s).2 = queue s /\
  trace (subscribe m f g s).2 = trace s.
Proof. done. Qed.

Lemma emit_trace n nd val s :
  nodes s !! n = Some nd -> subscribers_exist s nd -> trace (emit (Some n) val s).2 = trace s.
Proof.
  intros Hn Hex. rewrite (emit_fold n val s nd Hn Hex). cbn [snd].
  destruct (ext_fold_dispatch val (subscribers nd) s) as (_ & T & _). by rewrite app_nil_r in T.
Qed.

(** ** The heap under [subscribe], [unsubscribe] and [merge] *)

Lemma emit_no_subscribers n nd val s :
  nodes s !! n = Some nd -> subscribers nd = [] -> emit (Some n) val s = (Normal (Plain Undefined), s).
Proof. intros Hn Hs. unfold emit. by rewrite Hn, Hs. Qed.

Lemma subscribe_each_nodes n hs : forall nd s,
  nodes s !! n = Some nd ->
  nodes (subscribe_each n hs s) =
    <[n := push_subscribers (seq (length (nodes s)) (length hs)) nd]> (nodes s)
      ++ imap (fun i h => subscriber_node n (length (nodes s) + i) h.1 h.2) hs /\
  promises (subscribe_each n hs s) = promises s /\
  queue (subscribe_each n hs s) = queue s /\ trace (subscribe_each n hs s) = trace s.
Proof.
  unfold subscribe_each.
  induction hs as [|[f g] hs IH]; intros nd s Hn; cbn [fold_left length seq imap].
  - rewrite app_nil_r. split; [|done]. unfold push_subscribers. rewrite app_nil_r.
    rewrite list_insert_id; [done|]. rewrite Hn. by destruct nd.
  - assert (Hlt : n < length (nodes s)) by (by eapply lookup_lt_Some).
    rewrite subscribe_nodes by done. cbn [snd fst].
    set (s1 := set_nodes _ s).
    assert (Hn1 : nodes s1 !! n = Some (push_subscriber (length (nodes s)) nd)).
    { unfold s1. cbn [nodes set_nodes]. rewrite lookup_app_l by (by rewrite length_alter).
      by rewrite list_lookup_alter_eq, Hn. }
    assert (HL : length (nodes s1) = S (length (nodes s))).
    { unfold s1. cbn [nodes set_nodes]. rewrite length_app, length_alter. cbn. lia. }
    destruct (IH _ s1 Hn1) as (N & P & Q & T). rewrite N, P, Q, T, HL. split; [|done].
    unfold s1. cbn [nodes set_nodes].
    rewrite insert_app_l by (by rewrite length_alter).
    rewrite <- app_assoc. cbn [app]. f_equal.
    + replace (push_subscribers (seq (S (length (nodes s))) (length hs))
                 (push_subscriber (length (nodes s)) nd))
        with (push_subscribers (length (nodes s) :: seq (S (length (nodes s))) (length hs)) nd).
      2:{ unfold push_subscribers, push_subscriber. cbn. by rewrite <- app_assoc. }
      apply list_eq. intros i. destruct (decide (i = n)) as [->|Hne].
      * rewrite !list_lookup_insert_eq; [done|done|by rewrite length_alter].
      * rewrite !list_lookup_insert_ne by done. by rewrite list_lookup_alter_ne.
    + rewrite Nat.add_0_r. f_equal. apply imap_ext. intros i h _. cbn. do 2 f_equal; lia.
Qed.

Lemma emitting_executor_no_subscribers vals n nd s :
  nodes s !! n = Some nd -> subscribers nd = [] ->
  emitting_executor vals (BoundEmit n) s = s.
Proof.
  intros Hn Hs. unfold emitting_executor.
  induction vals as [|val vals IH]; cbn [fold_left emit_via]; [done|].
  by rewrite (emit_no_subscribers n nd val s Hn Hs).
Qed.

(** ** The forest of nodes *)

Lemma forest_init : forest [].
Proof. split; intros *; by rewrite lookup_nil. Qed.

Lemma forest_construct ns : forest ns -> forest (ns ++ [new_node]).
Proof.
  intros [H1 H2]. split.
  - intros p pn c Hp Hc. apply lookup_app_Some in Hp as [Hp|[_ Hp]].
    + destruct (H1 p pn c Hp Hc) as (cn & Hcn & Hpub). exists cn.
      split; [by apply lookup_app_l_Some|done].
    + apply list_lookup_singleton_Some in Hp as [_ <-]. by apply elem_of_nil in Hc.
  - intros c cn p Hc Hpub. apply lookup_app_Some in Hc as [Hc|[_ Hc]].
    + by apply (H2 c cn).
    + apply list_lookup_singleton_Some in Hc as [_ <-]. discriminate Hpub.
Qed.

Lemma forest_subscribe ns self f g :
  self < length ns -> forest ns ->
  forest (alter (push_subscriber (length ns)) self ns
            ++ [subscriber_node self (length ns) f g]).
Proof.
  intros Hlt [H1 H2].
  assert (Hold : forall i nd,
    (alter (push_subscriber (length ns)) self ns
       ++ [subscriber_node self (length ns) f g]) !! i = Some nd ->
    (i = length ns /\ nd = subscriber_node self (length ns) f g) \/
    exists nd0, ns !! i = Some nd0 /\ publisher nd = publisher nd0 /\
      (forall c, c ∈ subscribers nd -> c ∈ subscribers nd0 \/ (i = self /\ c = length ns))).
  { intros i nd Hi. apply lookup_app_Some in Hi as [Hi|[Hge Hi]].
    - right. destruct (decide (i = self)) as [->|Hne].
      + rewrite list_lookup_alter_eq in Hi. destruct (ns !! self) as [nd0|]; [|done].
        injection Hi as <-. exists nd0. split; [done|]. split; [done|].
        intros c Hc. cbn in Hc. apply elem_of_app in Hc as [Hc|Hc]; [by left|].
        apply list_elem_of_singleton in Hc. by right.
      + rewrite list_lookup_alter_ne in Hi by done. exists nd. naive_solver.
    - left. rewrite length_alter in *. apply list_lookup_singleton_Some in Hi as [Hi <-].
      split; [lia|done]. }
  split.
  - intros p pn c Hp Hc. destruct (Hold p pn Hp) as [[-> ->]|(nd0 & Hp0 & _ & Hsub)].
    { by apply elem_of_nil in Hc. }
    destruct (Hsub c Hc) as [Hc0|[-> ->]].
    + destruct (H1 p nd0 c Hp0 Hc0) as (cn & Hcn & Hpub).
      destruct (decide (c = self)) as [->|Hne].
      * exists (push_subscriber (length ns) cn). split; [|done].
        apply lookup_app_l_Some. by rewrite list_lookup_alter_eq, Hcn.
      * exists cn. split; [|done]. apply lookup_app_l_Some. by rewrite list_lookup_alter_ne.
    + exists (subscriber_node self (length ns) f g). split; [|done].
      apply list_lookup_middle. by rewrite length_alter.
  - intros c cn p Hc Hpub. destruct (Hold c cn Hc) as [[-> ->]|(nd0 & Hc0 & Hp0 & _)].
    + cbn in Hpub. injection Hpub as <-. done.
    + rewrite Hp0 in Hpub. by apply (H2 c nd0).
Qed.

Lemma forest_splice ns p z :
  forest ns ->
  forest (alter (fun pn => Node (splice1 (subscribers pn) (z pn))
                             (publisher pn) (_onEmit pn) (_onError pn) (_nextErr pn)
                             (made_by pn)) p ns).
Proof.
  intros [H1 H2]. set (f := fun pn : node => _).
  assert (Hold : forall i nd, alter f p ns !! i = Some nd ->
    exists nd0, ns !! i = Some nd0 /\ publisher nd = publisher nd0 /\
      (forall c, c ∈ subscribers nd -> c ∈ subscribers nd0)).
  { intros i nd Hi. destruct (decide (i = p)) as [->|Hne].
    - rewrite list_lookup_alter_eq in Hi. destruct (ns !! p) as [nd0|]; [|done].
      injection Hi as <-. exists nd0. split; [done|]. split; [done|].
      intros c Hc. cbn in Hc. eapply elem_of_sublist; [exact Hc|apply splice1_sublist].
    - rewrite list_lookup_alter_ne in Hi by done. exists nd. naive_solver. }
  assert (Hnew : forall i nd0, ns !! i = Some nd0 ->
    exists nd, alter f p ns !! i = Some nd /\ publisher nd = publisher nd0).
  { intros i nd0 Hi. destruct (decide (i = p)) as [->|Hne].
    - exists (f nd0). by rewrite list_lookup_alter_eq, Hi.
    - exists nd0. by rewrite list_lookup_alter_ne. }
  split.
  - intros q pn c Hq Hc. destruct (Hold q pn Hq) as (nd0 & Hq0 & _ & Hsub).
    destruct (H1 q nd0 c Hq0 (Hsub c Hc)) as (cn & Hcn & Hpub).
    destruct (Hnew c cn Hcn) as (cn' & Hcn' & Hpub'). exists cn'. by rewrite Hpub'.
  - intros c cn q Hc Hpub. destruct (Hold c cn Hc) as (nd0 & Hc0 & Hp0 & _).
    rewrite Hp0 in Hpub. by apply (H2 c nd0).
Qed.

Lemma forest_unsubscribe n s : forest (nodes s) -> forest (nodes (unsubscribe n s)).
Proof.
  intros H. unfold unsubscribe. destruct (nodes s !! n) as [nd|]; [|done].
  destruct (publisher nd) as [p|]; [|done].
  apply (forest_splice (nodes s) p (fun pn => indexOf (subscribers pn) n) H).
Qed.

Lemma forest_merge_executor em iter : forall s,
  Forall (fun x => x < length (nodes s)) iter -> forest (nodes s) ->
  forest (nodes (merge_executor iter em s)).
Proof.
  induction iter as [|y iter IH]; intros s Hv H; cbn [merge_executor]; [done|].
  apply Forall_cons in Hv as [Hy Hv].
  pose proof (forest_subscribe (nodes s) y (Some (FEmit em)) (Some (FMergeErr em)) Hy H) as H1.
  rewrite subscribe_nodes by done.
  apply IH; [|done]. eapply Forall_impl; [exact Hv|]. cbn.
  intros. rewrite length_app, length_alter. lia.
Qed.

Lemma exec_forest o s : forest (nodes s) -> forest (nodes (exec o s)).
Proof.
  intros H. destruct o as [|n f g|n|n val|e|l|]; cbn [exec].
  - by apply forest_construct.
  - case_decide; [|done]. rewrite subscribe_nodes by done. by apply forest_subscribe.
  - by apply forest_unsubscribe.
  - destruct (emit (Some n) val s) as [r s'] eqn:E. apply emit_ext in E as [(N & _) _].
    cbn. by rewrite N.
  - done.
  - case_decide as Hv; [|done]. unfold merge, construct, genIterator. cbn [snd].
    apply forest_merge_executor.
    + cbn. eapply Forall_impl; [exact Hv|]. cbn. intros. rewrite length_app. lia.
    + by apply forest_construct.
  - by rewrite step_nodes.
Qed.

Lemma run_ops_forest ops : forall s, forest (nodes s) -> forest (nodes (run_ops ops s)).
Proof.
  unfold run_ops. induction ops as [|o ops IH]; intros s Hs; cbn [fold_left]; [done|].
  apply IH. by apply exec_forest.
Qed.

(** ** Pending promises *)

(** [emit] of a pending promise, for one subscriber: the first stage waits
    on the promise, nothing is scheduled. *)
Lemma dispatch_pending q rs s c cn :
  nodes s !! c = Some cn -> promises s !! q = Some (Pending rs) ->
  let t := length (promises s) in
  dispatch (Fut q) s c =
    State (nodes s)
          (<[q := Pending (rs ++ [first_reaction cn c t])]> (promises s)
             ++ [Pending [second_reaction cn c t]; Pending []])
          (queue s) (trace s).
Proof.
  intros Hc Hq t. unfold dispatch. rewrite Hc. cbn [Promise_resolve].
  rewrite (then_pending q rs) by done. fold t.
  assert (Hlt : q < t) by (by eapply lookup_lt_Some).
  erewrite (then_pending t []).
  2:{ cbn [promises]. apply list_lookup_middle. by rewrite length_insert. }
  cbn [promises nodes queue trace]. f_equal.
  rewrite length_app, length_insert. cbn [length].
  rewrite insert_app_r_alt by (rewrite length_insert; lia).
  rewrite length_insert. fold t. rewrite Nat.sub_diag. cbn [insert list_insert app].
  rewrite <- app_assoc. cbn [app]. unfold second_reaction.
  by replace (t + 1) with (S t) by lia.
Qed.

Lemma fold_dispatch_pending q l : forall s rs,
  promises s !! q = Some (Pending rs) ->
  (forall c, c ∈ l -> is_Some (nodes s !! c)) ->
  exists rs',
    promises (fold_left (dispatch (Fut q)) l s) !! q = Some (Pending (rs ++ rs')) /\
    queue (fold_left (dispatch (Fut q)) l s) = queue s /\
    Forall2 (first_reaction_of s) l rs'.
Proof.
  induction l as [|c l IH]; intros s rs Hq Hl; cbn [fold_left].
  - exists []. rewrite app_nil_r. split; [done|]. split; [done|constructor].
  - destruct (Hl c) as [cn Hc]; [by left|].
    pose proof (dispatch_pending q rs s c cn Hc Hq) as HE. cbn zeta in HE.
    assert (Hlt : q < length (promises s)) by (by eapply lookup_lt_Some).
    destruct (IH (dispatch (Fut q) s c) (rs ++ [first_reaction cn c (length (promises s))]))
      as (rs' & P & Q & HF).
    + rewrite HE. cbn [promises]. apply lookup_app_l_Some. by apply list_lookup_insert_eq.
    + intros c' Hc'. rewrite HE. cbn [nodes]. apply Hl. by right.
    + exists (first_reaction cn c (length (promises s)) :: rs').
      rewrite <- app_assoc in P. split; [done|]. split.
      * rewrite Q, HE. done.
      * constructor; [by exists cn, (length (promises s))|].
        eapply Forall2_impl; [exact HF|]. intros c' r (cn' & t & Hc' & ->).
        exists cn', t. split; [|done]. by rewrite HE in Hc'.
Qed.

Lemma first_reactions_events s x l rs :
  Forall2 (first_reaction_of s) l rs ->
  flat_map job_events (map (fun r => Job r x) rs) = first_events s x l.
Proof.
  induction 1 as [|c r l rs (cn & t & Hc & ->) _ IH]; [done|].
  unfold first_events in *. cbn [map flat_map]. rewrite Hc, IH.
  by rewrite <- (job_events_first cn c t x).
Qed.

(** ** Chains of subscribers *)

(** [fold_dispatch_job_alone], with the promise of the job a new one. *)
Lemma fold_dispatch_job_new val x l c cn : forall s,
  settled_as s val = Some x ->
  (forall c', c' ∈ l -> is_Some (nodes s !! c')) ->
  c ∈ l -> nodes s !! c = Some cn ->
  targets_below s ->
  exists pre post t,
    queue (fold_left (dispatch val) l s) = pre ++ first_job cn c t x :: post /\
    clean_jobs (avoids t) pre /\ clean_jobs (avoids t) post /\
    clean_store (avoids t) (fold_left (dispatch val) l s) /\
    promises (fold_left (dispatch val) l s) !! t = Some (Pending [second_reaction cn c t]) /\
    length (promises s) <= t.
Proof.
  induction l as [|c' l IH]; intros s Hx Hl Hc Hcn Hb; cbn [fold_left].
  - by apply elem_of_nil in Hc.
  - destruct (Hl c') as [cn' Hc']; [by left|].
    pose proof (ext_dispatch val s c') as (HN & _ & _ & HL & _).
    pose proof (dispatch_exact val s c' cn' x Hc' Hx) as HE. cbn zeta in HE.
    assert (Hx' : settled_as (dispatch val s c') val = Some x).
    { eapply settled_as_app; [exact Hx|]. rewrite HE. reflexivity. }
    assert (Hl' : forall c0, c0 ∈ l -> is_Some (nodes (dispatch val s c') !! c0)).
    { intros c0 Hc0. rewrite HN. apply Hl. by right. }
    destruct (decide (c = c')) as [<-|Hne].
    + assert (cn' = cn) as -> by congruence.
      set (t := length (promises s) + length (value_cell val)) in *.
      assert (Hlk : promises (dispatch val s c) !! t = Some (Pending [second_reaction cn c t])).
      { rewrite HE. cbn [promises]. rewrite app_assoc. apply list_lookup_middle.
        by rewrite length_app. }
      assert (Hcs : clean_store (avoids t) (dispatch val s c)).
      { rewrite HE. unfold clean_store. cbn [promises]. destruct Hb as [_ HS].
        apply Forall_app. split.
        - eapply Forall_impl; [exact HS|]. intros ps Hps. cbn in Hps.
          eapply Forall_impl; [exact Hps|]. unfold avoids. cbn. intros; lia.
        - apply Forall_app. split.
          + destruct val; cbn; repeat constructor.
          + repeat constructor. unfold avoids. cbn. lia. }
      destruct (grows_fold_dispatch (avoids t) val l (dispatch val s c)) as [(js & Q & C) HS'].
      { intros c0 f g p st _ Hp. unfold avoids. cbn. apply lookup_lt_Some in Hlk. lia. }
      { exact Hcs. }
      destruct (fold_dispatch_jobs val x l (dispatch val s c) Hx' Hl') as (_ & extra & _ & HP & _).
      assert (HQd : queue (dispatch val s c) = queue s ++ [first_job cn c t x]).
      { by rewrite HE. }
      exists (queue s), js, t. rewrite Q, HQd, <- app_assoc.
      split; [done|]. split; [|split; [done|split; [done|split; [|lia]]]].
      * destruct Hb as [HQ _]. eapply Forall_impl; [exact HQ|]. unfold avoids. cbn. intros; lia.
      * rewrite HP. by apply lookup_app_l_Some.
    + apply elem_of_cons in Hc as [?|Hc]; [done|].
      destruct (IH (dispatch val s c')) as (pre & post & t & H1 & H2 & H3 & H4 & H5 & H6); auto.
      * by rewrite HN.
      * by eapply targets_below_dispatch.
      * exists pre, post, t. repeat (split; [assumption|]). lia.
Qed.

Lemma emit_at_first s n nd c cn val x :
  nodes s !! n = Some nd -> subscribers_exist s nd ->
  c ∈ subscribers nd -> nodes s !! c = Some cn ->
  targets_below s -> settled_as s val = Some x ->
  at_first (emit (Some n) val s).2 c cn x.
Proof.
  intros Hn Hex Hc Hcn Hb Hx.
  pose proof (targets_below_emit (Some n) val s Hb) as Hb'.
  rewrite (emit_fold n val s nd Hn Hex) in *. cbn [snd] in *.
  destruct (fold_dispatch_job_alone val x (subscribers nd) c cn s Hx Hex Hc Hcn Hb)
    as (pre & post & t & Q & Hpre & Hpost & Hst & Ht).
  by exists pre, post, t.
Qed.

(** From the first stage of [c] to its second stage. *)
Lemma at_first_second s c cn x y :
  at_first s c cn x -> first_result cn x = Some y ->
  exists k t q evs,
    queue (run k s) = q ++ [Job (second_reaction cn c t) y] /\
    nodes (run k s) = nodes s /\
    trace (run k s) = trace s ++ evs /\ first_event cn c x ∈ evs /\
    targets_below (run k s).
Proof.
  intros (pre & post & t & Q & Hpre & Hpost & Hst & Ht & Hb) Hy.
  destruct (run_front pre s _ Q) as (N2 & T2 & _ & L2 & F2).
  destruct (run_front_clean (avoids t) pre s _ (avoids_adopt_ok t) Q Hpre)
    as (js & Q2 & Hjs & Hst2); [|exact Hst|].
  { apply avoids_fresh_ok. eapply lookup_lt_Some. exact Ht. }
  set (s2 := run (length pre) s) in *.
  destruct (first_stage_settles s2 cn c t x y (post ++ js)) as (k & q & evs & Q3 & N3 & T3).
  - by rewrite Q2.
  - rewrite F2; [exact Ht|eapply lookup_lt_Some; exact Ht|exact Hpre].
  - by apply Forall_app.
  - exact Hy.
  - exists (length pre + k), t, q, (flat_map job_events pre ++ first_event cn c x :: evs).
    rewrite run_add. fold s2. rewrite Q3, N3, T3, N2, T2, <- app_assoc.
    split; [done|]. split; [done|]. split; [done|]. split.
    + apply elem_of_app. right. by left.
    + apply targets_below_run. by apply targets_below_run.
Qed.

(** From the second stage of [c] on a failure to the first stage of a
    subscriber [g] of [c]: [_nextErr] emits a promise rejected by the same
    reason into [c]. *)
Lemma second_at_first s q c cn t e g gn :
  queue s = q ++ [Job (second_reaction cn c t) (Rejected e)] ->
  nodes s !! c = Some cn -> _nextErr cn = Some (FNextErr c) ->
  subscribers_exist s cn -> g ∈ subscribers cn -> nodes s !! g = Some gn ->
  targets_below s ->
  exists evs,
    at_first (run (S (length q)) s) g gn (Rejected e) /\
    nodes (run (S (length q)) s) = nodes s /\
    trace (run (S (length q)) s) = trace s ++ evs /\ Called c Second (Rejected e) ∈ evs.
Proof.
  intros Q Hc Hne Hex Hg Hgn Hb.
  destruct (job_runs s q _ [] Q) as (N & T).
  exists (flat_map job_events q ++ job_events (Job (second_reaction cn c t) (Rejected e))).
  split; [|split; [done|split; [done|]]].
  2:{ apply elem_of_app. right. unfold job_events, second_reaction. cbn. rewrite Hne. by left. }
  replace (S (length q)) with (length q + 1) by lia. rewrite run_add.
  destruct (run_front q s _ Q) as (N1 & _ & [js Q1] & L1 & _).
  pose proof (targets_below_run (length q) s Hb) as Hb1.
  set (s1 := run (length q) s) in *. cbn [run app] in *.
  assert (Ht : S t < length (promises s1)).
  { destruct Hb1 as [HQ _]. rewrite Q1 in HQ. apply Forall_cons in HQ as [HQ _]. exact HQ. }
  pose proof (targets_below_step s1 Hb1) as Hb2.
  rewrite (step_cons s1 _ _ Q1) in *.
  set (s1' := log (Called c Second (Rejected e)) (set_queue js s1)).
  assert (Hb1' : targets_below s1').
  { destruct Hb1 as [HQ HS]. rewrite Q1 in HQ. apply Forall_cons in HQ as [_ HQ]. by split. }
  unfold run_job in *. cbn [job_reaction job_input second_reaction handler_for] in *.
  rewrite Hne in *. cbn [payload call Promise_reject alloc] in *. fold s1' in Hb2 |- *.
  set (s2 := set_promises (promises s1' ++ [Settled (Rejected e)]) s1') in *.
  assert (Hc2 : nodes s2 !! c = Some cn) by (unfold s2, s1'; cbn; by rewrite N1).
  assert (Hex2 : subscribers_exist s2 cn).
  { intros c' Hc'. unfold s2, s1'. cbn. rewrite N1. by apply Hex. }
  assert (Hgn2 : nodes s2 !! g = Some gn) by (unfold s2, s1'; cbn; by rewrite N1).
  assert (Hb2' : targets_below s2).
  { by apply (targets_below_alloc (Settled (Rejected e)) s1'). }
  assert (Hx2 : settled_as s2 (Fut (length (promises s1'))) = Some (Rejected e)).
  { unfold s2. cbn. by rewrite list_lookup_middle. }
  rewrite (emit_fold c _ s2 cn Hc2 Hex2) in *. cbn [resolve_with] in *.
  destruct (fold_dispatch_job_new _ _ (subscribers cn) g gn s2 Hx2 Hex2 Hg Hgn2 Hb2')
    as (pre & post & t' & Q3 & Hpre & Hpost & Hst & Ht' & HL).
  set (s3 := fold_left _ _ s2) in *.
  destruct (grows_settle (avoids t') (S t) (Fulfilled Undefined) s3 Hst) as [(js' & Q4 & Hjs') Hst'].
  destruct (ext_settle (S t) (Fulfilled Undefined) s3) as (_ & _ & _ & _ & F4).
  exists pre, (post ++ js'), t'. rewrite Q4, Q3, <- app_assoc. split; [done|].
  split; [done|]. split; [by apply Forall_app|]. split; [done|]. split; [|done].
  rewrite F4; [done|by eapply lookup_lt_Some|].
  unfold only. unfold s2, s1' in HL. cbn in HL. rewrite length_app in HL. cbn in HL. lia.
Qed.

Lemma at_first_relays ns c d :
  relays ns c d ->
  forall s cn dn e,
    nodes s = ns -> ns !! c = Some cn -> ns !! d = Some dn ->
    at_first s c cn (Rejected e) ->
    exists k evs, trace (run k s) = trace s ++ evs /\ first_event dn d (Rejected e) ∈ evs.
Proof.
  induction 1 as [d|c cn0 g d Hc0 HnoE Hne Hex Hg _ IH]; intros s cn dn e HN Hc Hd Hat.
  - assert (dn = cn) as -> by congruence.
    destruct Hat as (pre & post & t & Q & _).
    destruct (job_runs s pre _ post Q) as (_ & T).
    exists (S (length pre)). eexists. split; [exact T|].
    rewrite job_events_first, elem_of_app. right. by left.
  - assert (cn0 = cn) as -> by congruence.
    destruct (at_first_second s c cn (Rejected e) (Rejected e) Hat)
      as (k & t & q & evs & Q & N & T & _ & Hb).
    { unfold first_result. cbn. by rewrite HnoE. }
    set (s1 := run k s) in *.
    destruct (Hex g Hg) as [gn Hgn].
    destruct (second_at_first s1 q c cn t e g gn Q) as (evs2 & Hat2 & N2 & T2 & _);
      rewrite ?N, ?HN; auto.
    { intros c' Hc'. rewrite N, HN. by apply Hex. }
    set (s2 := run (S (length q)) s1) in *.
    destruct (IH s2 gn dn e) as (k3 & evs3 & T3 & Hin); auto.
    { by rewrite N2, N. }
    exists (k + (S (length q) + k3)), (evs ++ evs2 ++ evs3).
    rewrite !run_add. fold s1 s2. rewrite T3, T2, T, <- !app_assoc. split; [done|].
    rewrite !elem_of_app. auto.
Qed.

(** ** Promises that never settle *)

Section Located.
Context (X : nat -> Prop) (P : reaction -> Prop).
Context (P_outside : forall r, P r -> ~ X (target_of r)).

Lemma grows_but_refl s : clean_store_but X P s -> grows_but X P s s.
Proof.
  intros H. split; [|done]. exists []. split; [by rewrite app_nil_r|constructor].
Qed.

Lemma grows_but_trans s s' s'' :
  grows_but X P s s' -> grows_but X P s' s'' -> grows_but X P s s''.
Proof.
  intros [(j1 & Q1 & C1) _] [(j2 & Q2 & C2) H]. split; [|done].
  exists (j1 ++ j2). rewrite Q2, Q1, app_assoc. split; [done|]. by apply Forall_app.
Qed.

Lemma grows_but_store s s' : grows_but X P s s' -> clean_store_but X P s'.
Proof. by intros [_ H]. Qed.

Lemma grows_but_alloc ps s :
  Forall P (reactions ps) -> clean_store_but X P s -> grows_but X P s (alloc ps s).2.
Proof.
  intros Hps H. split.
  - exists []. cbn. split; [by rewrite app_nil_r|constructor].
  - intros p ps' Hp Hlk. cbn in Hlk. apply lookup_app_Some in Hlk as [Hlk|[_ Hlk]].
    + by apply (H p).
    + apply list_lookup_singleton_Some in Hlk as [_ <-]. done.
Qed.

Lemma grows_but_enqueue js s :
  clean_jobs P js -> clean_store_but X P s -> grows_but X P s (enqueue js s).
Proof. intros Hjs H. split; [|done]. by exists js. Qed.

Lemma grows_but_register p r s :
  P r -> clean_store_but X P s -> grows_but X P s (register p r s).
Proof.
  intros Hr H. unfold register. destruct (promises s !! p) as [[rs|x]|] eqn:E.
  - split; [exists []; cbn; split; [by rewrite app_nil_r|constructor]|].
    intros p' ps' Hp' Hlk. cbn in Hlk. destruct (decide (p' = p)) as [->|Hne].
    + rewrite list_lookup_insert_eq in Hlk by (by eapply lookup_lt_Some).
      injection Hlk as <-. cbn. apply Forall_app. split; [|by constructor].
      by apply (H p (Pending rs)).
    + rewrite list_lookup_insert_ne in Hlk by done. by apply (H p').
  - apply grows_but_enqueue; [|done]. by constructor.
  - by apply grows_but_refl.
Qed.

Lemma grows_but_settle t x s :
  ~ X t -> clean_store_but X P s -> grows_but X P s (settle t x s).
Proof.
  intros Ht H. unfold settle. destruct (promises s !! t) as [[rs|y]|] eqn:E;
    [|by apply grows_but_refl|by apply grows_but_refl].
  split.
  - eexists. split; [reflexivity|].
    assert (Hrs : Forall P rs) by (by apply (H t (Pending rs))).
    clear -Hrs. induction Hrs; constructor; auto.
  - intros p' ps' Hp' Hlk. cbn in Hlk. destruct (decide (p' = t)) as [->|Hne].
    + rewrite list_lookup_insert_eq in Hlk by (by eapply lookup_lt_Some).
      injection Hlk as <-. constructor.
    + rewrite list_lookup_insert_ne in Hlk by done. by apply (H p').
Qed.

Lemma grows_but_resolve_with t v s :
  P (Adopt t) -> clean_store_but X P s -> grows_but X P s (resolve_with t v s).
Proof.
  intros Ht H. destruct v; cbn.
  - apply grows_but_settle; [|done]. by apply (P_outside (Adopt t)).
  - by apply grows_but_register.
Qed.

Lemma grows_but_then p f g w st s :
  P (React f g (length (promises s)) w st) -> clean_store_but X P s ->
  grows_but X P s (then_ p f g w st s).2.
Proof.
  intros Hr H. unfold then_. cbn [alloc snd].
  eapply grows_but_trans; [apply (grows_but_alloc (Pending []) s); [constructor|done]|].
  apply grows_but_register; [done|].
  by apply (grows_but_alloc (Pending []) s); [constructor|].
Qed.

Lemma grows_but_dispatch val s c :
  (forall f g p st, length (promises s) <= p -> P (React f g p c st)) ->
  clean_store_but X P s -> grows_but X P s (dispatch val s c).
Proof.
  intros Hc H. unfold dispatch. destruct (nodes s !! c) as [sn|]; [|by apply grows_but_refl].
  assert (H0 : grows_but X P s (Promise_resolve val s).2).
  { destruct val; cbn [Promise_resolve]; [|by apply grows_but_refl].
    by apply (grows_but_alloc (Settled _) s); [constructor|]. }
  destruct (Promise_resolve val s) as [p0 s0] eqn:E0. cbn [snd] in H0.
  apply ext_Promise_resolve in E0 as [(_ & _ & _ & L0 & _) _].
  assert (H1 : grows_but X P s0 (then_ p0 (_onEmit sn) (_onError sn) c First s0).2).
  { apply grows_but_then; [apply Hc; lia|by apply grows_but_store in H0]. }
  destruct (then_ p0 _ _ c First s0) as [p1 s1] eqn:E1. cbn [snd] in H1.
  apply ext_then in E1 as [(_ & _ & _ & L1 & _) _].
  assert (H2 : grows_but X P s1
                 (then_ p1 (Some (FEmit DetachedEmit)) (_nextErr sn) c Second s1).2).
  { apply grows_but_then; [apply Hc; lia|by apply grows_but_store in H1]. }
  destruct (then_ p1 _ _ c Second s1) as [p2 s2] eqn:E2. cbn [snd] in H2.
  eapply grows_but_trans; [exact H0|]. eapply grows_but_trans; [exact H1|exact H2].
Qed.

Lemma grows_but_emit_loop k : forall n i val s,
  fresh_ok P (nodes s) (length (promises s)) -> clean_store_but X P s ->
  grows_but X P s (emit_loop k n i val s).2.
Proof.
  induction k as [|k IH]; intros n i val s Hf H; cbn [emit_loop]; [by apply grows_but_refl|].
  destruct (nodes s !! n) as [nd|] eqn:Hn; [|by apply grows_but_refl].
  destruct (subscribers nd !! i) as [c|] eqn:Hc; [|by apply grows_but_refl].
  destruct (nodes s !! c) as [cn|] eqn:Hcn; [|by apply grows_but_refl].
  assert (Hin : c ∈ all_subscribers (nodes s)).
  { unfold all_subscribers. apply list_elem_of_In, in_flat_map.
    exists nd. split; apply list_elem_of_In; by eapply list_elem_of_lookup_2. }
  assert (Hd : grows_but X P s (dispatch val s c)).
  { apply grows_but_dispatch; [|done]. intros f g p st Hp. by apply Hf. }
  pose proof (ext_dispatch val s c) as (HN & _ & _ & HL & _).
  unfold dispatch in Hd, HN, HL. rewrite Hcn in Hd, HN, HL.
  destruct (Promise_resolve val s) as [p0 s0].
  destruct (then_ p0 _ _ c First s0) as [p1 s1].
  destruct (then_ p1 _ _ c Second s1) as [p2 s2].
  eapply grows_but_trans; [exact Hd|]. apply IH; [|by apply grows_but_store in Hd].
  rewrite HN. by eapply fresh_ok_mono.
Qed.

Lemma grows_but_emit this val s :
  fresh_ok P (nodes s) (length (promises s)) -> clean_store_but X P s ->
  grows_but X P s (emit this val s).2.
Proof.
  intros Hf H. unfold emit. destruct this as [n|]; [|by apply grows_but_refl].
  destruct (nodes s !! n); [|by apply grows_but_refl]. by apply grows_but_emit_loop.
Qed.

Lemma grows_but_emit_via e val s :
  fresh_ok P (nodes s) (length (promises s)) -> clean_store_but X P s ->
  grows_but X P s (emit_via e val s).2.
Proof. destruct e; apply grows_but_emit. Qed.

Lemma grows_but_reject_then (em : jsval -> state -> completion * state) reason s :
  (forall val s, fresh_ok P (nodes s) (length (promises s)) -> clean_store_but X P s ->
                 grows_but X P s (em val s).2) ->
  fresh_ok P (nodes s) (length (promises s)) -> clean_store_but X P s ->
  grows_but X P s (let '(q, s) := Promise_reject reason s in em (Fut q) s).2.
Proof.
  intros Hem Hf H.
  pose proof (grows_but_alloc (Settled (Rejected reason)) s (Forall_nil_2 _) H) as H0.
  unfold Promise_reject. cbn [alloc] in *. cbn [snd] in H0.
  eapply grows_but_trans; [exact H0|]. apply Hem; [|by apply grows_but_store in H0].
  cbn. eapply fresh_ok_mono; [|exact Hf]. rewrite length_app. lia.
Qed.

Lemma grows_but_call f arg s :
  fresh_ok P (nodes s) (length (promises s)) -> clean_store_but X P s ->
  grows_but X P s (call f arg s).2.
Proof.
  intros Hf H. destruct f as [g|e|n|e]; cbn [call].
  - destruct (g arg) as [v|e|[x|]]; try by apply grows_but_refl.
    + by apply (grows_but_alloc (Settled x) s); [constructor|].
    + by apply (grows_but_alloc (Pending []) s); [constructor|].
  - by apply grows_but_emit_via.
  - apply (grows_but_reject_then (emit (Some n))); [|done|done].
    intros. by apply grows_but_emit.
  - apply (grows_but_reject_then (emit_via e)); [|done|done].
    intros. by apply grows_but_emit_via.
Qed.

Lemma grows_but_run_job j s :
  adopt_ok P -> P (job_reaction j) ->
  fresh_ok P (nodes s) (length (promises s)) -> clean_store_but X P s ->
  grows_but X P s (run_job j s).
Proof.
  intros Ha Hj Hf H. unfold run_job. pose proof (Ha _ Hj) as Hadopt.
  pose proof (P_outside _ Hj) as Hout.
  destruct (job_reaction j) as [onF onR t w st|t]; cbn [target_of] in Hadopt, Hout.
  - destruct (handler_for _ _ _) as [f|].
    + pose proof (grows_but_call f (payload (job_input j))
                    (log (Called w st (job_input j)) s) Hf H) as Hc.
      destruct (call f _ _) as [[v|e] s1]; cbn [snd] in Hc.
      * apply (grows_but_trans _ _ _ Hc). apply grows_but_resolve_with; [done|].
        by apply grows_but_store in Hc.
      * apply (grows_but_trans _ _ _ Hc). apply grows_but_settle; [done|].
        by apply grows_but_store in Hc.
    + by apply (grows_but_settle t _ (log _ s)).
  - by apply grows_but_settle.
Qed.

End Located.

Lemma untouched_outside t q r : untouched t q r -> ~ only q (target_of r).
Proof. by intros [_ H]. Qed.

Lemma untouched_adopt_ok t q : adopt_ok (untouched t q).
Proof. by intros r Hr. Qed.

Lemma untouched_fresh_ok t q ns L : t < L -> q < L -> fresh_ok (untouched t q) ns L.
Proof. intros Ht Hq c f g p st _ Hp. unfold untouched. cbn. lia. Qed.

Lemma blocked_step t q s :
  blocked t q s ->
  blocked t q (step s) /\
  promises (step s) !! t = promises s !! t /\ promises (step s) !! q = promises s !! q.
Proof.
  intros (Ht & Hq & HJ & HS). unfold step. destruct (queue s) as [|j rest] eqn:E.
  { split; [|done]. unfold blocked. by rewrite E. }
  apply Forall_cons in HJ as [Hj HJ].
  destruct (grows_but_run_job (only q) (untouched t q) (untouched_outside t q) j
              (set_queue rest s) (untouched_adopt_ok t q) Hj) as [(js & Q & C) HS']; [|done|].
  { by apply untouched_fresh_ok. }
  destruct (run_job_ext j (set_queue rest s)) as (_ & _ & _ & L & F).
  cbn [set_queue promises queue] in *. destruct Hj as [Hjt Hjq].
  split; [|split].
  - split; [lia|]. split; [lia|]. split; [|done]. rewrite Q. by apply Forall_app.
  - apply F; [done|]. unfold only, job_target. congruence.
  - apply F; [done|]. unfold only, job_target. congruence.
Qed.

Lemma blocked_run t q k : forall s,
  blocked t q s ->
  promises (run k s) !! t = promises s !! t /\ promises (run k s) !! q = promises s !! q.
Proof.
  induction k as [|k IH]; intros s H; cbn [run]; [done|].
  destruct (blocked_step t q s H) as (H' & Et & Eq).
  destruct (IH (step s) H') as [E1 E2]. by rewrite E1, E2.
Qed.

Lemma run_front_frame pre : forall s rest t k,
  queue s = pre ++ rest -> clean_jobs (avoids t) pre -> t < length (promises s) ->
  k <= length pre ->
  promises (run k s) !! t = promises s !! t.
Proof.
  intros s rest t k Q Hpre Ht Hk.
  destruct (run_front (take k pre) s (drop k pre ++ rest)) as (_ & _ & _ & _ & F).
  { by rewrite app_assoc, take_drop. }
  rewrite length_take_le in F by done. apply F; [done|].
  eapply Forall_impl; [by apply Forall_take|]. done.
Qed.

Lemma first_stage_stalls s cn c t x f rest :
  queue s = first_job cn c t x :: rest ->
  handler_for x (_onEmit cn) (_onError cn) = Some (FUser f) ->
  f (payload x) = ReturnPromise None ->
  step s =
    State (nodes s)
          (<[length (promises s) := Pending [Adopt t]]> (promises s ++ [Pending []]))
          rest (trace s ++ [Called c First x]).
Proof.
  intros Q Hh Hf. rewrite (step_cons s _ _ Q). unfold run_job, first_job.
  cbn [job_reaction job_input]. rewrite Hh. cbn [call]. rewrite Hf.
  cbn [alloc resolve_with]. unfold register.
  cbn [log set_queue set_promises promises nodes queue trace].
  by rewrite list_lookup_middle.
Qed.

Lemma stalled_is_blocked s cn c t x f rest :
  queue s = first_job cn c t x :: rest ->
  handler_for x (_onEmit cn) (_onError cn) = Some (FUser f) ->
  f (payload x) = ReturnPromise None ->
  promises s !! t = Some (Pending [second_reaction cn c t]) ->
  clean_jobs (avoids t) rest -> clean_store (avoids t) s -> targets_below s ->
  blocked t (length (promises s)) (step s) /\
  promises (step s) !! t = Some (Pending [second_reaction cn c t]).
Proof.
  intros Q Hh Hf Ht Hrest Hst [HQ HS]. rewrite (first_stage_stalls s cn c t x f rest Q Hh Hf).
  assert (Hlt : t < length (promises s)) by (by eapply lookup_lt_Some).
  rewrite Q in HQ. apply Forall_cons in HQ as [_ HQ].
  split.
  - unfold blocked. cbn [promises queue]. rewrite length_insert, length_app. cbn [length].
    split; [lia|]. split; [lia|]. split.
    + unfold clean_jobs in *. rewrite Forall_forall in *. intros j Hj.
      split; [by apply Hrest|]. specialize (HQ j Hj). cbn in HQ. lia.
    + intros p ps Hp Hlk. unfold only in Hp. cbn [promises] in Hlk.
      rewrite list_lookup_insert_ne in Hlk by done.
      apply lookup_app_Some in Hlk as [Hlk|[Hge Hlk]].
      * unfold clean_store in *. rewrite Forall_forall in HS, Hst.
        apply list_elem_of_lookup_2 in Hlk.
        specialize (HS ps Hlk). specialize (Hst ps Hlk). cbn in HS.
        rewrite Forall_forall in *. intros r Hr. split; [by apply Hst|].
        specialize (HS r Hr). cbn in HS. lia.
      * apply list_lookup_singleton_Some in Hlk as [Hlk _]. lia.
  - cbn [promises]. rewrite list_lookup_insert_ne by lia. by apply lookup_app_l_Some.
Qed.

(** ** The second stage on a value *)

(** The step of a second stage on a fulfilled value: the detached [emit]
    raises a TypeError, which settles the promise of the stage. *)
Lemma detached_second_stage s onR t c w rest :
  queue s = Job (React (Some (FEmit DetachedEmit)) onR t c Second) (Fulfilled w) :: rest ->
  step s = settle t (Rejected TypeError)
             (log (Called c Second (Fulfilled w)) (set_queue rest s)).
Proof. intros Q. by rewrite (step_cons s _ _ Q). Qed.

Lemma settle_jobs t x s :
  nodes (settle t x s) = nodes s /\ trace (settle t x s) = trace s /\
  exists rs, queue (settle t x s) = queue s ++ map (fun r => Job r x) rs.
Proof.
  unfold settle. destruct (promises s !! t) as [[rs|y]|].
  - split; [done|]. split; [done|]. by exists rs.
  - split; [done|]. split; [done|]. exists []. by rewrite app_nil_r.
  - split; [done|]. split; [done|]. exists []. by rewrite app_nil_r.
Qed.

(** ** Transforms in order *)

Lemma listed_once {A} (c : nat) (L : list A) l :
  NoDup l -> c ∈ l -> flat_map (fun c' => if decide (c' = c) then L else []) l = L.
Proof.
  induction 1 as [|y l Hy Hnd IH]; intros Hin; [by apply elem_of_nil in Hin|].
  cbn [flat_map]. destruct (decide (y = c)) as [->|Hne].
  - assert (E : flat_map (fun c' => if decide (c' = c) then L else []) l = []).
    { clear -Hy. induction l as [|z l IH]; [done|].
      apply not_elem_of_cons in Hy as [Hz Hy]. cbn.
      rewrite decide_False by done. by apply IH. }
    by rewrite E, app_nil_r.
  - apply elem_of_cons in Hin as [?|Hin]; [done|]. cbn. by apply IH.
Qed.

Lemma handed_on_appends_user c a v f :
  fs_who a = c -> fs_input a = Fulfilled v -> _onEmit (fs_node a) = Some (FUser f) ->
  handed_on c (flat_map job_events (appends a)) = handed_by (f v).
Proof.
  destruct a as [cn c' t x]. unfold appends, job_events. cbn. intros -> -> Hh.
  rewrite Hh. cbn. destruct (f v) as [w|e|[z|]]; cbn; try done.
  - by rewrite decide_True.
  - by destruct (_nextErr cn).
Qed.

Lemma scheduled_events_user s c cn v f l Jv :
  Forall2 (scheduled s (Fulfilled v)) l Jv ->
  nodes s !! c = Some cn -> _onEmit cn = Some (FUser f) ->
  handed_on c (flat_map job_events (flat_map appends Jv)) =
    flat_map (fun c' => if decide (c' = c) then handed_by (f v) else []) l.
Proof.
  intros HF Hc Hf. induction HF as [|c' a l Jv (H1 & H2 & H3) _ IH]; [done|].
  cbn [flat_map]. rewrite !flat_map_app, handed_on_app, IH. f_equal.
  destruct (decide (c' = c)) as [->|Hne].
  - apply handed_on_appends_user; [done|done|].
    by assert (fs_node a = cn) as -> by congruence.
  - apply handed_on_appends_other. congruence.
Qed.

Lemma emitted_events_user s c cn f nd vs J :
  Forall2 (fun v Jv => Forall2 (scheduled s (Fulfilled v)) (subscribers nd) Jv) vs J ->
  nodes s !! c = Some cn -> _onEmit cn = Some (FUser f) ->
  NoDup (subscribers nd) -> c ∈ subscribers nd ->
  handed_on c (flat_map job_events (flat_map appends (concat J))) =
    flat_map (fun v => handed_by (f v)) vs.
Proof.
  intros HF Hc Hf Hnd Hin. induction HF as [|v Jv vs J HJ _ IH]; [done|].
  cbn [concat flat_map]. rewrite !flat_map_app, handed_on_app, IH.
  by rewrite (scheduled_events_user s c cn v f _ Jv HJ Hc Hf), listed_once.
Qed.

Lemma appends_length J : length (flat_map appends J) <= length J.
Proof.
  induction J as [|a J IH]; [done|]. cbn [flat_map length]. rewrite length_app.
  assert (length (appends a) <= 1); [|lia].
  unfold appends. destruct (handler_for _ _ _) as [[f|e|m|e]|]; cbn; try lia.
  destruct (f _) as [w|e|[z|]]; cbn; lia.
Qed.

Lemma ready_target s j js : ready s j js -> job_target j < length (promises s).
Proof. destruct 1; unfold job_target; cbn; by eapply lookup_lt_Some. Qed.

Lemma ready_frame s s' j js :
  ready s j js -> nodes s' = nodes s ->
  promises s' !! job_target j = promises s !! job_target j ->
  ready s' j js.
Proof.
  destruct 1 as [onR t c w Ht|t c cn e Ht Hc Hl|t z r Ht]; unfold job_target; cbn;
    intros N E.
  - apply ready_value. by rewrite E.
  - apply (ready_failure s' t c cn); [by rewrite E|by rewrite N|done].
  - apply ready_adopt. by rewrite E.
Qed.

Lemma ready_step s j js q :
  queue s = j :: q -> ready s j js -> queue (step s) = q ++ js.
Proof.
  intros Q H. rewrite (step_cons s j q Q).
  destruct H as [onR t c w Ht|t c cn e Ht Hc Hl|t z r Ht]; unfold run_job;
    cbn [job_reaction job_input handler_for payload].
  - cbn [call emit_via emit]. unfold settle. cbn [log set_queue promises]. rewrite Ht.
    cbn. by rewrite app_nil_r.
  - cbn [call Promise_reject alloc]. unfold emit.
    cbn [log set_queue set_promises nodes]. rewrite Hc, Hl. cbn [length emit_loop].
    cbn [resolve_with]. unfold settle. cbn [set_promises promises].
    rewrite (lookup_app_l_Some _ _ _ _ Ht). cbn. by rewrite app_nil_r.
  - unfold settle. cbn [set_queue promises]. rewrite Ht. done.
Qed.

Lemma Forall2_impl_elem {A B} (P Q : A -> B -> Prop) l k :
  Forall2 P l k -> (forall x y, x ∈ l -> P x y -> Q x y) -> Forall2 Q l k.
Proof.
  induction 1 as [|x y l k Hxy _ IH]; intros H; constructor.
  - apply H; [by left|done].
  - apply IH. intros x' y' Hx'. apply H. by right.
Qed.

(** Ready jobs at the front of the queue, with targets of their own: when
    they have run, the queue has gained what each of them appends, and the
    promises that are not their targets are as they were. *)
Lemma ready_jobs_run A : forall s rest App,
  queue s = A ++ rest -> NoDup (map job_target A) -> Forall2 (ready s) A App ->
  queue (run (length A) s) = rest ++ concat App /\
  nodes (run (length A) s) = nodes s /\
  length (promises s) <= length (promises (run (length A) s)) /\
  forall p, p < length (promises s) -> p ∉ map job_target A ->
            promises (run (length A) s) !! p = promises s !! p.
Proof.
  induction A as [|j A IH]; intros s rest App Q Hnd HR; cbn [length run].
  - apply Forall2_nil_inv_l in HR as ->. cbn. by rewrite app_nil_r.
  - apply Forall2_cons_inv_l in HR as (js & App' & Hj & HR & ->).
    cbn [map] in Hnd. apply NoDup_cons in Hnd as [Hj' Hnd]. cbn [app] in Q.
    pose proof (ready_step s j js _ Q Hj) as Q1.
    pose proof (ready_target s j js Hj) as Hlt.
    pose proof (step_nodes s) as N1.
    assert (F1 : length (promises s) <= length (promises (step s)) /\
                 forall p, p < length (promises s) -> p <> job_target j ->
                           promises (step s) !! p = promises s !! p).
    { rewrite (step_cons s j _ Q).
      destruct (run_job_ext j (set_queue (A ++ rest) s)) as (_ & _ & _ & L & F).
      split; [exact L|]. intros p Hp Hne. by apply F. }
    destruct F1 as [L1 F1].
    destruct (IH (step s) (rest ++ js) App') as (Q2 & N2 & L2 & F2).
    + by rewrite Q1, app_assoc.
    + done.
    + apply (Forall2_impl_elem (ready s)); [done|]. intros j' js' Hin Hr.
      apply (ready_frame s); [done|done|]. apply F1; [by eapply ready_target|].
      intros E. apply Hj'. rewrite <- E. apply list_elem_of_fmap. by exists j'.
    + cbn [concat]. rewrite Q2, N2, N1, app_assoc. split; [done|]. split; [done|].
      split; [lia|]. intros p Hp Hnot. cbn [map] in Hnot.
      apply not_elem_of_cons in Hnot as [Hne Hnot]. rewrite F2; [by apply F1|lia|done].
Qed.

Lemma spare_app s s' extra t : promises s' = promises s ++ extra -> spare s t -> spare s' t.
Proof. unfold spare. intros -> H. by apply lookup_app_l_Some. Qed.

(** The second-stage promises of the jobs [emit] schedules are spare. *)
Lemma fold_dispatch_spare val x l : forall s,
  settled_as s val = Some x ->
  (forall c, c ∈ l -> is_Some (nodes s !! c)) ->
  exists js extra,
    queue (fold_left (dispatch val) l s) = queue s ++ js /\
    promises (fold_left (dispatch val) l s) = promises s ++ extra /\
    Forall (fun j => spare (fold_left (dispatch val) l s) (job_target j)) js.
Proof.
  induction l as [|c l IH]; intros s Hx Hl; cbn [fold_left].
  - exists [], []. rewrite !app_nil_r. split; [done|]. split; [done|constructor].
  - destruct (Hl c) as [cn Hc]; [by left|].
    pose proof (dispatch_exact val s c cn x Hc Hx) as HE. cbn zeta in HE.
    set (t := length (promises s) + length (value_cell val)) in *.
    pose proof (ext_dispatch val s c) as (HN & _).
    destruct (IH (dispatch val s c)) as (js & extra & Q & HP & HS).
    { eapply settled_as_app; [exact Hx|]. rewrite HE. reflexivity. }
    { intros c' Hc'. rewrite HN. apply Hl. by right. }
    assert (HPd : promises (dispatch val s c) =
              promises s ++ value_cell val ++ [Pending [second_reaction cn c t]; Pending []]).
    { by rewrite HE. }
    assert (HQd : queue (dispatch val s c) = queue s ++ [first_job cn c t x]).
    { by rewrite HE. }
    exists (first_job cn c t x :: js),
           ((value_cell val ++ [Pending [second_reaction cn c t]; Pending []]) ++ extra).
    rewrite Q, HQd, HP, HPd, <- !app_assoc. split; [done|]. split; [done|].
    constructor; [|exact HS].
    unfold spare, job_target, first_job. cbn [job_reaction target_of].
    rewrite HP, HPd. apply lookup_app_l_Some.
    change [Pending [second_reaction cn c t]; Pending []]
      with ([Pending [second_reaction cn c t]] ++ [Pending []]).
    rewrite !app_assoc. apply list_lookup_middle.
    rewrite !length_app. cbn [length]. unfold t. lia.
Qed.

Lemma emit_all_spare n nd vs : forall s,
  nodes s !! n = Some nd -> subscribers_exist s nd ->
  exists js extra,
    queue (emit_all n vs s) = queue s ++ js /\
    promises (emit_all n vs s) = promises s ++ extra /\
    Forall (fun j => spare (emit_all n vs s) (job_target j)) js.
Proof.
  induction vs as [|v vs IH]; intros s Hn Hex; cbn [emit_all].
  - exists [], []. rewrite !app_nil_r. split; [done|]. split; [done|constructor].
  - rewrite (emit_fold n (Plain v) s nd Hn Hex). cbn [snd].
    destruct (fold_dispatch_spare (Plain v) (Fulfilled v) (subscribers nd) s)
      as (js1 & extra1 & Q1 & P1 & S1); [done|done|].
    destruct (ext_fold_dispatch (Plain v) (subscribers nd) s) as (N1 & _).
    set (s1 := fold_left (dispatch (Plain v)) (subscribers nd) s) in *.
    destruct (IH s1) as (js & extra & Q & HP & HS).
    { by rewrite N1. }
    { intros c Hc. rewrite N1. by apply Hex. }
    exists (js1 ++ js), (extra1 ++ extra). rewrite Q, Q1, HP, P1, <- !app_assoc.
    split; [done|]. split; [done|]. apply Forall_app. split; [|exact HS].
    eapply Forall_impl; [exact S1|]. intros j Hj. eapply spare_app; [|exact Hj].
    by rewrite HP.
Qed.

Lemma first_job_step_adopting s a q :
  queue s = job_of a :: q -> armed s a -> adopting a -> armed (step s) a.
Proof.
  destruct a as [cn c t x]. unfold job_of, armed, adopting, appends.
  cbn [fs_node fs_who fs_target fs_input]. intros Hq Ht [z Hz].
  rewrite (step_cons s _ _ Hq). unfold run_job, first_job. cbn [job_reaction job_input].
  destruct (handler_for x (_onEmit cn) (_onError cn)) as [[f|e|n|e]|]; try done.
  cbn [call]. destruct (f (payload x)) as [v|e|[y|]]; try done.
  cbn [alloc resolve_with]. unfold register.
  cbn [log set_queue set_promises promises nodes queue trace].
  rewrite list_lookup_middle by done. cbn [enqueue set_queue promises].
  by apply lookup_app_l_Some.
Qed.

(** [first_jobs_run], with what it leaves in the store: the promises that
    are no target of the jobs are as they were, and the promise of a first
    stage that returned a settled promise still has the second stage
    waiting. *)
Lemma first_jobs_run_store J : forall s rest,
  queue s = map job_of J ++ rest ->
  NoDup (map fs_target J) ->
  Forall (armed s) J ->
  Forall (fun a => user_or_absent
            (handler_for (fs_input a) (_onEmit (fs_node a)) (_onError (fs_node a)))) J ->
  length (promises s) <= length (promises (run (length J) s)) /\
  (forall p, p < length (promises s) -> p ∉ map fs_target J ->
             promises (run (length J) s) !! p = promises s !! p) /\
  Forall (fun a => adopting a -> armed (run (length J) s) a) J.
Proof.
  induction J as [|a J IH]; intros s rest Hq Hnd Harm Hu; cbn [length run map].
  - split; [done|]. split; [done|constructor].
  - cbn [map app] in Hq. apply NoDup_cons in Hnd as [Ha Hnd].
    apply Forall_cons in Harm as [Harm_a Harm]. apply Forall_cons in Hu as [Hu_a Hu].
    destruct (first_job_step s a _ Hq Harm_a Hu_a) as (Q & N & T & L & F).
    assert (Harm' : Forall (armed (step s)) J).
    { rewrite Forall_forall in *. intros b Hb. unfold armed. rewrite F.
      - by apply Harm.
      - eapply lookup_lt_Some. by apply Harm.
      - intros E. apply Ha. rewrite <- E. apply list_elem_of_fmap. by exists b. }
    destruct (IH (step s) (rest ++ appends a)) as (L' & F' & A'); auto.
    { by rewrite Q, app_assoc. }
    split; [lia|]. split.
    + intros p Hp Hnot. apply not_elem_of_cons in Hnot as [Hne Hnot].
      rewrite F'; [by apply F|lia|done].
    + constructor; [|done]. intros Had.
      pose proof (first_job_step_adopting s a _ Hq Harm_a Had) as H1.
      unfold armed in *. rewrite F'; [done|by eapply lookup_lt_Some|done].
Qed.

Lemma appends_cases a :
  appends a = [] \/
  (exists y, appends a = [Job (second_reaction (fs_node a) (fs_who a) (fs_target a)) y] /\
             adopted a = []) \/
  (exists z, appends a = [Job (Adopt (fs_target a)) z] /\
             adopted a = [Job (second_reaction (fs_node a) (fs_who a) (fs_target a)) z]).
Proof.
  unfold appends, adopted.
  destruct (handler_for _ _ _) as [[f|e|m|e]|]; eauto.
  destruct (f _) as [w|e|[z|]]; eauto.
Qed.

Lemma appends_empty_adopted a : appends a = [] -> adopted a = [].
Proof.
  unfold appends, adopted.
  destruct (handler_for _ _ _) as [[f|e|m|e]|]; try done.
  by destruct (f _) as [w|e|[z|]].
Qed.

Lemma second_job_ready s a y :
  spare s (fs_target a) -> nodes s !! fs_who a = Some (fs_node a) ->
  subscribers (fs_node a) = [] -> _nextErr (fs_node a) = Some (FNextErr (fs_who a)) ->
  ready s (Job (second_reaction (fs_node a) (fs_who a) (fs_target a)) y) [].
Proof.
  intros Hs Hn Hl He. unfold second_reaction. rewrite He. destruct y as [w|e].
  - by apply ready_value.
  - by apply (ready_failure s _ _ (fs_node a)).
Qed.

Lemma appends_ready s J :
  Forall (set_up s) J ->
  exists App, Forall2 (ready s) (flat_map appends J) App /\ concat App = flat_map adopted J.
Proof.
  induction 1 as [|a J (Hs & Ha & Hn & Hl & He) _ (App & HR & HC)].
  - exists []. split; [constructor|done].
  - cbn [flat_map]. destruct (appends_cases a) as [E|[(y & E & E')|(z & E & E')]];
      rewrite E.
    + exists App. by rewrite (appends_empty_adopted a E).
    + exists ([] :: App). rewrite E'. split; [|done].
      constructor; [|done]. by apply second_job_ready.
    + exists ([Job (second_reaction (fs_node a) (fs_who a) (fs_target a)) z] :: App).
      rewrite E'. cbn [concat app]. rewrite HC. split; [|done].
      constructor; [|done]. apply ready_adopt. apply Ha. by exists z.
Qed.

Lemma adopted_ready s J :
  Forall (fun a => adopting a ->
            spare s (fs_target a) /\ nodes s !! fs_who a = Some (fs_node a) /\
            subscribers (fs_node a) = [] /\
            _nextErr (fs_node a) = Some (FNextErr (fs_who a))) J ->
  exists App, Forall2 (ready s) (flat_map adopted J) App /\ concat App = [].
Proof.
  induction 1 as [|a J Ha _ (App & HR & HC)].
  - exists []. split; [constructor|done].
  - cbn [flat_map]. destruct (appends_cases a) as [E|[(y & E & E')|(z & E & E')]].
    + exists App. by rewrite (appends_empty_adopted a E).
    + exists App. by rewrite E'.
    + exists ([] :: App). rewrite E'. split; [|done].
      destruct Ha as (Hs & Hn & Hl & He); [by exists z|].
      constructor; [|done]. by apply second_job_ready.
Qed.

Lemma NoDup_map_eq {A B} (f : A -> B) l a b :
  NoDup (map f l) -> a ∈ l -> b ∈ l -> f a = f b -> a = b.
Proof.
  induction l as [|x l IH]; intros Hnd Ha Hb E; [by apply elem_of_nil in Ha|].
  cbn [map] in Hnd. apply NoDup_cons in Hnd as [Hx Hnd].
  apply elem_of_cons in Ha as [->|Ha]; apply elem_of_cons in Hb as [->|Hb]; auto.
  - exfalso. apply Hx. rewrite E. apply list_elem_of_fmap. by exists b.
  - exfalso. apply Hx. rewrite <- E. apply list_elem_of_fmap. by exists a.
Qed.

(** The targets of the jobs the first stages append: the promise of the
    first stage for an adoption, the promise that follows it otherwise. *)
Lemma appends_target J u :
  u ∈ map job_target (flat_map appends J) ->
  exists a, a ∈ J /\ ((adopting a /\ u = fs_target a) \/
                      (adopted a = [] /\ u = S (fs_target a))).
Proof.
  intros Hu. apply list_elem_of_fmap in Hu as (j & -> & Hj).
  apply list_elem_of_In, in_flat_map in Hj as (a & Ha & Hj).
  apply list_elem_of_In in Ha, Hj. exists a. split; [done|].
  destruct (appends_cases a) as [E|[(y & E & E')|(z & E & E')]]; rewrite E in Hj.
  - by apply elem_of_nil in Hj.
  - apply list_elem_of_singleton in Hj as ->. right. by split.
  - apply list_elem_of_singleton in Hj as ->. left. split; [by exists z|done].
Qed.

Lemma adopted_target J u :
  u ∈ map job_target (flat_map adopted J) ->
  exists a, a ∈ J /\ adopting a /\ u = S (fs_target a).
Proof.
  intros Hu. apply list_elem_of_fmap in Hu as (j & -> & Hj).
  apply list_elem_of_In, in_flat_map in Hj as (a & Ha & Hj).
  apply list_elem_of_In in Ha, Hj. exists a. split; [done|].
  destruct (appends_cases a) as [E|[(y & E & E')|(z & E & E')]].
  - rewrite (appends_empty_adopted a E) in Hj. by apply elem_of_nil in Hj.
  - rewrite E' in Hj. by apply elem_of_nil in Hj.
  - rewrite E' in Hj. apply list_elem_of_singleton in Hj as ->. split; [by exists z|done].
Qed.

Lemma adopting_adopted a : adopting a -> adopted a <> [].
Proof.
  intros [z Hz]. destruct (appends_cases a) as [E|[(y & E & E')|(z' & E & E')]];
    rewrite E in Hz.
  - discriminate Hz.
  - unfold second_reaction in Hz. discriminate Hz.
  - by rewrite E'.
Qed.

Lemma appends_NoDup J :
  NoDup (map fs_target J) ->
  (forall a b, a ∈ J -> b ∈ J -> fs_target a <> S (fs_target b)) ->
  NoDup (map job_target (flat_map appends J)).
Proof.
  induction J as [|a J IH]; intros Hnd Hap; [constructor|].
  cbn [map] in Hnd. apply NoDup_cons in Hnd as [Hat Hnd].
  assert (HIH : NoDup (map job_target (flat_map appends J))).
  { apply IH; [done|]. intros b1 b2 H1 H2. apply Hap; by right. }
  assert (Hfresh : forall u, (u = fs_target a \/ u = S (fs_target a)) ->
                             u ∉ map job_target (flat_map appends J)).
  { intros u Hu Hin. apply appends_target in Hin as (b & Hb & Hcase).
    assert (fs_target a <> fs_target b).
    { intros E. apply Hat. rewrite E. apply list_elem_of_fmap. by exists b. }
    assert (Ha' : a ∈ a :: J) by (by left). assert (Hb' : b ∈ a :: J) by (by right).
    pose proof (Hap a b Ha' Hb'). pose proof (Hap b a Hb' Ha').
    destruct Hu as [-> | ->]; destruct Hcase as [[_ E]|[_ E]]; lia. }
  cbn [flat_map]. rewrite map_app.
  destruct (appends_cases a) as [E|[(y & E & _)|(z & E & _)]]; rewrite E; cbn [map app].
  - done.
  - apply NoDup_cons. split; [|done]. apply Hfresh. by right.
  - apply NoDup_cons. split; [|done]. apply Hfresh. by left.
Qed.

Lemma adopted_NoDup J :
  NoDup (map fs_target J) -> NoDup (map job_target (flat_map adopted J)).
Proof.
  induction J as [|a J IH]; intros Hnd; [constructor|].
  cbn [map] in Hnd. apply NoDup_cons in Hnd as [Hat Hnd].
  cbn [flat_map]. rewrite map_app.
  destruct (appends_cases a) as [E|[(y & E & E')|(z & E & E')]].
  - rewrite (appends_empty_adopted a E). by apply IH.
  - rewrite E'. by apply IH.
  - rewrite E'. cbn [map app]. apply NoDup_cons. split; [|by apply IH].
    intros Hin. apply adopted_target in Hin as (b & Hb & _ & Eb).
    apply Hat. unfold job_target in Eb. cbn in Eb. injection Eb as ->.
    apply list_elem_of_fmap. by exists b.
Qed.

Lemma adopting_spare_apart J a :
  NoDup (map fs_target J) ->
  (forall a b, a ∈ J -> b ∈ J -> fs_target a <> S (fs_target b)) ->
  a ∈ J -> adopting a -> S (fs_target a) ∉ map job_target (flat_map appends J).
Proof.
  intros Hnd Hap Ha Had Hin. apply appends_target in Hin as (b & Hb & [[_ E]|[Eb E]]).
  - by apply (Hap b a Hb Ha).
  - injection E as E. assert (a = b) as -> by (by apply (NoDup_map_eq fs_target J)).
    by apply (adopting_adopted b).
Qed.

Lemma adopted_length J : length (flat_map adopted J) <= length J.
Proof.
  induction J as [|a J IH]; [done|]. cbn [flat_map length]. rewrite length_app.
  assert (length (adopted a) <= 1); [|lia].
  unfold adopted. destruct (handler_for _ _ _) as [[f|e|m|e]|]; cbn; try lia.
  destruct (f _) as [w|e|[z|]]; cbn; lia.
Qed.

Lemma handed_on_adopted_other c a :
  fs_who a <> c -> handed_on c (flat_map job_events (adopted a)) = [].
Proof.
  destruct a as [cn c' t x]. unfold adopted, job_events. cbn. intros Hne.
  destruct (handler_for x (_onEmit cn) (_onError cn)) as [[f|e|n|e]|]; try done.
  destruct (f (payload x)) as [v|e|[z|]]; try done.
  cbn. destruct (handler_for z _ _); [|done]. cbn. destruct z; [|done].
  by rewrite decide_False.
Qed.

Lemma handed_on_adopted_user c a v f :
  fs_who a = c -> fs_input a = Fulfilled v -> _onEmit (fs_node a) = Some (FUser f) ->
  handed_on c (flat_map job_events (adopted a)) = handed_later (f v).
Proof.
  destruct a as [cn c' t x]. unfold adopted, job_events. cbn. intros -> -> Hh.
  rewrite Hh. cbn. destruct (f v) as [w|e|[[z|e]|]]; cbn; try done.
  - by rewrite decide_True.
  - by destruct (_nextErr cn).
Qed.

Lemma scheduled_events_later s c cn v f l Jv :
  Forall2 (scheduled s (Fulfilled v)) l Jv ->
  nodes s !! c = Some cn -> _onEmit cn = Some (FUser f) ->
  handed_on c (flat_map job_events (flat_map adopted Jv)) =
    flat_map (fun c' => if decide (c' = c) then handed_later (f v) else []) l.
Proof.
  intros HF Hc Hf. induction HF as [|c' a l Jv (H1 & H2 & H3) _ IH]; [done|].
  cbn [flat_map]. rewrite !flat_map_app, handed_on_app, IH. f_equal.
  destruct (decide (c' = c)) as [->|Hne].
  - apply handed_on_adopted_user; [done|done|].
    by assert (fs_node a = cn) as -> by congruence.
  - apply handed_on_adopted_other. congruence.
Qed.

Lemma emitted_events_later s c cn f nd vs J :
  Forall2 (fun v Jv => Forall2 (scheduled s (Fulfilled v)) (subscribers nd) Jv) vs J ->
  nodes s !! c = Some cn -> _onEmit cn = Some (FUser f) ->
  NoDup (subscribers nd) -> c ∈ subscribers nd ->
  handed_on c (flat_map job_events (flat_map adopted (concat J))) =
    flat_map (fun v => handed_later (f v)) vs.
Proof.
  intros HF Hc Hf Hnd Hin. induction HF as [|v Jv vs J HJ _ IH]; [done|].
  cbn [concat flat_map]. rewrite !flat_map_app, handed_on_app, IH.
  by rewrite (scheduled_events_later s c cn v f _ Jv HJ Hc Hf), listed_once.
Qed.

Lemma scheduled_members s l vs J :
  Forall2 (fun v Jv => Forall2 (scheduled s (Fulfilled v)) l Jv) vs J ->
  Forall (fun a => fs_who a ∈ l /\ nodes s !! fs_who a = Some (fs_node a) /\
                   exists v, fs_input a = Fulfilled v) (concat J).
Proof.
  induction 1 as [|v Jv vs J HJ _ IH]; [constructor|].
  cbn [concat]. apply Forall_app. split; [|done].
  clear -HJ. induction HJ as [|c a l Jv (H1 & H2 & H3) _ IH]; constructor.
  - rewrite H2. split; [by left|]. split; [done|by exists v].
  - eapply Forall_impl; [exact IH|]. intros b (Hb & ? & ?). split; [by right|done].
Qed.

(** ** Nested merges *)

Lemma first_job_carries ns b d :
  carries ns b d ->
  forall s bn dn pre post t r,
    nodes s = ns -> ns !! b = Some bn -> ns !! d = Some dn ->
    queue s = pre ++ first_job bn b t r :: post ->
    exists k evs, trace (run k s) = trace s ++ evs /\ first_event dn d r ∈ evs.
Proof.
  induction 1 as [d|b bn0 m mn c d Hb0 [HbE HbR] Hm Hex Hc _ IH];
    intros s bn dn pre post t r HN Hb Hd Q.
  - assert (dn = bn) as -> by congruence.
    destruct (job_runs s pre _ post Q) as (_ & T).
    exists (S (length pre)). eexists. split; [exact T|].
    rewrite job_events_first, elem_of_app. right. by left.
  - assert (bn0 = bn) as -> by congruence.
    destruct (Hex c Hc) as [cn Hcn].
    set (h := match r with
              | Fulfilled _ => FEmit (BoundEmit m)
              | Rejected _ => FMergeErr (BoundEmit m)
              end).
    destruct (forward_job s pre (_onEmit bn) (_onError bn) t b First r post h m r mn c cn Q)
      as (N1 & T1 & pre' & post' & t' & Q1); rewrite ?HN; auto.
    { unfold h. destruct r; cbn; by rewrite ?HbE, ?HbR. }
    { unfold h. by destruct r. }
    { intros c' Hc'. rewrite HN. by apply Hex. }
    set (s1 := run (S (length pre)) s) in *.
    destruct (IH s1 cn dn pre' post' t' r) as (k & evs & T2 & Hin); auto.
    { by rewrite N1. }
    exists (S (length pre) + k). eexists. rewrite run_add. fold s1.
    rewrite T2, T1, <- !app_assoc. split; [reflexivity|].
    rewrite !elem_of_app. auto.
Qed.

(** * The claims *)

(** C1, at the input where the code leaves the claim.  [root] has the
    subscribers [A] (pass-through) and [B] (never settles), each with one
    subscriber of its own, and [root.emit(5)] is called.  Both [A] and [B] get
    5 at their first stage; [B]'s subscriber never gets anything, as claimed.
    But [A]'s second stage is the call of the detached method [emit]
    (line 84 hands [subscriber.emit] to [then] without its receiver): it
    raises a TypeError, the promise of that stage is rejected, and [A]'s
    subscriber never gets the 5 either, however long the loop runs. *)
Theorem detached_emit_drops_value k :
  trace (run 3 stall_scenario) =
    [Called 1 First (Fulfilled (Num 5)); Called 2 First (Fulfilled (Num 5));
     Called 1 Second (Fulfilled (Num 5))] /\
  promises (run 3 stall_scenario) !! 2 = Some (Settled (Rejected TypeError)) /\
  received 3 (trace (run k stall_scenario)) = [] /\
  received 4 (trace (run k stall_scenario)) = [].
Proof.
  split; [reflexivity|]. split; [reflexivity|].
  destruct (decide (k < 3)) as [Hk|Hk].
  - destruct k as [|[|[|k]]]; [by split|by split|by split|lia].
  - replace k with (3 + (k - 3)) by lia. rewrite run_add.
    rewrite (run_quiet (k - 3) (run 3 stall_scenario)); [|reflexivity]. by split.
Qed.

(** C2, at the input where the code leaves the claim.  [root] has the
    subscribers 1 and 2.  The first [unsubscribe] of 1 leaves [2] in
    [root.subscribers]; the second finds [indexOf] = -1, and [splice(-1, 1)]
    removes the last element: subscriber 2 is gone as well. *)
Theorem second_unsubscribe_removes_sibling :
  let s1 := unsubscribe 1 two_subscribers in
  let s2 := unsubscribe 1 s1 in
  subscribers <$> nodes two_subscribers !! 0 = Some [1; 2] /\
  subscribers <$> nodes s1 !! 0 = Some [2] /\
  subscribers <$> nodes s2 !! 0 = Some [].
Proof. by repeat split. Qed.

(** C3.  When the [onEmit] of subscriber [c] fails with [e] on the value [v]
    emitted into its publisher (it throws [e], or returns a promise rejected
    by [e]), the events happen in this order: [c]'s [onEmit] is called with
    [v]; [c]'s [_nextErr] is called with [e] (which calls [c.emit] with a
    promise rejected by [e]); the [onError] of every subscriber [g] of [c] is
    called with [e].  The state is any one whose jobs and waiting reactions
    name promises of the store, as every state reached from the initial one
    does ([targets_below_reachable]).  In the scenario of the spec the error handler of the
    second subscriber returns the message, and the value its first stage
    hands on is ["x"]. *)
Theorem thrown_failure_reaches_onError s n nd c cn f g gn h v e :
  nodes s !! n = Some nd -> subscribers_exist s nd ->
  c ∈ subscribers nd -> nodes s !! c = Some cn ->
  _onEmit cn = Some (FUser f) -> fails f v e ->
  _nextErr cn = Some (FNextErr c) ->
  subscribers_exist s cn -> g ∈ subscribers cn -> nodes s !! g = Some gn ->
  _onError gn = Some h ->
  targets_below s ->
  (exists k evs,
     trace (run k (emit (Some n) (Plain v) s).2) = trace s ++ evs /\
     [Called c First (Fulfilled v); Called c Second (Rejected e); Called g First (Rejected e)]
       `sublist_of` evs) /\
  (forall w, trace (run 4 (throw_scenario w)) =
     [Called 1 First (Fulfilled w); Called 1 Second (Rejected (ErrorObj "x"));
      Called 2 First (Rejected (ErrorObj "x")); Called 2 Second (Fulfilled (Str "x"))]).
Proof.
  intros Hn Hex Hc Hcn HE Hf Hne Hexc Hg Hgn HR Hb. split; [|done].
  destruct (failure_propagates s n nd c cn g gn (Plain v) (Fulfilled v) e)
    as (k & evs & T & Hsub); auto.
  { unfold first_result. cbn. rewrite HE. by destruct Hf as [-> | ->]. }
  exists k, evs. split; [done|].
  unfold first_event in Hsub. cbn in Hsub. by rewrite HE, HR in Hsub.
Qed.

Lemma thrown_failure_witness :
  (exists k evs,
     trace (run k (emit (Some 0) (Plain (Num 7)) throw_tree).2) = trace throw_tree ++ evs /\
     [Called 1 First (Fulfilled (Num 7)); Called 1 Second (Rejected (ErrorObj "x"));
      Called 2 First (Rejected (ErrorObj "x"))] `sublist_of` evs) /\
  trace (run 4 (throw_scenario (Num 7))) =
     [Called 1 First (Fulfilled (Num 7)); Called 1 Second (Rejected (ErrorObj "x"));
      Called 2 First (Rejected (ErrorObj "x")); Called 2 Second (Fulfilled (Str "x"))].
Proof.
  destruct (thrown_failure_reaches_onError throw_tree 0
              (Node [1] None None None None Direct) 1
              (Node [2] (Some 0) (Some (thrower (ErrorObj "x"))) None (Some (FNextErr 1))
                    BySubscribe)
              (fun _ => Throw (ErrorObj "x")) 2
              (Node [] (Some 1) None (Some message_of) (Some (FNextErr 2)) BySubscribe)
              message_of (Num 7) (ErrorObj "x")) as [H1 H2].
  - reflexivity.
  - apply subscribers_exist_check; reflexivity.
  - by left.
  - reflexivity.
  - reflexivity.
  - left. reflexivity.
  - reflexivity.
  - apply subscribers_exist_check; reflexivity.
  - by left.
  - reflexivity.
  - reflexivity.
  - split; constructor.
  - split; [exact H1|exact (H2 (Num 7))].
Defined.

(** C4.  A promise rejected by [e] is emitted into a node one of whose
    subscribers, [c], has no [onError].  The events happen in this order: the
    rejection passes [c]'s first stage with no handler called; [c]'s
    [_nextErr] is called with [e]; a value rejected by the same [e] arrives
    at the first stage of every subscriber [g] of [c].  The state is any one
    whose jobs and waiting reactions name promises of the store
    ([targets_below_reachable]). *)
Theorem unhandled_failure_propagates s n nd c cn g gn q e :
  nodes s !! n = Some nd -> subscribers_exist s nd ->
  c ∈ subscribers nd -> nodes s !! c = Some cn ->
  _onError cn = None ->
  _nextErr cn = Some (FNextErr c) ->
  subscribers_exist s cn -> g ∈ subscribers cn -> nodes s !! g = Some gn ->
  targets_below s ->
  promises s !! q = Some (Settled (Rejected e)) ->
  exists k evs,
    trace (run k (emit (Some n) (Fut q) s).2) = trace s ++ evs /\
    [Passed c First (Rejected e); Called c Second (Rejected e); first_event gn g (Rejected e)]
      `sublist_of` evs.
Proof.
  intros Hn Hex Hc Hcn HR Hne Hexc Hg Hgn Hb Hq.
  destruct (failure_propagates s n nd c cn g gn (Fut q) (Rejected e) e)
    as (k & evs & T & Hsub); auto.
  { cbn. by rewrite Hq. }
  { unfold first_result. cbn. by rewrite HR. }
  exists k, evs. split; [done|].
  unfold first_event in Hsub at 1. cbn in Hsub. by rewrite HR in Hsub.
Qed.


Lemma unhandled_failure_witness :
  exists k evs,
    trace (run k (emit (Some 0) (Fut 0) failed_value_tree).2) = trace failed_value_tree ++ evs /\
    [Passed 1 First (Rejected (ErrorObj "x")); Called 1 Second (Rejected (ErrorObj "x"));
     Called 2 First (Rejected (ErrorObj "x"))] `sublist_of` evs.
Proof.
  apply (unhandled_failure_propagates failed_value_tree 0
           (Node [1] None None None None Direct) 1
           (Node [2] (Some 0) None None (Some (FNextErr 1)) BySubscribe) 2
           (Node [] (Some 1) None (Some message_of) (Some (FNextErr 2)) BySubscribe)
           0 (ErrorObj "x")).
  - reflexivity.
  - apply subscribers_exist_check; reflexivity.
  - by left.
  - reflexivity.
  - reflexivity.
  - reflexivity.
  - apply subscribers_exist_check; reflexivity.
  - by left.
  - reflexivity.
  - split; repeat constructor.
  - reflexivity.
Defined.





(** C6.  From a state with an empty queue, the plain values [vs] are emitted
    into [n] one after the other, and the loop runs the jobs that were
    scheduled.  For every subscriber [c] of [n], the values that arrived at
    [c]'s first stage (its [onEmit], or the pass-through when it has none)
    are exactly [vs], in emission order.  When the subscribers of [n] have
    user callbacks and [c]'s [onEmit] is the identity or absent, the values
    [c]'s first stage hands on (those [c]'s own [emit] is called with) are
    exactly [vs] as well, in the same order. *)
Theorem subscribers_receive_in_order s n nd vs c cn :
  queue s = [] ->
  nodes s !! n = Some nd -> subscribers_exist s nd ->
  NoDup (subscribers nd) -> c ∈ subscribers nd -> nodes s !! c = Some cn ->
  let turns := length vs * length (subscribers nd) in
  received c (trace (run turns (emit_all n vs s))) = received c (trace s) ++ vs /\
  ((forall c' cn', c' ∈ subscribers nd -> nodes s !! c' = Some cn' ->
                   user_or_absent (_onEmit cn')) ->
   hands_on cn ->
   exists k,
     received c (trace (run (turns + k) (emit_all n vs s))) = received c (trace s) ++ vs /\
     handed_on c (trace (run (turns + k) (emit_all n vs s))) = handed_on c (trace s) ++ vs).
Proof.
  intros Hq Hn Hex Hnd Hc Hcn turns.
  destruct (emit_all_armed n nd vs s Hn Hex)
    as (J & extra & Q & _ & N & T & HF & _ & HND & HA).
  rewrite Hq in Q. cbn [app] in Q.
  destruct (emitted_events s c cn nd vs J HF Hcn Hnd Hc) as (E0 & E1 & E2 & E3 & E4).
  split.
  - destruct (run_front (map job_of (concat J)) (emit_all n vs s) []) as (_ & T' & _).
    { by rewrite app_nil_r. }
    rewrite length_map, E0 in T'. fold turns in T'. rewrite T', T, received_app. f_equal.
    rewrite <- E1. f_equal. clear. induction (concat J) as [|a l IH]; [done|].
    cbn [map flat_map]. rewrite IH. unfold job_of, event_of. by rewrite job_events_first.
  - intros Hu Hh.
    destruct (first_jobs_run (concat J) (emit_all n vs s) []) as (Q1 & N1 & T1);
      [by rewrite app_nil_r|done|done| |].
    { clear -HF Hu. induction HF as [|v Jv vs J HJ _ IH]; [constructor|].
      cbn [concat]. apply Forall_app. split; [|done].
      clear -HJ Hu. induction HJ as [|c' a l Jv (H1 & H2 & H3) HJ IH]; constructor.
      - rewrite H3. cbn. apply (Hu c'); [by left|done].
      - apply IH. intros c0 cn0 Hc0. apply Hu. by right. }
    rewrite E0 in *. fold turns in Q1, N1, T1. cbn [app] in Q1.
    destruct (run_front (flat_map appends (concat J)) (run turns (emit_all n vs s)) [])
      as (_ & T2 & _).
    { by rewrite app_nil_r. }
    exists (length (flat_map appends (concat J))). rewrite run_add, T2, T1, T.
    rewrite !received_app, !handed_on_app, E1, E2, E3, (E4 Hh), !app_nil_r. done.
Qed.


Lemma subscribers_receive_in_order_witness :
  received 1 (trace (run 4 (emit_all 0 [Num 1; Num 2] two_recorders))) = [Num 1; Num 2] /\
  exists k,
    received 2 (trace (run (4 + k) (emit_all 0 [Num 1; Num 2] two_recorders))) = [Num 1; Num 2] /\
    handed_on 2 (trace (run (4 + k) (emit_all 0 [Num 1; Num 2] two_recorders))) = [Num 1; Num 2].
Proof.
  assert (Hnd : NoDup [1; 2]).
  { apply NoDup_cons. split; [|apply NoDup_singleton].
    intros H. apply list_elem_of_singleton in H. discriminate H. }
  split.
  - apply (subscribers_receive_in_order two_recorders 0
             (Node [1; 2] None None None None Direct) [Num 1; Num 2] 1
             (subscriber_node 0 1 (Some identity) None));
      [reflexivity|reflexivity|apply subscribers_exist_check; reflexivity|exact Hnd|by left
      |reflexivity].
  - apply (subscribers_receive_in_order two_recorders 0
             (Node [1; 2] None None None None Direct) [Num 1; Num 2] 2
             (subscriber_node 0 2 (Some identity) None));
      [reflexivity|reflexivity|apply subscribers_exist_check; reflexivity|exact Hnd
      |by right; left|reflexivity| |].
    + intros c' cn' Hc' Hn'. apply elem_of_cons in Hc' as [->|Hc'].
      { injection Hn' as <-. exact I. }
      apply list_elem_of_singleton in Hc' as ->. injection Hn' as <-. exact I.
    + right. exists Return. split; reflexivity.
Defined.

(** C7.  [merge] pulls the sources from the iterable once, while the merged
    node is constructed.  For a subscriber [t] of the merged node and a source
    [x] of the iterable: every settled value emitted into [x], fulfilled or
    rejected, arrives at [t]'s first stage; a node [y] that was not in the
    iterable has no bridge, its record is unchanged; and for [merge([a, b])],
    [a.emit(v1); b.emit(v2)] delivers [v1] then [v2] to the subscriber. *)
Theorem merge_forwards s iterable f g x ndx :
  Forall (fun y => y < length (nodes s)) iterable ->
  x ∈ iterable -> nodes s !! x = Some ndx -> subscribers_exist s ndx ->
  let m := length (nodes s) in
  let t := S m + length iterable in
  let s2 := (subscribe m f g (merge iterable s).2).2 in
  (forall val r, settled_as s val = Some r ->
     exists k evs,
       trace (run k (emit (Some x) val s2).2) = trace s2 ++ evs /\
       first_event (subscriber_node m t f g) t r ∈ evs) /\
  (forall y ndy, y ∉ iterable -> nodes s !! y = Some ndy -> nodes s2 !! y = Some ndy) /\
  (forall v1 v2, received 5 (trace (run 8 (merge_two v1 v2))) = [v1; v2]).
Proof.
  intros Hv Hx Hndx Hexx m t s2.
  destruct (merge_structure s iterable Hv) as (_ & Hlen & Hm & Hnew & Hold & _ & _).
  fold m in Hlen, Hm, Hnew, Hold.
  set (s1 := (merge iterable s).2) in *.
  assert (Hs2 : s2 = set_nodes (alter (push_subscriber t) m (nodes s1)
                                  ++ [subscriber_node m t f g]) s1).
  { unfold s2. rewrite subscribe_nodes by lia. cbn [snd]. by rewrite Hlen. }
  assert (Hlk : forall y nd, y <> m -> nodes s1 !! y = Some nd -> nodes s2 !! y = Some nd).
  { intros y nd Hne Hy. rewrite Hs2. cbn [nodes set_nodes promises]. apply lookup_app_l_Some.
    by rewrite list_lookup_alter_ne. }
  assert (HP : promises s2 = promises s).
  { rewrite Hs2. cbn [nodes set_nodes promises]. by destruct (merge_quiet s iterable Hv) as (E & _). }
  assert (Hxm : x < m) by (by eapply lookup_lt_Some).
  split; [|split].
  - intros val r Hr.
    apply list_elem_of_lookup in Hx as [i Hi].
    eapply (bridge_forwards s2 x _ (S m + i) _ m (push_subscriber t new_node) t).
    + apply Hlk; [lia|]. by apply Hold.
    + intros c Hc. cbn in Hc. apply elem_of_app in Hc as [Hc|Hc].
      * destruct (Hexx c Hc) as [cn Hcn].
        assert (c < m) by (by eapply lookup_lt_Some).
        exists (push_subscribers (bridges_of c (S m) iterable) cn).
        apply Hlk; [lia|]. by apply Hold.
      * apply bridges_of_bound in Hc as (i' & -> & Hi').
        eexists. apply Hlk; [lia|]. by apply Hnew.
    + unfold push_subscribers. cbn [subscribers]. apply elem_of_app. right.
      by apply bridges_of_elem.
    + apply Hlk; [lia|]. by apply Hnew.
    + by split.
    + rewrite Hs2. cbn [nodes set_nodes promises]. apply lookup_app_l_Some. by rewrite list_lookup_alter_eq, Hm.
    + intros c Hc. cbn in Hc. apply list_elem_of_singleton in Hc as ->.
      rewrite Hs2. cbn [nodes set_nodes promises]. eexists. apply list_lookup_middle. rewrite length_alter. lia.
    + cbn. by left.
    + rewrite Hs2. cbn [nodes set_nodes promises]. apply list_lookup_middle. rewrite length_alter. lia.
    + destruct val as [v|q]; cbn in *; [done|]. by rewrite HP.
  - intros y ndy Hy Hndy. assert (y < m) by (by eapply lookup_lt_Some).
    apply Hlk; [lia|]. rewrite (Hold y ndy Hndy), bridges_of_fresh by done.
    by rewrite push_subscribers_nil.
  - intros v1 v2. reflexivity.
Qed.


Lemma merge_forwards_witness :
  (forall val r, settled_as two_roots val = Some r ->
     exists k evs,
       trace (run k (emit (Some 0) val
                (subscribe 2 (Some identity) None (merge [0; 1] two_roots).2).2).2) =
         trace (subscribe 2 (Some identity) None (merge [0; 1] two_roots).2).2 ++ evs /\
       first_event (subscriber_node 2 5 (Some identity) None) 5 r ∈ evs) /\
  (forall v1 v2, received 5 (trace (run 8 (merge_two v1 v2))) = [v1; v2]).
Proof.
  assert (Hv : Forall (fun x => x < length (nodes two_roots)) [0; 1]).
  { repeat constructor. }
  destruct (merge_forwards two_roots [0; 1] (Some identity) None 0 new_node Hv)
    as (H1 & _ & H3).
  - by left.
  - reflexivity.
  - apply subscribers_exist_check; reflexivity.
  - split; [exact H1|exact H3].
Defined.

(** C8.  After any sequence of constructions, [subscribe], [unsubscribe],
    [emit], [merge] calls and turns of the event loop, no node occurs twice
    in the [subscribers] arrays taken together, and a node has a [publisher]
    exactly when [subscribe] made it. *)
Theorem structural_invariants ops :
  NoDup (all_subscribers (nodes (run_ops ops init))) /\
  forall n nd, nodes (run_ops ops init) !! n = Some nd ->
    (is_Some (publisher nd) <-> made_by nd = BySubscribe).
Proof.
  destruct (run_ops_structural ops init structural_init) as [H1 _ H3]. split; [done|].
  intros n nd Hn. rewrite Forall_forall in H3. apply H3. by eapply list_elem_of_lookup_2.
Qed.

(** C9.  [n.emit(val)] returns [undefined], leaves every node as it was and
    runs no callback before it returns; on a node without subscribers it
    leaves the whole state as it was: nothing is scheduled. *)
Theorem emit_fire_and_forget s n nd val :
  nodes s !! n = Some nd -> subscribers_exist s nd ->
  exists s',
    emit (Some n) val s = (Normal (Plain Undefined), s') /\
    nodes s' = nodes s /\ trace s' = trace s /\
    (subscribers nd = [] -> s' = s).
Proof.
  intros Hn Hex. rewrite (emit_fold n val s nd Hn Hex).
  eexists. split; [reflexivity|].
  destruct (ext_fold_dispatch val (subscribers nd) s) as (HN & HT & _).
  rewrite app_nil_r in HT. split; [done|]. split; [done|].
  by intros ->.
Qed.

Lemma emit_fire_and_forget_witness :
  exists s',
    emit (Some 0) (Plain (Num 5)) two_subscribers = (Normal (Plain Undefined), s') /\
    nodes s' = nodes two_subscribers /\ trace s' = trace two_subscribers /\
    (subscribers (Node [1; 2] None None None None Direct) = [] -> s' = two_subscribers).
Proof.
  apply (emit_fire_and_forget two_subscribers 0 (Node [1; 2] None None None None Direct)).
  - reflexivity.
  - apply subscribers_exist_check; reflexivity.
Defined.

(** [merge([a, a])] appends two bridges to [a.subscribers], not one. *)
Lemma merge_repeated_source_two_bridges :
  subscribers <$> nodes two_roots !! 0 = Some [] /\
  subscribers <$> nodes (merge [0; 0] two_roots).2 !! 0 = Some [3; 4] /\
  ~ (exists b, subscribers <$> nodes (merge [0; 0] two_roots).2 !! 0 = Some [b]).
Proof.
  split; [reflexivity|]. split; [reflexivity|].
  intros [b Hb]. discriminate Hb.
Qed.

(** C10.  [merge(iterable)] makes one node, the merged node
    [m], without publisher or subscribers, and one bridge per element of the
    iterable, in iteration order: the [i]-th bridge is a subscriber of the
    [i]-th source, with [m]'s bound [emit] as [onEmit].  A source gets
    exactly its bridges appended to its [subscribers]: as many as it has
    occurrences in the iterable, so exactly one when the iterable has no
    repetition, and none when it is not in the iterable.
    [m.unsubscribe()] changes nothing, and nothing is scheduled. *)
Theorem merge_bridges s iterable :
  Forall (fun x => x < length (nodes s)) iterable ->
  let m := length (nodes s) in
  let s' := (merge iterable s).2 in
  (merge iterable s).1 = m /\
  length (nodes s') = S m + length iterable /\
  nodes s' !! m = Some new_node /\
  (forall i x, iterable !! i = Some x ->
     nodes s' !! (S m + i) =
       Some (subscriber_node x (S m + i) (Some (FEmit (BoundEmit m)))
                             (Some (FMergeErr (BoundEmit m))))) /\
  (forall x nd, nodes s !! x = Some nd ->
     nodes s' !! x = Some (push_subscribers (bridges_of x (S m) iterable) nd)) /\
  (forall x, length (bridges_of x (S m) iterable) =
             length (filter (fun y => y = x) iterable)) /\
  (forall x b, b ∈ bridges_of x (S m) iterable <->
               exists i, b = S m + i /\ iterable !! i = Some x) /\
  (NoDup iterable -> forall i x, iterable !! i = Some x ->
     bridges_of x (S m) iterable = [S m + i]) /\
  unsubscribe m s' = s' /\
  promises s' = promises s /\ queue s' = queue s /\ trace s' = trace s.
Proof.
  intros Hv m s'.
  destruct (merge_structure s iterable Hv) as (H1 & H2 & H3 & H4 & H5 & H6 & H7).
  destruct (merge_quiet s iterable Hv) as (H8 & H9 & H10).
  do 5 (split; [assumption|]).
  split; [intros x; apply bridges_of_length|].
  split.
  { intros x b. split; [apply bridges_of_member|].
    intros (i & -> & Hi). by apply bridges_of_position. }
  repeat (split; [assumption|]). assumption.
Qed.

Lemma merge_bridges_witness :
  (merge [0; 0; 1] two_roots).1 = 2 /\
  nodes (merge [0; 0; 1] two_roots).2 !! 0 =
    Some (Node [3; 4] None None None None Direct) /\
  nodes (merge [0; 0; 1] two_roots).2 !! 1 =
    Some (Node [5] None None None None Direct) /\
  nodes (merge [0; 0; 1] two_roots).2 !! 4 =
    Some (Node [] (Some 0) (Some (FEmit (BoundEmit 2))) (Some (FMergeErr (BoundEmit 2)))
               (Some (FNextErr 4)) BySubscribe) /\
  length (bridges_of 0 3 [0; 0; 1]) = 2 /\
  unsubscribe 2 (merge [0; 0; 1] two_roots).2 = (merge [0; 0; 1] two_roots).2.
Proof.
  assert (Hv : Forall (fun x => x < length (nodes two_roots)) [0; 0; 1]).
  { repeat constructor. }
  destruct (merge_bridges two_roots [0; 0; 1] Hv)
    as (H1 & _ & _ & Hnew & Hold & Hlen & _ & _ & Hun & _).
  split; [exact H1|]. split; [|split; [|split; [|split]]].
  - exact (Hold 0 new_node eq_refl).
  - exact (Hold 1 new_node eq_refl).
  - exact (Hnew 1 0 eq_refl).
  - exact (Hlen 0).
  - exact Hun.
Defined.

(** * Further properties *)

(** X1.  One call of [emit] with a settled value, from an empty queue: the
    first stages of the subscribers run in subscription order, one event per
    subscriber, each with the settled value, whether it is a fulfilled or a
    rejected one. *)
Theorem emit_notifies_in_order s n nd val x :
  queue s = [] -> settled_as s val = Some x ->
  nodes s !! n = Some nd -> subscribers_exist s nd ->
  trace (run (length (subscribers nd)) (emit (Some n) val s).2) =
    trace s ++ first_events s x (subscribers nd).
Proof.
  intros Hq Hx Hn Hex.
  apply (emitted_jobs_run s n nd val x); auto. by apply (emit_trace n nd).
Qed.

Lemma emit_notifies_in_order_witness :
  trace (run 2 (emit (Some 0) (Plain (Num 5)) two_subscribers).2) =
    [Called 1 First (Fulfilled (Num 5)); Called 2 First (Fulfilled (Num 5))].
Proof.
  apply (emit_notifies_in_order two_subscribers 0 (Node [1; 2] None None None None Direct)
           (Plain (Num 5)) (Fulfilled (Num 5))).
  - reflexivity.
  - reflexivity.
  - reflexivity.
  - apply subscribers_exist_check; reflexivity.
Defined.

(** X2.  [unsubscribe] does not cancel what [emit] has dispatched: when any
    node [d], a subscriber of [n] among them, unsubscribes after [n.emit(val)]
    has returned, the first stages of all the subscribers [n] had at the
    call still run, in the same order, [d]'s included. *)
Theorem unsubscribe_keeps_in_flight s n nd val x d :
  queue s = [] -> settled_as s val = Some x ->
  nodes s !! n = Some nd -> subscribers_exist s nd ->
  trace (run (length (subscribers nd)) (unsubscribe d (emit (Some n) val s).2)) =
    trace s ++ first_events s x (subscribers nd).
Proof.
  intros Hq Hx Hn Hex.
  destruct (unsubscribe_quiet d (emit (Some n) val s).2) as (_ & Q & T).
  apply (emitted_jobs_run s n nd val x); auto. rewrite T. by apply (emit_trace n nd).
Qed.

Lemma unsubscribe_keeps_in_flight_witness :
  subscribers <$> nodes (unsubscribe 1 (emit (Some 0) (Plain (Num 5)) two_subscribers).2) !! 0
    = Some [2] /\
  trace (run 2 (unsubscribe 1 (emit (Some 0) (Plain (Num 5)) two_subscribers).2)) =
    [Called 1 First (Fulfilled (Num 5)); Called 2 First (Fulfilled (Num 5))].
Proof.
  split; [reflexivity|].
  apply (unsubscribe_keeps_in_flight two_subscribers 0 (Node [1; 2] None None None None Direct)
           (Plain (Num 5)) (Fulfilled (Num 5)) 1).
  - reflexivity.
  - reflexivity.
  - reflexivity.
  - apply subscribers_exist_check; reflexivity.
Defined.

(** X3.  A subscriber added after [n.emit(val)] has returned does not get
    that value: the new node is in [n.subscribers], and the first stages
    that run for the call are those of the subscribers [n] had when [emit]
    was called. *)
Theorem late_subscriber_misses_value s n nd val x f g :
  queue s = [] -> settled_as s val = Some x ->
  nodes s !! n = Some nd -> subscribers_exist s nd ->
  let s1 := (subscribe n f g (emit (Some n) val s).2).2 in
  subscribers <$> nodes s1 !! n = Some (subscribers nd ++ [length (nodes s)]) /\
  trace (run (length (subscribers nd)) s1) = trace s ++ first_events s x (subscribers nd).
Proof.
  intros Hq Hx Hn Hex s1.
  assert (HN : nodes (emit (Some n) val s).2 = nodes s).
  { rewrite (emit_fold n val s nd Hn Hex). cbn [snd].
    by destruct (ext_fold_dispatch val (subscribers nd) s) as (N & _). }
  split.
  - unfold s1. rewrite subscribe_nodes; [|rewrite HN; by eapply lookup_lt_Some].
    cbn [snd nodes set_nodes]. rewrite HN.
    rewrite lookup_app_l; [|rewrite length_alter; by eapply lookup_lt_Some].
    by rewrite list_lookup_alter_eq, Hn.
  - destruct (subscribe_quiet n f g (emit (Some n) val s).2) as (_ & Q & T). fold s1 in Q, T.
    apply (emitted_jobs_run s n nd val x); auto. rewrite T. by apply (emit_trace n nd).
Qed.

Lemma late_subscriber_misses_value_witness :
  subscribers <$>
    nodes (subscribe 0 (Some identity) None
             (emit (Some 0) (Plain (Num 5)) two_subscribers).2).2 !! 0 = Some [1; 2; 3] /\
  trace (run 2 (subscribe 0 (Some identity) None
                  (emit (Some 0) (Plain (Num 5)) two_subscribers).2).2) =
    [Called 1 First (Fulfilled (Num 5)); Called 2 First (Fulfilled (Num 5))].
Proof.
  apply (late_subscriber_misses_value two_subscribers 0
           (Node [1; 2] None None None None Direct) (Plain (Num 5)) (Fulfilled (Num 5))
           (Some identity) None).
  - reflexivity.
  - reflexivity.
  - reflexivity.
  - apply subscribers_exist_check; reflexivity.
Defined.


(** X4.  Values emitted by the executor while the node is constructed are
    dropped: [new Observable(emit => { emit(v1); emit(v2); ... })] gives the
    same state as [new Observable()].  Nothing is scheduled and no promise
    is made, since nobody can have subscribed yet. *)
Theorem executor_emit_is_dropped vals s :
  construct (Some (emitting_executor vals)) s = construct None s.
Proof.
  unfold construct. f_equal.
  apply (emitting_executor_no_subscribers vals _ new_node); [|done].
  cbn [nodes set_nodes]. by apply list_lookup_middle.
Qed.

(** X5.  [subscribe] appends: after [n.subscribe(f1, g1); ...;
    n.subscribe(fk, gk)] the array [n.subscribers] is what it was, followed
    by the [k] new nodes in subscription order; the [i]-th new node has [n]
    as publisher, [fi] and [gi] as callbacks and no subscribers; and
    nothing is scheduled. *)
Theorem subscribers_in_subscription_order s n nd hs :
  nodes s !! n = Some nd ->
  let s' := subscribe_each n hs s in
  subscribers <$> nodes s' !! n =
    Some (subscribers nd ++ seq (length (nodes s)) (length hs)) /\
  (forall i h, hs !! i = Some h ->
     nodes s' !! (length (nodes s) + i) =
       Some (subscriber_node n (length (nodes s) + i) h.1 h.2)) /\
  (forall d ndd, d <> n -> nodes s !! d = Some ndd -> nodes s' !! d = Some ndd) /\
  promises s' = promises s /\ queue s' = queue s /\ trace s' = trace s.
Proof.
  intros Hn s'. destruct (subscribe_each_nodes n hs nd s Hn) as (N & P & Q & T).
  fold s' in N, P, Q, T. rewrite N.
  assert (Hlt : n < length (nodes s)) by (by eapply lookup_lt_Some).
  split; [|split; [|split]]; [| | |done].
  - rewrite lookup_app_l by (by rewrite length_insert).
    by rewrite list_lookup_insert_eq.
  - intros i h Hi. rewrite lookup_app_r; rewrite length_insert; [|lia].
    replace (length (nodes s) + i - length (nodes s)) with i by lia.
    by rewrite list_lookup_imap, Hi.
  - intros d ndd Hne Hd. apply lookup_app_l_Some. by rewrite list_lookup_insert_ne.
Qed.

Lemma subscribers_in_subscription_order_witness :
  subscribers <$>
    nodes (subscribe_each 0 [(Some identity, None); (None, Some message_of)] two_subscribers)
      !! 0 = Some [1; 2; 3; 4] /\
  nodes (subscribe_each 0 [(Some identity, None); (None, Some message_of)] two_subscribers)
    !! 4 = Some (subscriber_node 0 4 None (Some message_of)).
Proof.
  destruct (subscribers_in_subscription_order two_subscribers 0
              (Node [1; 2] None None None None Direct)
              [(Some identity, None); (None, Some message_of)] eq_refl) as (H1 & H2 & _).
  split; [exact H1|]. exact (H2 1 (None, Some message_of) eq_refl).
Defined.

(** X6.  [subscribe] followed by [unsubscribe] of the node it returned
    leaves the publisher as it was: the state differs from the one before
    by the new, detached node only. *)
Theorem subscribe_unsubscribe_round_trip s p pn f g :
  nodes s !! p = Some pn -> subscribers_exist s pn ->
  unsubscribe (subscribe p f g s).1 (subscribe p f g s).2 =
    set_nodes (nodes s ++ [subscriber_node p (length (nodes s)) f g]) s.
Proof.
  intros Hp Hex.
  assert (Hlt : p < length (nodes s)) by (by eapply lookup_lt_Some).
  rewrite subscribe_nodes by done. cbn [fst snd].
  set (c := length (nodes s)).
  assert (Hc : c ∉ subscribers pn).
  { intros Hin. destruct (Hex c Hin) as [x Hx]. apply lookup_lt_Some in Hx. unfold c in Hx. lia. }
  rewrite (unsubscribe_present c (subscriber_node p c f g) p (push_subscriber c pn)
             (subscribers pn) []); [| | | | |exact Hc].
  - cbn [nodes set_nodes]. unfold set_nodes. cbn [promises queue trace]. f_equal.
    rewrite insert_app_l by (by rewrite length_alter). f_equal.
    apply list_eq. intros i. destruct (decide (i = p)) as [->|Hne].
    + rewrite list_lookup_insert_eq by (by rewrite length_alter).
      rewrite Hp, app_nil_r. by destruct pn.
    + rewrite list_lookup_insert_ne by done. by rewrite list_lookup_alter_ne.
  - cbn [nodes set_nodes]. apply list_lookup_middle. by rewrite length_alter.
  - done.
  - cbn [nodes set_nodes]. apply lookup_app_l_Some. by rewrite list_lookup_alter_eq, Hp.
  - done.
Qed.

Lemma subscribe_unsubscribe_round_trip_witness :
  unsubscribe 3 (subscribe 0 (Some identity) None two_subscribers).2 =
    set_nodes (nodes two_subscribers ++ [subscriber_node 0 3 (Some identity) None])
              two_subscribers.
Proof.
  apply (subscribe_unsubscribe_round_trip two_subscribers 0
           (Node [1; 2] None None None None Direct) (Some identity) None).
  - reflexivity.
  - apply subscribers_exist_check; reflexivity.
Defined.

(** X7.  [unsubscribe] on a node that has a publisher but is not in the
    publisher's [subscribers] (it was removed before): [indexOf] gives -1,
    [splice(-1, 1)] takes the last element out, whichever node that is; an
    empty array stays empty. *)
Theorem unsubscribe_absent_drops_last s c cn p pn :
  nodes s !! c = Some cn -> publisher cn = Some p ->
  nodes s !! p = Some pn -> c ∉ subscribers pn ->
  unsubscribe c s =
    set_nodes (<[p := set_subscribers (removelast (subscribers pn)) pn]> (nodes s)) s.
Proof.
  intros Hc Hp Hpn Hx.
  destruct (subscribers pn) as [|y l] eqn:Hl using rev_ind.
  - unfold unsubscribe, update_node. rewrite Hc, Hp. f_equal.
    apply list_eq. intros i. destruct (decide (i = p)) as [->|Hne].
    + rewrite list_lookup_alter_eq, Hpn.
      rewrite list_lookup_insert_eq by (by eapply lookup_lt_Some).
      cbn. unfold set_subscribers. by rewrite Hl.
    + by rewrite list_lookup_alter_ne, list_lookup_insert_ne.
  - rewrite removelast_last. by apply (unsubscribe_absent c cn p pn l y).
Qed.

Lemma unsubscribe_absent_drops_last_witness :
  subscribers <$> nodes (unsubscribe 1 (unsubscribe 1 two_subscribers)) !! 0 = Some [].
Proof.
  rewrite (unsubscribe_absent_drops_last (unsubscribe 1 two_subscribers) 1
             (Node [] (Some 0) (Some identity) None (Some (FNextErr 1)) BySubscribe) 0
             (Node [2] None None None None Direct)).
  - reflexivity.
  - reflexivity.
  - reflexivity.
  - reflexivity.
  - intros H. apply list_elem_of_singleton in H. discriminate H.
Defined.

(** X8.  [merge] subscribes to every element it pulls from the iterable,
    without looking for repetitions: a source gets as many bridges as it
    has occurrences in the iterable, appended to its [subscribers]; each of
    them has the source as publisher and the merged node's bound [emit] as
    [onEmit]; a node that is not in the iterable is left as it was.  So
    [merge([a, a])] delivers every value of [a] twice. *)
Theorem merge_bridges_per_occurrence s iterable x nd :
  Forall (fun y => y < length (nodes s)) iterable ->
  nodes s !! x = Some nd ->
  let m := length (nodes s) in
  let s' := (merge iterable s).2 in
  (exists bs,
     subscribers <$> nodes s' !! x = Some (subscribers nd ++ bs) /\
     length bs = length (filter (fun y => y = x) iterable) /\
     forall b, b ∈ bs ->
       nodes s' !! b = Some (subscriber_node x b (Some (FEmit (BoundEmit m)))
                                             (Some (FMergeErr (BoundEmit m))))) /\
  (x ∉ iterable -> nodes s' !! x = Some nd) /\
  (forall v, received 4 (trace (run 6 (merge_same_twice v))) = [v; v]).
Proof.
  intros Hv Hx m s'.
  destruct (merge_structure s iterable Hv) as (_ & _ & _ & Hnew & Hold & _ & _).
  fold m s' in Hnew, Hold. split; [|split].
  - exists (bridges_of x (S m) iterable). rewrite (Hold x nd Hx). split; [done|].
    split; [apply bridges_of_length|].
    intros b Hb. apply bridges_of_bound in Hb as (i & -> & Hi). by apply Hnew.
  - intros Hnot. by rewrite (Hold x nd Hx), bridges_of_fresh, push_subscribers_nil.
  - intros v. reflexivity.
Qed.

Lemma merge_bridges_per_occurrence_witness :
  (exists bs, subscribers <$> nodes (merge [0; 0] two_roots).2 !! 0 = Some bs /\
              length bs = 2) /\
  nodes (merge [0; 0] two_roots).2 !! 1 = Some new_node /\
  (forall v, received 4 (trace (run 6 (merge_same_twice v))) = [v; v]).
Proof.
  assert (Hv : Forall (fun y => y < length (nodes two_roots)) [0; 0]).
  { repeat constructor. }
  split; [|split].
  - destruct (merge_bridges_per_occurrence two_roots [0; 0] 0 new_node Hv eq_refl)
      as ((bs & H1 & H2 & _) & _ & _).
    exists bs. split; [exact H1|exact H2].
  - destruct (merge_bridges_per_occurrence two_roots [0; 0] 1 new_node Hv eq_refl)
      as (_ & H & _).
    apply H. intros Hin. apply elem_of_cons in Hin as [Hin|Hin]; [discriminate Hin|].
    apply list_elem_of_singleton in Hin. discriminate Hin.
  - destruct (merge_bridges_per_occurrence two_roots [0; 0] 0 new_node Hv eq_refl)
      as (_ & _ & H). exact H.
Defined.


(** X9.  After any sequence of constructions, [subscribe], [unsubscribe],
    [emit], [merge] calls and turns of the event loop: every node listed in
    the [subscribers] of a node [p] has [p] as its [publisher], and a
    publisher was always made before its subscriber, so that no node is its
    own publisher or descendant. *)
Theorem subscribers_form_a_forest ops :
  let ns := nodes (run_ops ops init) in
  (forall p pn c, ns !! p = Some pn -> c ∈ subscribers pn ->
     exists cn, ns !! c = Some cn /\ publisher cn = Some p) /\
  (forall c cn p, ns !! c = Some cn -> publisher cn = Some p -> p < c).
Proof. by destruct (run_ops_forest ops init forest_init). Qed.

Lemma subscribers_form_a_forest_witness :
  (forall p pn c,
     nodes (run_ops [OpNew; OpSubscribe 0 None None; OpSubscribe 1 None None;
                     OpUnsubscribe 1; OpUnsubscribe 1; OpMerge [0; 2]] init) !! p = Some pn ->
     c ∈ subscribers pn ->
     exists cn,
       nodes (run_ops [OpNew; OpSubscribe 0 None None; OpSubscribe 1 None None;
                       OpUnsubscribe 1; OpUnsubscribe 1; OpMerge [0; 2]] init) !! c = Some cn /\
       publisher cn = Some p) /\
  (forall c cn p,
     nodes (run_ops [OpNew; OpSubscribe 0 None None; OpSubscribe 1 None None;
                     OpUnsubscribe 1; OpUnsubscribe 1; OpMerge [0; 2]] init) !! c = Some cn ->
     publisher cn = Some p -> p < c).
Proof.
  exact (subscribers_form_a_forest
           [OpNew; OpSubscribe 0 None None; OpSubscribe 1 None None;
            OpUnsubscribe 1; OpUnsubscribe 1; OpMerge [0; 2]]).
Defined.


(** X10.  What the first stage of a subscriber makes of a value is what its
    second stage runs on: for an [onEmit] that returns [w] the subscriber's
    own [emit] is called with [w] (a map); for an [onError] that returns [w]
    on a failure, [emit] is called with [w] as well and [_nextErr] is not (a
    recovery); a handler that throws, or returns a settled promise, hands on
    the failure or that promise's settled value; an absent handler hands on
    the value it got. *)
Theorem first_result_reaches_second_stage s n nd c cn val x y :
  nodes s !! n = Some nd -> subscribers_exist s nd ->
  c ∈ subscribers nd -> nodes s !! c = Some cn ->
  targets_below s ->
  settled_as s val = Some x -> first_result cn x = Some y ->
  exists k evs,
    trace (run k (emit (Some n) val s).2) = trace s ++ evs /\
    [first_event cn c x; second_event cn c y] `sublist_of` evs.
Proof.
  intros Hn Hex Hc Hcn Hb Hx Hy.
  destruct (first_to_second s n nd c cn val x y Hn Hex Hc Hcn Hb Hx Hy)
    as (k & t & q & evs1 & evs2 & Q & N & T).
  set (s1 := run k (emit (Some n) val s).2) in *.
  destruct (job_runs s1 q _ [] Q) as (_ & T2).
  exists (k + S (length q)). eexists. rewrite run_add. fold s1.
  rewrite T2, T, <- !app_assoc. split; [reflexivity|].
  apply sublist_inserts_l. cbn [app]. apply sublist_skip.
  apply sublist_inserts_l. apply sublist_inserts_l.
  unfold job_events, second_reaction, second_event. cbn [job_reaction job_input].
  by destruct (handler_for _ _ _).
Qed.

Lemma first_result_reaches_second_stage_witness :
  (exists k evs,
     trace (run k (emit (Some 0) (Plain (Num 21)) map_tree).2) = trace map_tree ++ evs /\
     [Called 1 First (Fulfilled (Num 21)); Called 1 Second (Fulfilled (Num 42))]
       `sublist_of` evs) /\
  (exists k evs,
     trace (run k (emit (Some 0) (Fut 0) map_tree).2) = trace map_tree ++ evs /\
     [Called 1 First (Rejected (ErrorObj "x")); Called 1 Second (Fulfilled (Num 0))]
       `sublist_of` evs).
Proof.
  split.
  - apply (first_result_reaches_second_stage map_tree 0
             (Node [1] None None None None Direct) 1
             (subscriber_node 0 1 (Some double) (Some recover))
             (Plain (Num 21)) (Fulfilled (Num 21)) (Fulfilled (Num 42))).
    + reflexivity.
    + apply subscribers_exist_check; reflexivity.
    + by left.
    + reflexivity.
    + split; repeat constructor.
    + reflexivity.
    + reflexivity.
  - apply (first_result_reaches_second_stage map_tree 0
             (Node [1] None None None None Direct) 1
             (subscriber_node 0 1 (Some double) (Some recover))
             (Fut 0) (Rejected (ErrorObj "x")) (Fulfilled (Num 0))).
    + reflexivity.
    + apply subscribers_exist_check; reflexivity.
    + by left.
    + reflexivity.
    + split; repeat constructor.
    + reflexivity.
    + reflexivity.
Defined.

(** X11.  When the [onError] of subscriber [c] itself fails with [e] on a
    failure [e0] emitted into its publisher (it throws [e], or returns a
    promise rejected by [e]), it is [e], not [e0], that goes through
    [_nextErr] to the subscribers of [c]. *)
Theorem failing_onError_replaces_failure s n nd c cn f g gn q e0 e :
  nodes s !! n = Some nd -> subscribers_exist s nd ->
  c ∈ subscribers nd -> nodes s !! c = Some cn ->
  _onError cn = Some (FUser f) -> fails f e0 e ->
  _nextErr cn = Some (FNextErr c) ->
  subscribers_exist s cn -> g ∈ subscribers cn -> nodes s !! g = Some gn ->
  targets_below s ->
  promises s !! q = Some (Settled (Rejected e0)) ->
  exists k evs,
    trace (run k (emit (Some n) (Fut q) s).2) = trace s ++ evs /\
    [Called c First (Rejected e0); Called c Second (Rejected e); first_event gn g (Rejected e)]
      `sublist_of` evs.
Proof.
  intros Hn Hex Hc Hcn HE Hf Hne Hexc Hg Hgn Hb Hq.
  destruct (failure_propagates s n nd c cn g gn (Fut q) (Rejected e0) e)
    as (k & evs & T & Hsub); auto.
  { cbn. by rewrite Hq. }
  { unfold first_result. cbn. rewrite HE. by destruct Hf as [-> | ->]. }
  exists k, evs. split; [done|].
  unfold first_event in Hsub at 1. cbn in Hsub. by rewrite HE in Hsub.
Qed.

Lemma failing_onError_replaces_failure_witness :
  exists k evs,
    trace (run k (emit (Some 0) (Fut 0) rethrow_tree).2) = trace rethrow_tree ++ evs /\
    [Called 1 First (Rejected (ErrorObj "x")); Called 1 Second (Rejected (ErrorObj "y"));
     Called 2 First (Rejected (ErrorObj "y"))] `sublist_of` evs.
Proof.
  apply (failing_onError_replaces_failure rethrow_tree 0
           (Node [1] None None None None Direct) 1
           (Node [2] (Some 0) None (Some (thrower (ErrorObj "y"))) (Some (FNextErr 1))
                 BySubscribe)
           (fun _ => Throw (ErrorObj "y")) 2
           (Node [] (Some 1) None (Some message_of) (Some (FNextErr 2)) BySubscribe)
           0 (ErrorObj "x") (ErrorObj "y")).
  - reflexivity.
  - apply subscribers_exist_check; reflexivity.
  - by left.
  - reflexivity.
  - reflexivity.
  - left. reflexivity.
  - reflexivity.
  - apply subscribers_exist_check; reflexivity.
  - by left.
  - reflexivity.
  - split; repeat constructor.
  - reflexivity.
Defined.


(** X12.  [emit] of a promise that is still pending, from an empty queue:
    nothing is scheduled and no callback runs while the promise is pending,
    however long the loop runs; when the promise is settled, with a value
    or with a failure, the first stages of the subscribers the node had at
    the call run with it, in subscription order. *)
Theorem pending_emit_waits_for_settlement s n nd q :
  queue s = [] -> promises s !! q = Some (Pending []) ->
  nodes s !! n = Some nd -> subscribers_exist s nd ->
  let s1 := (emit (Some n) (Fut q) s).2 in
  (forall k, run k s1 = s1) /\ trace s1 = trace s /\
  (forall x, trace (run (length (subscribers nd)) (settle q x s1)) =
               trace s ++ first_events s x (subscribers nd)).
Proof.
  intros Hq Hp Hn Hex s1.
  assert (Hs1 : s1 = fold_left (dispatch (Fut q)) (subscribers nd) s).
  { unfold s1. by rewrite (emit_fold n (Fut q) s nd Hn Hex). }
  destruct (fold_dispatch_pending q (subscribers nd) s [] Hp Hex) as (rs & P & Q & HF).
  rewrite <- Hs1 in P, Q. rewrite Hq in Q. cbn [app] in P.
  assert (T : trace s1 = trace s) by (by apply (emit_trace n nd)).
  split; [|split; [done|]].
  - intros k. by apply run_quiet.
  - intros x. rewrite (settle_pending q x rs s1 P).
    set (s2 := enqueue _ _).
    destruct (run_front (map (fun r => Job r x) rs) s2 []) as (_ & T' & _).
    { unfold s2. cbn [enqueue set_queue set_promises queue]. by rewrite Q, app_nil_r. }
    rewrite length_map, <- (Forall2_length _ _ _ HF) in T'. rewrite T'.
    unfold s2. cbn [enqueue set_queue set_promises trace].
    by rewrite T, (first_reactions_events s x _ _ HF).
Qed.

Lemma pending_emit_waits_for_settlement_witness :
  (forall k, run k (emit (Some 0) (Fut 0) pending_tree).2 =
             (emit (Some 0) (Fut 0) pending_tree).2) /\
  trace (emit (Some 0) (Fut 0) pending_tree).2 = [] /\
  trace (run 2 (settle 0 (Rejected (ErrorObj "x")) (emit (Some 0) (Fut 0) pending_tree).2)) =
    [Passed 1 First (Rejected (ErrorObj "x")); Passed 2 First (Rejected (ErrorObj "x"))].
Proof.
  destruct (pending_emit_waits_for_settlement pending_tree 0
              (Node [1; 2] None None None None Direct) 0) as (H1 & H2 & H3).
  - reflexivity.
  - reflexivity.
  - reflexivity.
  - apply subscribers_exist_check; reflexivity.
  - split; [exact H1|]. split; [exact H2|]. exact (H3 (Rejected (ErrorObj "x"))).
Defined.


(** X13.  A failure emitted into a node travels down any chain of
    subscribers that have no [onError], whatever its length: each of them
    passes it on through its [_nextErr] to its own subscribers, and the
    node at the end of the chain gets a value rejected by the same reason
    at its first stage. *)
Theorem failure_descends s n nd c cn d dn q e :
  nodes s !! n = Some nd -> subscribers_exist s nd ->
  c ∈ subscribers nd -> nodes s !! c = Some cn ->
  relays (nodes s) c d -> nodes s !! d = Some dn ->
  targets_below s ->
  promises s !! q = Some (Settled (Rejected e)) ->
  exists k evs,
    trace (run k (emit (Some n) (Fut q) s).2) = trace s ++ evs /\
    first_event dn d (Rejected e) ∈ evs.
Proof.
  intros Hn Hex Hc Hcn Hpath Hd Hb Hq.
  assert (Hx : settled_as s (Fut q) = Some (Rejected e)) by (cbn; by rewrite Hq).
  pose proof (emit_at_first s n nd c cn (Fut q) _ Hn Hex Hc Hcn Hb Hx) as Hat.
  assert (HN : nodes (emit (Some n) (Fut q) s).2 = nodes s).
  { rewrite (emit_fold n _ s nd Hn Hex). cbn [snd].
    by destruct (ext_fold_dispatch (Fut q) (subscribers nd) s) as (N & _). }
  destruct (at_first_relays (nodes s) c d Hpath _ cn dn e HN Hcn Hd Hat) as (k & evs & T & Hin).
  exists k, evs. split; [|done]. by rewrite T, (emit_trace n nd).
Qed.

Lemma failure_descends_witness :
  exists k evs,
    trace (run k (emit (Some 0) (Fut 0) relay_chain).2) = trace relay_chain ++ evs /\
    Called 3 First (Rejected (ErrorObj "x")) ∈ evs.
Proof.
  apply (failure_descends relay_chain 0 (Node [1] None None None None Direct) 1
           (Node [2] (Some 0) None None (Some (FNextErr 1)) BySubscribe) 3
           (subscriber_node 2 3 None (Some message_of)) 0 (ErrorObj "x")).
  - reflexivity.
  - apply subscribers_exist_check; reflexivity.
  - by left.
  - reflexivity.
  - apply (relays_down _ 1 (Node [2] (Some 0) None None (Some (FNextErr 1)) BySubscribe) 2 3);
      [reflexivity|reflexivity|reflexivity| |by left|].
    { apply (subscribers_exist_check relay_chain). reflexivity. }
    apply (relays_down _ 2 (Node [3] (Some 1) None None (Some (FNextErr 2)) BySubscribe) 3 3);
      [reflexivity|reflexivity|reflexivity| |by left|apply relays_here].
    apply (subscribers_exist_check relay_chain). reflexivity.
  - reflexivity.
  - split; repeat constructor.
  - reflexivity.
Defined.


(** X14.  A transform that returns a promise that never settles blocks its
    subscriber for good: the first stage of [c] runs on the value, and the
    second stage of [c] for that value (the call of [c.emit], or of
    [c._nextErr]) stays waiting on the promise of the first stage, however
    long the loop runs and whatever the other jobs do: the promise is never
    settled, so neither [c.emit] nor [c._nextErr] is called for that value. *)
Theorem never_settling_blocks_second_stage s n nd c cn val x f :
  nodes s !! n = Some nd -> subscribers_exist s nd ->
  c ∈ subscribers nd -> nodes s !! c = Some cn ->
  targets_below s -> settled_as s val = Some x ->
  handler_for x (_onEmit cn) (_onError cn) = Some (FUser f) ->
  f (payload x) = ReturnPromise None ->
  let s1 := (emit (Some n) val s).2 in
  exists pre post t,
    queue s1 = pre ++ first_job cn c t x :: post /\
    trace (run (S (length pre)) s1) = trace s ++ flat_map job_events pre ++ [Called c First x] /\
    forall k, promises (run k s1) !! t = Some (Pending [second_reaction cn c t]).
Proof.
  intros Hn Hex Hc Hcn Hb Hx Hh Hf s1.
  destruct (emit_at_first s n nd c cn val x Hn Hex Hc Hcn Hb Hx)
    as (pre & post & t & Q & Hpre & Hpost & Hst & Ht & Hb1).
  fold s1 in Q, Hst, Ht, Hb1. exists pre, post, t. split; [done|]. split.
  { destruct (job_runs s1 pre _ post Q) as (_ & T). rewrite T. unfold s1.
    rewrite (emit_trace n nd) by done. rewrite job_events_first. unfold first_event.
    by rewrite Hh. }
  assert (Hlt : t < length (promises s1)) by (by eapply lookup_lt_Some).
  intros k. destruct (decide (k <= length pre)) as [Hk|Hk].
  { by rewrite (run_front_frame pre s1 _ t k Q Hpre Hlt Hk). }
  replace k with (length pre + S (k - S (length pre))) by lia. rewrite run_add.
  destruct (run_front pre s1 _ Q) as (_ & _ & _ & L2 & F2).
  destruct (run_front_clean (avoids t) pre s1 _ (avoids_adopt_ok t) Q Hpre)
    as (js & Q2 & Hjs & Hst2); [by apply avoids_fresh_ok|exact Hst|].
  pose proof (targets_below_run (length pre) s1 Hb1) as Hb2.
  set (s2 := run (length pre) s1) in *. cbn [run].
  assert (Ht2 : promises s2 !! t = Some (Pending [second_reaction cn c t])).
  { by rewrite F2. }
  destruct (stalled_is_blocked s2 cn c t x f (post ++ js)) as [Hbl Ht3]; auto.
  { by apply Forall_app. }
  destruct (blocked_run t (length (promises s2)) (k - S (length pre)) (step s2) Hbl) as [E _].
  by rewrite E.
Qed.

Lemma never_settling_blocks_second_stage_witness :
  exists pre post t,
    queue stall_scenario =
      pre ++ first_job (Node [4] (Some 0) (Some never) None (Some (FNextErr 2)) BySubscribe)
                       2 t (Fulfilled (Num 5)) :: post /\
    trace (run (S (length pre)) stall_scenario) =
      trace stall_tree ++ flat_map job_events pre ++ [Called 2 First (Fulfilled (Num 5))] /\
    forall k, promises (run k stall_scenario) !! t =
      Some (Pending [second_reaction
                       (Node [4] (Some 0) (Some never) None (Some (FNextErr 2)) BySubscribe)
                       2 t]).
Proof.
  apply (never_settling_blocks_second_stage stall_tree 0
           (Node [1; 2] None None None None Direct) 2
           (Node [4] (Some 0) (Some never) None (Some (FNextErr 2)) BySubscribe)
           (Plain (Num 5)) (Fulfilled (Num 5)) (fun _ => ReturnPromise None)).
  - reflexivity.
  - apply subscribers_exist_check; reflexivity.
  - by right; left.
  - reflexivity.
  - split; constructor.
  - reflexivity.
  - reflexivity.
  - reflexivity.
Defined.


(** X15.  A value that the first stage of a subscriber [c] produced is not
    dispatched to [c]'s own subscribers.  When the second stage runs on it,
    [c.emit], passed to [then] without its receiver, is called with the
    value and raises a TypeError: in that turn of the loop no node changes,
    no callback of a subscriber of [c] is scheduled with the value, and the
    only jobs added are those of reactions that waited on the promise of
    the stage, with the TypeError as their input. *)
Theorem fulfilled_value_is_not_dispatched s n nd c cn val x w :
  nodes s !! n = Some nd -> subscribers_exist s nd ->
  c ∈ subscribers nd -> nodes s !! c = Some cn ->
  targets_below s ->
  settled_as s val = Some x -> first_result cn x = Some (Fulfilled w) ->
  exists k rest rs,
    let s1 := run k (emit (Some n) val s).2 in
    (exists t, queue s1 = Job (second_reaction cn c t) (Fulfilled w) :: rest) /\
    nodes (step s1) = nodes s /\
    trace (step s1) = trace s1 ++ [Called c Second (Fulfilled w)] /\
    queue (step s1) = rest ++ map (fun r => Job r (Rejected TypeError)) rs.
Proof.
  intros Hn Hex Hc Hcn Hb Hx Hy.
  destruct (first_to_second s n nd c cn val x _ Hn Hex Hc Hcn Hb Hx Hy)
    as (k & t & q & evs1 & evs2 & Q & N & T).
  set (s0 := run k (emit (Some n) val s).2) in *.
  destruct (run_front q s0 _ Q) as (N1 & _ & [js Q1] & _).
  cbn [app] in Q1.
  pose proof (detached_second_stage (run (length q) s0) _ _ _ _ _ Q1) as Hs.
  destruct (settle_jobs (S t) (Rejected TypeError)
              (log (Called c Second (Fulfilled w)) (set_queue js (run (length q) s0))))
    as (N2 & T2 & rs & Q2).
  exists (k + length q), js, rs. cbn zeta. rewrite run_add. fold s0.
  split; [by exists t|]. rewrite Hs, N2, T2, Q2. cbn [log set_queue nodes trace queue].
  by rewrite N1, N.
Qed.

Lemma fulfilled_value_is_not_dispatched_witness :
  exists k rest rs,
    (exists t, queue (run k (emit (Some 0) (Plain (Num 21)) map_tree).2) =
       Job (second_reaction (subscriber_node 0 1 (Some double) (Some recover)) 1 t)
           (Fulfilled (Num 42)) :: rest) /\
    nodes (step (run k (emit (Some 0) (Plain (Num 21)) map_tree).2)) = nodes map_tree /\
    trace (step (run k (emit (Some 0) (Plain (Num 21)) map_tree).2)) =
      trace (run k (emit (Some 0) (Plain (Num 21)) map_tree).2)
        ++ [Called 1 Second (Fulfilled (Num 42))] /\
    queue (step (run k (emit (Some 0) (Plain (Num 21)) map_tree).2)) =
      rest ++ map (fun r => Job r (Rejected TypeError)) rs.
Proof.
  apply (fulfilled_value_is_not_dispatched map_tree 0
           (Node [1] None None None None Direct) 1
           (subscriber_node 0 1 (Some double) (Some recover))
           (Plain (Num 21)) (Fulfilled (Num 21)) (Num 42)).
  - reflexivity.
  - apply subscribers_exist_check; reflexivity.
  - by left.
  - reflexivity.
  - split; repeat constructor.
  - reflexivity.
  - reflexivity.
Defined.


(** X16.  Map and filter keep the order, for good.  Plain values [vs] are
    emitted into [n], from an empty queue, one after the other; the
    subscribers of [n] have user callbacks and no subscribers of their own,
    and the [onEmit] of subscriber [c] is [f].  After three turns of the loop
    per first stage the queue is empty, so the trace is final, and the
    values [c]'s own [emit] was called with are: the values [f] returned
    directly, in emission order, followed by the values of the fulfilled
    promises [f] returned, in emission order.  The values on which [f] threw,
    or returned a rejected promise or one that never settles (a filter), are
    left out for good.  For an [f] that returns no settled promise the list
    is that of its results, in emission order. *)
Theorem transform_results_in_order s n nd vs c cn f :
  queue s = [] ->
  nodes s !! n = Some nd -> leaves s nd ->
  NoDup (subscribers nd) -> c ∈ subscribers nd -> nodes s !! c = Some cn ->
  _onEmit cn = Some (FUser f) ->
  forall k, 3 * (length vs * length (subscribers nd)) <= k ->
    queue (run k (emit_all n vs s)) = [] /\
    handed_on c (trace (run k (emit_all n vs s))) =
      handed_on c (trace s) ++ flat_map (fun v => handed_by (f v)) vs
        ++ flat_map (fun v => handed_later (f v)) vs.
Proof.
  intros Hq Hn Hlv Hnd Hc Hcn Hf k Hk.
  assert (Hex : subscribers_exist s nd).
  { intros c' Hc'. destruct (Hlv c' Hc') as (cn' & H & _). by exists cn'. }
  destruct (emit_all_armed n nd vs s Hn Hex)
    as (J & extra & Q & _ & N & T & HF & _ & HND & HA).
  destruct (emit_all_spare n nd vs s Hn Hex) as (js & _ & Q' & _ & HS).
  rewrite Hq in Q, Q'. cbn [app] in Q, Q'. rewrite Q in Q'. subst js.
  set (s0 := emit_all n vs s) in *. set (JJ := concat J) in *.
  destruct (emitted_events s c cn nd vs J HF Hcn Hnd Hc) as (E0 & _ & E2 & _ & _).
  fold JJ in E0, E2.
  assert (HS0 : Forall (fun a => spare s0 (fs_target a)) JJ).
  { apply Forall_forall. intros a Ha.
    pose proof (proj1 (Forall_forall _ _) HS (job_of a)) as H. apply H.
    apply list_elem_of_fmap. by exists a. }
  assert (Hap : forall a b, a ∈ JJ -> b ∈ JJ -> fs_target a <> S (fs_target b)).
  { intros a b Ha Hb E. rewrite Forall_forall in HA, HS0.
    pose proof (HA a Ha) as H1. pose proof (HS0 b Hb) as H2.
    unfold armed, spare in *. rewrite E in H1. rewrite H1 in H2. discriminate H2. }
  pose proof (scheduled_members s _ vs J HF) as HM. fold JJ in HM.
  assert (Hleaf : Forall (fun a => nodes s !! fs_who a = Some (fs_node a) /\
                    subscribers (fs_node a) = [] /\
                    _nextErr (fs_node a) = Some (FNextErr (fs_who a)) /\
                    user_or_absent (handler_for (fs_input a) (_onEmit (fs_node a))
                                                (_onError (fs_node a)))) JJ).
  { eapply Forall_impl; [exact HM|]. intros a (Hin & Hnode & v & Hv).
    destruct (Hlv _ Hin) as (cn' & H1 & H2 & H3 & H4).
    assert (cn' = fs_node a) as -> by congruence. rewrite Hv. by cbn. }
  (* the first stages *)
  destruct (first_jobs_run JJ s0 []) as (Q1 & N1 & T1);
    [by rewrite app_nil_r|done|done| |].
  { eapply Forall_impl; [exact Hleaf|]. by intros a (_ & _ & _ & H). }
  destruct (first_jobs_run_store JJ s0 []) as (L1 & F1 & A1);
    [by rewrite app_nil_r|done|done| |].
  { eapply Forall_impl; [exact Hleaf|]. by intros a (_ & _ & _ & H). }
  cbn [app] in Q1. set (s1 := run (length JJ) s0) in *.
  assert (HS1 : Forall (fun a => spare s1 (fs_target a)) JJ).
  { rewrite Forall_forall in *. intros a Ha. pose proof (HS0 a Ha) as H0.
    unfold spare in *. rewrite F1; [done|by eapply lookup_lt_Some|].
    intros Hin. apply list_elem_of_fmap in Hin as (b & E & Hb). by apply (Hap b a). }
  assert (Hset : Forall (set_up s1) JJ).
  { rewrite Forall_forall in *. intros a Ha.
    destruct (Hleaf a Ha) as (H1 & H2 & H3 & _).
    split; [by apply HS1|]. split; [by apply A1|]. by rewrite N1, N. }
  destruct (appends_ready s1 JJ Hset) as (App1 & HR1 & HC1).
  (* the jobs they appended *)
  destruct (ready_jobs_run (flat_map appends JJ) s1 [] App1) as (Q2 & N2 & L2 & F2);
    [by rewrite app_nil_r|by apply appends_NoDup|done|].
  destruct (run_front (flat_map appends JJ) s1 []) as (_ & T2 & _);
    [by rewrite app_nil_r|].
  cbn [app] in Q2. rewrite HC1 in Q2.
  set (s2 := run (length (flat_map appends JJ)) s1) in *.
  destruct (adopted_ready s2 JJ) as (App2 & HR2 & HC2).
  { rewrite Forall_forall in *. intros a Ha Had.
    destruct (Hleaf a Ha) as (H1 & H2 & H3 & _). pose proof (HS1 a Ha) as H0.
    split; [|by rewrite N2, N1, N].
    unfold spare in *. rewrite F2; [done|by eapply lookup_lt_Some|].
    by apply adopting_spare_apart. }
  (* the second stages of the adopted promises *)
  destruct (ready_jobs_run (flat_map adopted JJ) s2 [] App2) as (Q3 & _);
    [by rewrite app_nil_r|by apply adopted_NoDup|done|].
  destruct (run_front (flat_map adopted JJ) s2 []) as (_ & T3 & _);
    [by rewrite app_nil_r|].
  cbn [app] in Q3. rewrite HC2 in Q3.
  set (s3 := run (length (flat_map adopted JJ)) s2) in *.
  pose proof (appends_length JJ) as La. pose proof (adopted_length JJ) as Lb.
  assert (Hrun : run k s0 = s3).
  { replace k with (length JJ + (length (flat_map appends JJ)
                      + (length (flat_map adopted JJ)
                         + (k - length JJ - length (flat_map appends JJ)
                              - length (flat_map adopted JJ))))) by lia.
    rewrite !run_add. fold s1 s2 s3. by apply run_quiet. }
  rewrite Hrun. split; [done|].
  rewrite T3, T2, T1, T, !handed_on_app, E2, app_nil_r, <- app_assoc. unfold JJ.
  rewrite (emitted_events_user s c cn f nd vs J HF Hcn Hf Hnd Hc).
  by rewrite (emitted_events_later s c cn f nd vs J HF Hcn Hf Hnd Hc).
Qed.

Lemma transform_results_in_order_witness :
  queue (run 18 (emit_all 0 [Num 1; Num (-2); Num 3] mixed_tree)) = [] /\
  handed_on 1 (trace (run 18 (emit_all 0 [Num 1; Num (-2); Num 3] mixed_tree))) =
    [Num 6; Num 10].
Proof.
  apply (transform_results_in_order mixed_tree 0 (Node [1; 2] None None None None Direct)
           [Num 1; Num (-2); Num 3] 1
           (subscriber_node 0 1 (Some (FUser resolve_or_double)) None) resolve_or_double).
  - reflexivity.
  - reflexivity.
  - intros c Hc. apply elem_of_cons in Hc as [->|Hc].
    { exists (subscriber_node 0 1 (Some (FUser resolve_or_double)) None). by repeat split. }
    apply list_elem_of_singleton in Hc as ->.
    exists (subscriber_node 0 2 (Some identity) None). by repeat split.
  - apply NoDup_cons. split; [|apply NoDup_singleton].
    intros H. apply list_elem_of_singleton in H. discriminate H.
  - by left.
  - reflexivity.
  - reflexivity.
  - cbn. lia.
Defined.


(** X17.  [merge] composes: a settled value emitted into a source, fulfilled
    or rejected, gets through any number of nested merged nodes.  Each
    bridge calls the bound [emit] of its merged node (for a failure, with a
    promise rejected by the same reason), and the node at the end of the
    path gets the same settled value at its first stage. *)
Theorem merge_composes s x xn b bn d dn val r :
  nodes s !! x = Some xn -> subscribers_exist s xn ->
  b ∈ subscribers xn -> nodes s !! b = Some bn ->
  carries (nodes s) b d -> nodes s !! d = Some dn ->
  settled_as s val = Some r ->
  exists k evs,
    trace (run k (emit (Some x) val s).2) = trace s ++ evs /\
    first_event dn d r ∈ evs.
Proof.
  intros Hx Hex Hb Hbn Hpath Hd Hr.
  destruct (emit_reaches s x xn b bn val r Hx Hex Hb Hbn Hr) as (pre & post & t & Q & N & T).
  destruct (first_job_carries (nodes s) b d Hpath _ bn dn pre post t r N Hbn Hd Q)
    as (k & evs & T2 & Hin).
  exists k, evs. split; [|done]. by rewrite T2, T.
Qed.

Lemma merge_composes_witness :
  (exists k evs,
     trace (run k (emit (Some 0) (Plain (Num 5)) nested_merge).2) = trace nested_merge ++ evs /\
     Called 5 First (Fulfilled (Num 5)) ∈ evs) /\
  (exists k evs,
     trace (run k (emit (Some 0) (Fut 0) nested_merge).2) = trace nested_merge ++ evs /\
     Passed 5 First (Rejected (ErrorObj "x")) ∈ evs).
Proof.
  assert (Hpath : carries (nodes nested_merge) 2 5).
  { apply (carries_bridge _ 2 (subscriber_node 0 2 (Some (FEmit (BoundEmit 1)))
                                 (Some (FMergeErr (BoundEmit 1)))) 1
             (Node [4] None None None None Direct) 4 5);
      [reflexivity|by split|reflexivity| |by left|].
    { apply (subscribers_exist_check nested_merge). reflexivity. }
    apply (carries_bridge _ 4 (subscriber_node 1 4 (Some (FEmit (BoundEmit 3)))
                                 (Some (FMergeErr (BoundEmit 3)))) 3
             (Node [5] None None None None Direct) 5 5);
      [reflexivity|by split|reflexivity| |by left|apply carries_here].
    apply (subscribers_exist_check nested_merge). reflexivity. }
  split.
  - apply (merge_composes nested_merge 0 (Node [2] None None None None Direct) 2
             (subscriber_node 0 2 (Some (FEmit (BoundEmit 1))) (Some (FMergeErr (BoundEmit 1))))
             5 (subscriber_node 3 5 (Some identity) None) (Plain (Num 5)) (Fulfilled (Num 5)));
      [reflexivity|apply subscribers_exist_check; reflexivity|by left|reflexivity|exact Hpath
      |reflexivity|reflexivity].
  - apply (merge_composes nested_merge 0 (Node [2] None None None None Direct) 2
             (subscriber_node 0 2 (Some (FEmit (BoundEmit 1))) (Some (FMergeErr (BoundEmit 1))))
             5 (subscriber_node 3 5 (Some identity) None) (Fut 0) (Rejected (ErrorObj "x")));
      [reflexivity|apply subscribers_exist_check; reflexivity|by left|reflexivity|exact Hpath
      |reflexivity|reflexivity].
Defined.

